(** * cocaine-worker-nodejs: the worker's session multiplexer

    A shallow embedding of the worker as listed in [src/main.cpp] (the
    part after the bootstrap [main]): the upstream adapter [upstream_t],
    the message dispatcher and drain loop of [worker_t::process], and the
    liveness callbacks.  Exceptions are modelled by an [outcome], the worker's
    fields by a record that is threaded through a small state / writer /
    exception monad whose written output is the ordered trace of sent
    protocol messages and log lines. *)

From Stdlib Require Import QArith.
From stdpp Require Import gmap strings list fin_maps.

Open Scope Z_scope.

(** ** Wire data *)

(** [unique_id_t]: a 128-bit UUID. *)
Definition unique_id_t := N.

(** [error_code] is declared in cocaine-core; the worker only ever
    names [invocation_error], the application may pass any code. *)
Inductive error_code :=
  | invocation_error
  | app_error_code (n : Z).

Module rpc.

Inductive suicide_reasons := normal | abnormal.

(** The typed messages of the control channel, in both directions. *)
Inductive message :=
  | heartbeat
  | suicide (reason : suicide_reasons) (message : string)
  | terminate
  | invoke (session_id : unique_id_t) (event : string)
  | chunk (session_id : unique_id_t) (data : string)
  | error (session_id : unique_id_t) (code : error_code) (message : string)
  | choke (session_id : unique_id_t)
  | other (message_id : Z).

(** What [event_traits<...>::id] distinguishes: the type of a message. *)
Inductive tag :=
  | t_heartbeat | t_suicide | t_terminate | t_invoke | t_chunk | t_error
  | t_choke | t_other (message_id : Z).

Definition type_of (m : message) : tag :=
  match m with
  | heartbeat => t_heartbeat
  | suicide _ _ => t_suicide
  | terminate => t_terminate
  | invoke _ _ => t_invoke
  | chunk _ _ => t_chunk
  | error _ _ _ => t_error
  | choke _ => t_choke
  | other i => t_other i
  end.

End rpc.

(** ** Exceptions *)

(** [std_exception what] stands for anything derived from
    [std::exception] (so also [cocaine::error_t]); [foreign_exception]
    for what only [catch(...)] catches. *)
Inductive exn :=
  | std_exception (what : string)
  | foreign_exception.

Inductive outcome (X : Type) :=
  | Returned (x : X)
  | Thrown (e : exn).
Arguments Returned {X} x.
Arguments Thrown {X} e.

Definition stream_closed : exn := std_exception "the stream has been closed"%string.

(** ** The upstream adapter *)

Inductive state_t := open | closed.

Record upstream_t := mk_upstream {
  m_id : unique_id_t;
  m_state : state_t
}.

Module Upstream.

(** [upstream_t::upstream_t] *)
Definition make (id : unique_id_t) : upstream_t :=
  {| m_id := id; m_state := open |}.

Definition set_state (u : upstream_t) (s : state_t) : upstream_t :=
  {| m_id := m_id u; m_state := s |}.

(** Each operation returns the adapter after the call and the messages
    handed to [worker_t::send], in order; a raised exception leaves the
    adapter as it was and sends nothing. *)
Definition push (u : upstream_t) (chunk : string)
  : outcome (upstream_t * list rpc.message) :=
  match m_state u with
  | open => Returned (u, [rpc.chunk (m_id u) chunk])
  | closed => Thrown stream_closed
  end.

Definition error (u : upstream_t) (code : error_code) (message : string)
  : outcome (upstream_t * list rpc.message) :=
  match m_state u with
  | open =>
      Returned (set_state u closed,
                [rpc.error (m_id u) code message; rpc.choke (m_id u)])
  | closed => Thrown stream_closed
  end.

Definition close (u : upstream_t)
  : outcome (upstream_t * list rpc.message) :=
  match m_state u with
  | open => Returned (set_state u closed, [rpc.choke (m_id u)])
  | closed => Thrown stream_closed
  end.

(** [upstream_t::~upstream_t] *)
Definition dtor (u : upstream_t) : upstream_t * list rpc.message :=
  match m_state u with
  | closed => (u, [])
  | open =>
      match close u with
      | Returned r => r
      | Thrown _ => (u, [])
      end
  end.

(** The three calls of the [api::stream_t] interface, as data. *)
Inductive call :=
  | c_push (chunk : string)
  | c_error (code : error_code) (message : string)
  | c_close.

Definition perform (u : upstream_t) (c : call)
  : outcome (upstream_t * list rpc.message) :=
  match c with
  | c_push d => push u d
  | c_error code msg => error u code msg
  | c_close => close u
  end.

(** The adapter after a call, whether it returned or raised. *)
Definition after (u : upstream_t) (c : call) : upstream_t :=
  match perform u c with
  | Returned (u', _) => u'
  | Thrown _ => u
  end.

Definition emitted (u : upstream_t) (c : call) : list rpc.message :=
  match perform u c with
  | Returned (_, out) => out
  | Thrown _ => []
  end.

(** A caller that keeps calling, whatever each call answers. *)
Fixpoint after_all (u : upstream_t) (cs : list call) : upstream_t :=
  match cs with
  | [] => u
  | c :: cs' => after_all (after u c) cs'
  end.

Fixpoint emitted_all (u : upstream_t) (cs : list call) : list rpc.message :=
  match cs with
  | [] => []
  | c :: cs' => emitted u c ++ emitted_all (after u c) cs'
  end.

Definition terminating (c : call) : bool :=
  match c with
  | c_push _ => false
  | c_error _ _ | c_close => true
  end.

End Upstream.

(** ** Effects, time and the event loop *)

Inductive log_line :=
  | DEBUG_received (type : rpc.tag)
      (* "worker %s received type %d message" *)
  | WARNING_dropping_unknown (type : rpc.tag)
      (* "worker %s dropping unknown type %d message" *)
  | ERROR_lost_engine.
      (* "worker %s has lost the controlling engine" *)

(** What a callback does to the outside, in order: [worker_t::send] on
    the control channel and lines written to [m_log]. *)
Inductive effect :=
  | Sent (m : rpc.message)
  | Logged (l : log_line).

Definition sent_messages (out : list effect) : list rpc.message :=
  omap (λ e, match e with Sent m => Some m | Logged _ => None end) out.

(** [ev_tstamp] is a double; only "now + timeout" is formed from it. *)
Definition ev_tstamp := Q.

(** [ev::timer]: whether it is running and the time it fires at. *)
Record ev_timer := mk_timer {
  active : bool;
  at_ : ev_tstamp
}.

(** What the worker touches of [m_loop]: the loop's cached current
    time, whether [unloop(ev::ALL)] was called, and the number of
    read events fed for the channel's descriptor by [feed_fd_event]. *)
Record ev_loop := mk_loop {
  ev_now : ev_tstamp;
  unlooped : bool;
  fed : nat
}.

Record profile_t := mk_profile {
  heartbeat_timeout : ev_tstamp
}.

(** ** Shared stream objects

    The dispatcher and the application share each upstream adapter
    through [boost::shared_ptr]s.  Adapters live in a heap indexed by
    allocation order; a [ref] is the identity of one adapter object.
    [held] records whether the application (or the downstream handle it
    returned) still has a pointer to the adapter. *)

Abbreviation ref := nat.

Record cell := mk_cell {
  obj : upstream_t;
  held : bool
}.

(** The downstream stream returned by the sandbox is the application's
    object: the worker only stores the pointer and calls through it. *)
Abbreviation handle := nat.

(** [io_pair_t], declared in worker.hpp, built in [process] as
    [{upstream, downstream}]. *)
Record io_pair_t := mk_io {
  upstream : ref;
  downstream : handle
}.

(** What application code does with an upstream pointer it holds. *)
Inductive app_op :=
  | app_call (r : ref) (c : Upstream.call)
  | app_release (r : ref).

(** The application's side of one call into it: the upstream operations
    it performs before the call ends, and how the call ends. *)
Record reply (X : Type) := mk_reply {
  calls : list app_op;
  result : outcome X
}.
Arguments mk_reply {X} calls result.
Arguments calls {X} r.
Arguments result {X} r.

(** The sandbox capability and the downstream streams it hands out, over
    an application state [App]: [api::sandbox_t::invoke], the downstream's
    [push] and [close], and what the application does when the worker
    drops its pointer to a downstream stream (its destructor, if that
    pointer was the last one). *)
Record sandbox_t (App : Type) := mk_sandbox {
  sb_invoke : App → string → ref → App * reply handle;
  ds_push : App → handle → string → App * reply unit;
  ds_close : App → handle → App * reply unit;
  ds_release : App → handle → App * list app_op
}.
Arguments sb_invoke {App} s.
Arguments ds_push {App} s.
Arguments ds_close {App} s.
Arguments ds_release {App} s.

(** [stream_map_t] is declared in worker.hpp (a map or unordered map from
    [unique_id_t] to [io_pair_t]); either way a keyed finite map. *)
Abbreviation stream_map_t := (gmap unique_id_t io_pair_t).

(** The fields of [worker_t] that the callbacks read or write. *)
Record worker_t (App : Type) := mk_worker {
  m_streams : stream_map_t;
  m_heap : list cell;
  m_disown_timer : ev_timer;
  m_loop : ev_loop;
  m_profile : profile_t;
  m_sandbox : App
}.
Arguments mk_worker {App}.
Arguments m_streams {App} w.
Arguments m_heap {App} w.
Arguments m_disown_timer {App} w.
Arguments m_loop {App} w.
Arguments m_profile {App} w.
Arguments m_sandbox {App} w.

(** [what_of e] is [e.what()] in the [std::exception] handler and the
    fixed text of the [catch(...)] handler. *)
Definition what_of (e : exn) : string :=
  match e with
  | std_exception w => w
  | foreign_exception => "unexpected exception"%string
  end.

(** [int] arithmetic: the value of a 32-bit two's complement result. *)
Definition wrap_int (z : Z) : Z := (z + 2 ^ 31) mod 2 ^ 32 - 2 ^ 31.

(** ** The worker's callbacks *)

Module Worker.
Section WithSandbox.

Context {App : Type}.
(** The application behind [m_sandbox]. *)
Variable sb : sandbox_t App.
(** [defaults::io_bulk_size], a constant of cocaine-core. *)
Variable io_bulk_size : Z.

Abbreviation worker := (worker_t App).

(** A computation over the worker: it ends by returning or throwing,
    leaves a worker state behind either way, and has written some
    effects. *)
Definition M (X : Type) : Type := worker → outcome X * worker * list effect.

Definition ret {X} (x : X) : M X := λ w, (Returned x, w, []).

Definition bind {X Y} (m : M X) (k : X → M Y) : M Y := λ w,
  match m w with
  | (Returned x, w1, out1) =>
      let '(r, w2, out2) := k x w1 in (r, w2, out1 ++ out2)
  | (Thrown e, w1, out1) => (Thrown e, w1, out1)
  end.

Definition throw {X} (e : exn) : M X := λ w, (Thrown e, w, []).

(** [try { body } catch(const std::exception& e) { h } catch(...) { h }]:
    an exception raised by the handler itself is not caught again. *)
Definition try_catch {X} (body : M X) (handler : exn → M X) : M X := λ w,
  match body w with
  | (Returned x, w1, out1) => (Returned x, w1, out1)
  | (Thrown e, w1, out1) =>
      let '(r, w2, out2) := handler e w1 in (r, w2, out1 ++ out2)
  end.

Definition get : M worker := λ w, (Returned w, w, []).
Definition modify (f : worker → worker) : M unit := λ w, (Returned tt, f w, []).
Definition emit (out : list effect) : M unit := λ w, (Returned tt, w, out).

Notation "x <- m ;> k" := (bind m (λ x, k))
  (at level 100, m at next level, k at level 200, right associativity,
   only parsing).
Notation "m ;> k" := (bind m (λ _, k))
  (at level 100, k at level 200, right associativity, only parsing).

Definition set_streams (f : stream_map_t → stream_map_t) (w : worker) : worker :=
  mk_worker (f (m_streams w)) (m_heap w) (m_disown_timer w) (m_loop w)
            (m_profile w) (m_sandbox w).
Definition set_heap (f : list cell → list cell) (w : worker) : worker :=
  mk_worker (m_streams w) (f (m_heap w)) (m_disown_timer w) (m_loop w)
            (m_profile w) (m_sandbox w).
Definition set_disown_timer (f : ev_timer → ev_timer) (w : worker) : worker :=
  mk_worker (m_streams w) (m_heap w) (f (m_disown_timer w)) (m_loop w)
            (m_profile w) (m_sandbox w).
Definition set_loop (f : ev_loop → ev_loop) (w : worker) : worker :=
  mk_worker (m_streams w) (m_heap w) (m_disown_timer w) (f (m_loop w))
            (m_profile w) (m_sandbox w).
Definition set_sandbox (a : App) (w : worker) : worker :=
  mk_worker (m_streams w) (m_heap w) (m_disown_timer w) (m_loop w)
            (m_profile w) a.

(** *** libev *)

(** [ev::timer::stop] *)
Definition timer_stop (t : ev_timer) : ev_timer := mk_timer false (at_ t).
(** [ev::timer::start(after)]: fires [after] from the loop's time. *)
Definition timer_start (now after : ev_tstamp) (_ : ev_timer) : ev_timer :=
  mk_timer true (Qplus now after).
(** [m_loop.unloop(ev::ALL)] *)
Definition unloop : M unit :=
  modify (set_loop (λ l, mk_loop (ev_now l) true (fed l))).
(** [m_loop.feed_fd_event(m_channel.fd(), ev::READ)] *)
Definition feed_fd_event : M unit :=
  modify (set_loop (λ l, mk_loop (ev_now l) (unlooped l) (S (fed l)))).

(** *** Shared pointers to upstream adapters *)

(** [boost::make_shared<upstream_t>(session_id, this)].  The pointer is
    made to be handed to the sandbox, so the new cell counts as held by
    the application until the application releases it. *)
Definition make_shared (session_id : unique_id_t) : M ref := λ w,
  (Returned (length (m_heap w)),
   set_heap (λ h, h ++ [mk_cell (Upstream.make session_id) true]) w, []).

(** Does the dispatcher still point to adapter [r]: from a stream pair
    of the table, or from the local [upstream] of the invoke case. *)
Definition pinned (local : option ref) (r : ref) (w : worker) : bool :=
  bool_decide (local = Some r)
  || existsb (λ kv, bool_decide (upstream (snd kv) = r))
             (map_to_list (m_streams w)).

(** A call through a pointer to adapter [r].  A pointer always has its
    object ([refs_ok] below for the table's pointers); the last case only
    makes the function total. *)
Definition upstream_call (r : ref) (c : Upstream.call) : M unit := λ w,
  match m_heap w !! r with
  | Some cl =>
      match Upstream.perform (obj cl) c with
      | Returned (u', out) =>
          (Returned tt, set_heap (<[r := mk_cell u' (held cl)]>) w, Sent <$> out)
      | Thrown e => (Thrown e, w, [])
      end
  | None => (Returned tt, w, [])
  end.

(** A pointer to adapter [r] has gone away: [~upstream_t] runs if
    neither the application nor the dispatcher has one left. *)
Definition unref (local : option ref) (r : ref) : M unit := λ w,
  match m_heap w !! r with
  | Some cl =>
      if held cl || pinned local r w then (Returned tt, w, [])
      else
        let '(u', out) := Upstream.dtor (obj cl) in
        (Returned tt, set_heap (<[r := mk_cell u' false]>) w, Sent <$> out)
  | None => (Returned tt, w, [])
  end.

(** *** Calls into the application *)

(** One action of the application on a pointer it holds.  An exception
    raised by the adapter surfaces inside the application; whether the
    enclosing call ends by it is told by the reply's [result]. *)
Definition app_step (local : option ref) (op : app_op) : M unit := λ w,
  match op with
  | app_call r c =>
      match m_heap w !! r with
      | Some cl =>
          if held cl then
            match upstream_call r c w with
            | (Thrown _, w', out) => (Returned tt, w', out)
            | res => res
            end
          else (Returned tt, w, [])
      | None => (Returned tt, w, [])
      end
  | app_release r =>
      match m_heap w !! r with
      | Some cl =>
          if held cl then
            (modify (set_heap (<[r := mk_cell (obj cl) false]>)) ;>
             unref local r) w
          else (Returned tt, w, [])
      | None => (Returned tt, w, [])
      end
  end.

Fixpoint app_steps (local : option ref) (ops : list app_op) : M unit :=
  match ops with
  | [] => ret tt
  | op :: ops' => app_step local op ;> app_steps local ops'
  end.

(** A call into application code [f]: the application moves to its next
    state, performs its upstream operations, and returns or throws. *)
Definition enter {X} (local : option ref) (f : App → App * reply X) : M X := λ w,
  let '(a', rep) := f (m_sandbox w) in
  (app_steps local (calls rep) ;>
   match result rep with
   | Returned x => ret x
   | Thrown e => throw e
   end) (set_sandbox a' w).

(** The dispatcher's pointer to a downstream stream goes away. *)
Definition drop_downstream (local : option ref) (h : handle) : M unit := λ w,
  let '(a', ops) := ds_release sb (m_sandbox w) h in
  app_steps local ops (set_sandbox a' w).

(** *** The session table *)

(** [m_streams.emplace(session_id, io)]: no effect on a key that is
    already there.  Tells whether the pair was stored. *)
Definition emplace (session_id : unique_id_t) (io : io_pair_t) : M bool := λ w,
  match m_streams w !! session_id with
  | Some _ => (Returned false, w, [])
  | None => (Returned true, set_streams (<[session_id := io]>) w, [])
  end.

(** [m_streams.erase(it)]: the stored pair is destroyed, its members in
    reverse order of declaration: first [downstream], while the pair's
    [upstream] still points to the adapter, then [upstream]. *)
Definition erase (session_id : unique_id_t) (io : io_pair_t) : M unit :=
  modify (set_streams (delete session_id)) ;>
  drop_downstream (Some (upstream io)) (downstream io) ;>
  unref None (upstream io).

(** *** worker_t *)

(** [worker_t::terminate] *)
Definition terminate (reason : rpc.suicide_reasons) (message : string) : M unit :=
  emit [Sent (rpc.suicide reason message)] ;>
  unloop.

(** [worker_t::on_heartbeat] *)
Definition on_heartbeat : M unit :=
  emit [Sent rpc.heartbeat].

(** [worker_t::on_disown] *)
Definition on_disown : M unit :=
  emit [Logged ERROR_lost_engine] ;>
  unloop.

(** The [try] statement of the invoke case, around the sandbox call. *)
Definition invoke_try (session_id : unique_id_t) (event : string) (r : ref)
  : M unit :=
  try_catch
    (h <- enter (Some r) (λ a, sb_invoke sb a event r) ;>
     stored <- emplace session_id (mk_io r h) ;>
     (* [io] goes out of scope *)
     if stored : bool then ret tt else drop_downstream (Some r) h)
    (λ e, upstream_call r (Upstream.c_error invocation_error (what_of e))).

(** The body of the loop of [worker_t::process] once a message has been
    received: the debug line and the [switch]. *)
Definition dispatch (m : rpc.message) : M unit :=
  emit [Logged (DEBUG_received (rpc.type_of m))] ;>
  match m with
  | rpc.heartbeat =>
      modify (set_disown_timer timer_stop) ;>
      modify (λ w, set_disown_timer
                     (timer_start (ev_now (m_loop w))
                                  (heartbeat_timeout (m_profile w))) w)
  | rpc.invoke session_id event =>
      r <- make_shared session_id ;>
      invoke_try session_id event r ;>
      (* [upstream] goes out of scope *)
      unref None r
  | rpc.chunk session_id message =>
      w <- get ;>
      match m_streams w !! session_id with
      | Some io =>
          try_catch
            (enter None (λ a, ds_push sb a (downstream io) message))
            (λ e,
               upstream_call (upstream io)
                 (Upstream.c_error invocation_error (what_of e)) ;>
               erase session_id io)
      | None => ret tt
      end
  | rpc.choke session_id =>
      w <- get ;>
      match m_streams w !! session_id with
      | Some io =>
          try_catch
            (enter None (λ a, ds_close sb a (downstream io)))
            (λ e,
               upstream_call (upstream io)
                 (Upstream.c_error invocation_error (what_of e))) ;>
          erase session_id io
      | None => ret tt
      end
  | rpc.terminate =>
      terminate rpc.normal "per request"
  | _ =>
      (* the message is dropped from the channel *)
      emit [Logged (WARNING_dropping_unknown (rpc.type_of m))]
  end.

(** The [do ... while(--counter)] loop of [worker_t::process] over the
    messages [q] that the channel yields to non-blocking receives; it
    returns the messages left in the channel.  An empty [q] is the
    receive that fails.  Every case of the [switch] receives its whole
    message, so the assertion at the top of the loop body holds and is
    left out. *)
Fixpoint drain (q : list rpc.message) (counter : Z) : M (list rpc.message) :=
  match q with
  | [] => ret []
  | m :: q' =>
      dispatch m ;>
      let counter' := wrap_int (counter - 1) in
      if counter' =? 0 then
        feed_fd_event ;>
        ret q'
      else drain q' counter'
  end.

(** [worker_t::process] *)
Definition process (q : list rpc.message) : M (list rpc.message) :=
  drain q io_bulk_size.

(** Dispatching a list of messages one after the other. *)
Fixpoint dispatch_all (ms : list rpc.message) : M unit :=
  match ms with
  | [] => ret tt
  | m :: ms' => dispatch m ;> dispatch_all ms'
  end.

(** What one pass does, told without the counter: the first [n] queued
    messages are dispatched in order, the channel's descriptor is fed
    to the loop if the counter ran out, and the rest stays queued. *)
Definition pass (n : nat) (q : list rpc.message) : M (list rpc.message) :=
  dispatch_all (take n q) ;>
  (if bool_decide (n ≤ length q)%nat then feed_fd_event else ret tt) ;>
  ret (drop n q).

(** The worker as [worker_t::worker_t] leaves it when the sandbox was
    constructed: no stream, the disown timer started. *)
Definition construct (a : App) (profile : profile_t) (now : ev_tstamp) : worker :=
  mk_worker ∅ [] (mk_timer true (Qplus now (heartbeat_timeout profile)))
            (mk_loop now false 0) profile a.


(** *** Runs of the worker *)

(** What a dispatched message means for the life of a session, read off
    the application's answer: an invoke that the sandbox answered with
    a downstream stream starts the session; a chunk for a session of
    the table whose downstream push faults, or a choke for a session of
    the table, is its terminal event. *)
Inductive session_event :=
  | started (session_id : unique_id_t)
  | ended (session_id : unique_id_t)
  | quiet.

Definition observe (m : rpc.message) (w : worker) : session_event :=
  match m with
  | rpc.invoke session_id event =>
      match result (snd (sb_invoke sb (m_sandbox w) event (length (m_heap w)))) with
      | Returned _ => started session_id
      | Thrown _ => quiet
      end
  | rpc.chunk session_id message =>
      match m_streams w !! session_id with
      | Some io =>
          match result (snd (ds_push sb (m_sandbox w) (downstream io) message)) with
          | Returned _ => quiet
          | Thrown _ => ended session_id
          end
      | None => quiet
      end
  | rpc.choke session_id =>
      match m_streams w !! session_id with
      | Some _ => ended session_id
      | None => quiet
      end
  | _ => quiet
  end.

(** The states the worker can be in between two callbacks, with the
    session events dispatched so far.  Callbacks that throw end the
    process and lead nowhere.  Between callbacks the loop's clock moves
    and the application, which runs on the same loop, may use the
    pointers it holds. *)
Inductive reachable : list session_event → worker → Prop :=
  | reach_construct a profile now :
      reachable [] (construct a profile now)
  | reach_dispatch h w m w' out :
      reachable h w →
      dispatch m w = (Returned tt, w', out) →
      reachable (h ++ [observe m w]) w'
  | reach_feed h w w' out :
      reachable h w →
      feed_fd_event w = (Returned tt, w', out) →
      reachable h w'
  | reach_heartbeat h w w' out :
      reachable h w →
      on_heartbeat w = (Returned tt, w', out) →
      reachable h w'
  | reach_disown h w w' out :
      reachable h w →
      on_disown w = (Returned tt, w', out) →
      reachable h w'
  | reach_application h w a ops w' out :
      reachable h w →
      app_steps None ops (set_sandbox a w) = (Returned tt, w', out) →
      reachable h w'
  | reach_clock h w now :
      reachable h w →
      reachable h (set_loop (λ l, mk_loop now (unlooped l) (fed l)) w).

(** A session is live after a history when an invoke for it succeeded
    and no terminal event for it has been dispatched since. *)
Definition live (session_id : unique_id_t) (h : list session_event) : Prop :=
  ∃ h1 h2, h = h1 ++ started session_id :: h2 ∧ ended session_id ∉ h2.

(** The table after [emplace]. *)
Definition emplaced (session_id : unique_id_t) (io : io_pair_t)
    (t : stream_map_t) : stream_map_t :=
  match t !! session_id with
  | Some _ => t
  | None => <[session_id := io]> t
  end.

(** The session ids of the adapters, in allocation order. *)
Definition heap_ids (w : worker) : list unique_id_t :=
  (λ c, m_id (obj c)) <$> m_heap w.

(** What application code and adapter calls cannot change: everything
    but the adapters' states, who holds them, and the application's own
    state. *)
Definition frame (w w' : worker) : Prop :=
  m_streams w' = m_streams w ∧
  m_disown_timer w' = m_disown_timer w ∧
  m_loop w' = m_loop w ∧
  m_profile w' = m_profile w ∧
  heap_ids w' = heap_ids w.

(** Every stream pair points to an adapter that exists and was made
    for the session id the pair is stored under. *)
Definition refs_ok (w : worker) : Prop :=
  map_Forall (λ session_id io, heap_ids w !! upstream io = Some session_id)
             (m_streams w).

(** Adapter [r] exists and is open. *)
Definition open_at (r : ref) (w : worker) : Prop :=
  ∃ cl, m_heap w !! r = Some cl ∧ m_state (obj cl) = open.

End WithSandbox.
End Worker.

(** ** A scripted application

    A small sandbox whose behaviour is told by the event name and the
    chunk: it serves to run the worker on concrete inputs. *)

Module Script.

Definition invoke (_ : unit) (event : string) (r : ref) : unit * reply handle :=
  if String.eqb event "ping" then
    (tt, mk_reply [] (Returned 0%nat))
  else if String.eqb event "early" then
    (* answers at once and closes its output *)
    (tt, mk_reply [app_call r (Upstream.c_push "done"); app_call r Upstream.c_close]
                  (Returned 1%nat))
  else if String.eqb event "oneshot" then
    (* keeps no pointer to its output *)
    (tt, mk_reply [app_release r] (Returned 2%nat))
  else if String.eqb event "giveup" then
    (* closes its output, then fails *)
    (tt, mk_reply [app_call r Upstream.c_close]
                  (Thrown (std_exception "gave up")))
  else
    (tt, mk_reply [] (Thrown (std_exception "no such event"))).

Definition push (_ : unit) (h : handle) (data : string) : unit * reply unit :=
  if String.eqb data "boom" then
    (tt, mk_reply [] (Thrown (std_exception "boom")))
  else (tt, mk_reply [] (Returned tt)).

Definition close (_ : unit) (h : handle) : unit * reply unit :=
  if Nat.eqb h 1 then (tt, mk_reply [] (Thrown (std_exception "gone")))
  else (tt, mk_reply [] (Returned tt)).

Definition release (_ : unit) (h : handle) : unit * list app_op := (tt, []).

Definition sandbox : sandbox_t unit := mk_sandbox unit invoke push close release.

Definition fresh : worker_t unit :=
  Worker.construct tt (mk_profile (30 # 1)) (0 # 1).

(** The worker after dispatching [ms] from the fresh state, whether or
    not the last dispatch returned. *)
Definition after (ms : list rpc.message) : worker_t unit :=
  snd (fst (Worker.dispatch_all sandbox ms fresh)).

End Script.

(** ** The stream an adapter writes

    What the orchestrator should see of one adapter, read off a series of
    calls without running the state machine: the chunks pushed before the
    first error or close, then the termination that call asks for, or the
    destructor's choke when there was none. *)

Module Stream.

Fixpoint accepted (cs : list Upstream.call) : list string :=
  match cs with
  | Upstream.c_push d :: cs' => d :: accepted cs'
  | _ => []
  end.

Fixpoint ending (id : unique_id_t) (cs : list Upstream.call) : list rpc.message :=
  match cs with
  | [] => [rpc.choke id]
  | Upstream.c_push _ :: cs' => ending id cs'
  | Upstream.c_error code msg :: _ => [rpc.error id code msg; rpc.choke id]
  | Upstream.c_close :: _ => [rpc.choke id]
  end.

End Stream.

(** ** The channel's callbacks

    [worker_t::on_event] and [worker_t::on_check], over the two things
    they touch besides the worker's fields above: the prepare watcher
    [m_checker] and the messages queued in [m_channel]. *)

Module Loop.
Section WithSandbox.

Context {App : Type}.
Variable sb : sandbox_t App.
Variable io_bulk_size : Z.

Record channel_side := mk_side {
  m_checker : bool;                (* is the prepare watcher started *)
  m_channel : list rpc.message     (* the messages a receive would yield *)
}.

(** [worker_t::on_check] *)
Definition on_check : Worker.M (App := App) unit := Worker.feed_fd_event.

(** [worker_t::on_event]: the checker is stopped; if the channel is
    pending it is started again and one pass of [process] runs. *)
Definition on_event (s : channel_side) : Worker.M (App := App) channel_side :=
  match m_channel s with
  | [] => Worker.ret (mk_side false [])
  | q =>
      Worker.bind (Worker.process sb io_bulk_size q) (λ rest,
      Worker.ret (mk_side true rest))
  end.

(** [k] calls of [on_event] in a row, each on what the one before left. *)
Fixpoint on_events (k : nat) (s : channel_side) : Worker.M (App := App) channel_side :=
  match k with
  | O => Worker.ret s
  | S k' => Worker.bind (on_event s) (on_events k')
  end.

(** The same worker with the loop also stopped if [stop], and [k] more
    events fed. *)
Definition shift (stop : bool) (k : nat) (w : worker_t App) : worker_t App :=
  Worker.set_loop
    (λ l, mk_loop (ev_now l) (unlooped l || stop) (fed l + k)) w.

Definition shifted {X} (stop : bool) (k : nat)
    (r : outcome X * worker_t App * list effect)
  : outcome X * worker_t App * list effect :=
  let '(res, w', out) := r in (res, shift stop k w', out).

End WithSandbox.
End Loop.

(** ** Applications that leave termination to the worker

    An application is gentle when, inside the worker's calls into it, it
    only pushes on its upstream streams or drops its pointers to them: it
    never calls close() or error() itself (a stream it has dropped is
    closed by the adapter's destructor once the table has let go of
    it). *)

Module Discipline.

Definition gentle_op (op : app_op) : bool :=
  match op with
  | app_call _ c => negb (Upstream.terminating c)
  | app_release _ => true
  end.

Definition gentle (ops : list app_op) : Prop :=
  Forall (λ op, gentle_op op = true) ops.

Definition gentle_sandbox {App : Type} (sb : sandbox_t App) : Prop :=
  ∀ a,
    (∀ event r, gentle (calls (snd (sb_invoke sb a event r)))) ∧
    (∀ h data, gentle (calls (snd (ds_push sb a h data)))) ∧
    (∀ h, gentle (calls (snd (ds_close sb a h)))) ∧
    (∀ h, gentle (snd (ds_release sb a h))).

(** Every upstream adapter stored in the table is open. *)
Definition table_open {App : Type} (w : worker_t App) : Prop :=
  map_Forall (λ _ io, Worker.open_at (upstream io) w) (m_streams w).

(** A gentle scripted application: it answers "stream" by pushing a
    first chunk, fails any other event but "ping", and its downstream
    streams fail on the chunk "boom" and on closing handle 1. *)
Definition careful_invoke (_ : unit) (event : string) (r : ref)
  : unit * reply handle :=
  if String.eqb event "ping" then (tt, mk_reply [] (Returned 0%nat))
  else if String.eqb event "stream" then
    (tt, mk_reply [app_call r (Upstream.c_push "hello")] (Returned 1%nat))
  else (tt, mk_reply [] (Thrown (std_exception "no such event"))).

Definition careful : sandbox_t unit :=
  mk_sandbox unit careful_invoke Script.push Script.close Script.release.

End Discipline.

(** ** What gets written on the channel *)

Module Written.

(** An effect that an adapter of one of the sessions [ids] may have: a
    chunk, error or choke message for one of them, or a log line. *)
Definition by_adapters (ids : list unique_id_t) (e : effect) : Prop :=
  match e with
  | Sent (rpc.chunk s _) | Sent (rpc.error s _ _) | Sent (rpc.choke s) => s ∈ ids
  | Sent _ => False
  | Logged _ => True
  end.

(** The session id of an invoke message. *)
Definition invoked (m : rpc.message) : option unique_id_t :=
  match m with
  | rpc.invoke s _ => Some s
  | _ => None
  end.

(** The types of the messages that a callback has received from the
    channel, as its debug lines tell them: [process] writes one such
    line after each receive that yields a message. *)
Definition received (out : list effect) : list rpc.tag :=
  omap (λ e, match e with
             | Logged (DEBUG_received t) => Some t
             | _ => None
             end) out.

End Written.

(** ** The adapter's state machine *)

Lemma terminating_closes u c :
  Upstream.terminating c = true → m_state (Upstream.after u c) = closed.
Proof.
  destruct u as [id []], c; simpl; intros; try discriminate; reflexivity.
Qed.

Lemma closed_rejects u c :
  m_state u = closed → Upstream.perform u c = Thrown stream_closed.
Proof.
  intros Hc. destruct c; simpl;
    unfold Upstream.push, Upstream.error, Upstream.close; now rewrite Hc.
Qed.

Lemma closed_stays u cs :
  m_state u = closed →
  Upstream.after_all u cs = u ∧ Upstream.emitted_all u cs = [].
Proof.
  intros Hc. induction cs as [|c cs IH]; simpl; [done|].
  unfold Upstream.after, Upstream.emitted.
  rewrite (closed_rejects u c Hc). simpl. done.
Qed.

(** C2: while the adapter is open, push sends one chunk and leaves it
    open, error sends an error then a choke and closes it, close sends a
    choke and closes it; and once error or close has been called on an
    adapter (in whatever state it was), each later push, error or close
    raises "the stream has been closed", and any series of later calls
    sends nothing and leaves the adapter closed. *)
Theorem upstream_closed_is_final :
  (∀ id d,
     Upstream.push (mk_upstream id open) d
     = Returned (mk_upstream id open, [rpc.chunk id d])) ∧
  (∀ id code msg,
     Upstream.error (mk_upstream id open) code msg
     = Returned (mk_upstream id closed, [rpc.error id code msg; rpc.choke id])) ∧
  (∀ id,
     Upstream.close (mk_upstream id open)
     = Returned (mk_upstream id closed, [rpc.choke id])) ∧
  (∀ u c, Upstream.terminating c = true →
     ∀ before later,
       let u' := Upstream.after_all (Upstream.after u c) before in
       Upstream.perform u' later = Thrown stream_closed ∧
       Upstream.emitted_all (Upstream.after u c) (before ++ [later]) = [] ∧
       m_state (Upstream.after u' later) = closed).
Proof.
  repeat split; try reflexivity.
  - pose proof (terminating_closes u c H) as Hc.
    destruct (closed_stays _ before Hc) as [-> _].
    by apply closed_rejects.
  - by apply closed_stays, terminating_closes.
  - pose proof (terminating_closes u c H) as Hc.
    destruct (closed_stays _ before Hc) as [-> _].
    unfold Upstream.after at 1. by rewrite closed_rejects.
Qed.

(** ** Running the monad *)

(** Closes a [Worker.frame] goal from frame facts already destructed,
    after rewriting with [H] where it applies. *)
Ltac frame_by H :=
  repeat split; unfold Worker.heap_ids in *; simpl in *;
  try rewrite H; congruence.

Section Frames.

Context {App : Type} (sb : sandbox_t App).
Abbreviation worker := (worker_t App).
Implicit Types (w : worker) (out : list effect).

Lemma bind_inv {X Y} (m : Worker.M X) (k : X → Worker.M Y) w res w' out :
  Worker.bind m k w = (res, w', out) →
  (∃ x w1 o1 o2, m w = (Returned x, w1, o1) ∧ k x w1 = (res, w', o2)
                 ∧ out = o1 ++ o2)
  ∨ (∃ e, m w = (Thrown e, w', out) ∧ res = Thrown e).
Proof.
  unfold Worker.bind. destruct (m w) as [[[x|e] w1] o1].
  - destruct (k x w1) as [[r2 w2] o2] eqn:Ek. intros [= <- <- <-].
    left. by exists x, w1, o1, o2.
  - intros [= <- <- <-]. right. by exists e.
Qed.

Lemma try_catch_inv {X} (body : Worker.M X) handler w res w' out :
  Worker.try_catch body handler w = (res, w', out) →
  (∃ x, body w = (Returned x, w', out) ∧ res = Returned x)
  ∨ (∃ e w1 o1 o2, body w = (Thrown e, w1, o1) ∧ handler e w1 = (res, w', o2)
                   ∧ out = o1 ++ o2).
Proof.
  unfold Worker.try_catch. destruct (body w) as [[[x|e] w1] o1].
  - intros [= <- <- <-]. left. by exists x.
  - destruct (handler e w1) as [[r2 w2] o2] eqn:Eh. intros [= <- <- <-].
    right. by exists e, w1, o1, o2.
Qed.

Lemma frame_refl w : Worker.frame w w.
Proof. by repeat split. Qed.

Lemma frame_trans w1 w2 w3 :
  Worker.frame w1 w2 → Worker.frame w2 w3 → Worker.frame w1 w3.
Proof.
  unfold Worker.frame. intros (?&?&?&?&?) (?&?&?&?&?).
  repeat split; congruence.
Qed.

Lemma frame_set_heap_insert w r cl0 cl :
  m_heap w !! r = Some cl0 →
  m_id (obj cl) = m_id (obj cl0) →
  Worker.frame w (Worker.set_heap (<[r := cl]>) w).
Proof.
  intros Hr Hid. repeat split. unfold Worker.heap_ids. simpl.
  rewrite list_fmap_insert. apply list_insert_id.
  by rewrite list_lookup_fmap, Hr, Hid.
Qed.

Lemma frame_set_sandbox w a : Worker.frame w (Worker.set_sandbox a w).
Proof. by repeat split. Qed.

Lemma frame_length w w' :
  Worker.frame w w' → length (m_heap w') = length (m_heap w).
Proof.
  intros (_&_&_&_&Hi). unfold Worker.heap_ids in Hi.
  by rewrite <- (length_fmap (λ c, m_id (obj c)) (m_heap w')), Hi, length_fmap.
Qed.

Lemma perform_keeps_id u c u' o :
  Upstream.perform u c = Returned (u', o) → m_id u' = m_id u.
Proof.
  destruct u as [id []], c; simpl; intros [= <- _]; reflexivity.
Qed.

Lemma dtor_keeps_id u : m_id (fst (Upstream.dtor u)) = m_id u.
Proof. by destruct u as [id []]. Qed.

Lemma upstream_call_frame r c w res w' out :
  Worker.upstream_call r c w = (res, w', out) → Worker.frame w w'.
Proof.
  unfold Worker.upstream_call.
  destruct (m_heap w !! r) as [cl|] eqn:Hr; [|intros [= <- <- <-]; apply frame_refl].
  destruct (Upstream.perform (obj cl) c) as [[u' o]|e] eqn:Hp;
    intros [= <- <- <-]; [|apply frame_refl].
  eapply frame_set_heap_insert; [exact Hr|]. simpl. by eapply perform_keeps_id.
Qed.

Lemma unref_spec local r w :
  ∃ w' out, Worker.unref local r w = (Returned tt, w', out) ∧ Worker.frame w w'
            ∧ m_sandbox w' = m_sandbox w.
Proof.
  unfold Worker.unref.
  destruct (m_heap w !! r) as [cl|] eqn:Hr;
    [|by eexists _, _; split; [|split; [apply frame_refl|]]].
  destruct (held cl || Worker.pinned local r w).
  - eexists _, _; split; [done|]. split; [apply frame_refl | done].
  - pose proof (dtor_keeps_id (obj cl)) as Hid.
    destruct (Upstream.dtor (obj cl)) as [u' o].
    eexists _, _; split; [done|]. split; [|done].
    by eapply frame_set_heap_insert.
Qed.

Lemma app_step_spec local op w :
  ∃ w' out, Worker.app_step local op w = (Returned tt, w', out) ∧ Worker.frame w w'
            ∧ m_sandbox w' = m_sandbox w.
Proof.
  destruct op as [r c|r]; simpl.
  - destruct (m_heap w !! r) as [cl|] eqn:Hr;
      [|by eexists _, _; split; [|split; [apply frame_refl|]]].
    destruct (held cl); [|by eexists _, _; split; [|split; [apply frame_refl|]]].
    destruct (Worker.upstream_call r c w) as [[[[]|e] w1] o1] eqn:Hc.
    + eexists _, _; split; [done|]. split; [by eapply upstream_call_frame|].
      revert Hc. unfold Worker.upstream_call. rewrite Hr.
      destruct (Upstream.perform (obj cl) c) as [[u' o]|e]; by intros [= <- _].
    + eexists _, _; split; [done|]. split; [by eapply upstream_call_frame|].
      revert Hc. unfold Worker.upstream_call. rewrite Hr.
      destruct (Upstream.perform (obj cl) c) as [[u' o]|e']; by intros [= _ <- _].
  - destruct (m_heap w !! r) as [cl|] eqn:Hr;
      [|by eexists _, _; split; [|split; [apply frame_refl|]]].
    destruct (held cl); [|by eexists _, _; split; [|split; [apply frame_refl|]]].
    unfold Worker.bind, Worker.modify.
    destruct (unref_spec local r (Worker.set_heap (<[r:=mk_cell (obj cl) false]>) w))
      as (w' & o & -> & Hf & Hs).
    eexists _, _; split; [done|]. split; [|done].
    eapply frame_trans; [|exact Hf]. by eapply frame_set_heap_insert.
Qed.

Lemma app_steps_spec local ops w :
  ∃ w' out, Worker.app_steps local ops w = (Returned tt, w', out) ∧ Worker.frame w w'
            ∧ m_sandbox w' = m_sandbox w.
Proof.
  revert w. induction ops as [|op ops IH]; intros w; simpl.
  - eexists _, _; split; [done|]. split; [apply frame_refl | done].
  - unfold Worker.bind.
    destruct (app_step_spec local op w) as (w1 & o1 & -> & Hf1 & Hs1).
    destruct (IH w1) as (w2 & o2 & -> & Hf2 & Hs2).
    eexists _, _; split; [done|]. split; [by eapply frame_trans | congruence].
Qed.

(** A call into the application ends the way its reply says. *)
Lemma enter_spec {X} local (f : App → App * reply X) w :
  ∃ w' out,
    Worker.enter local f w = (result (snd (f (m_sandbox w))), w', out)
    ∧ Worker.frame w w' ∧ m_sandbox w' = fst (f (m_sandbox w)).
Proof.
  unfold Worker.enter. destruct (f (m_sandbox w)) as [a' rep]; simpl.
  unfold Worker.bind.
  destruct (app_steps_spec local (calls rep) (Worker.set_sandbox a' w))
    as (w1 & o1 & -> & Hf & Hs).
  destruct (result rep) as [x|e]; simpl.
  - eexists _, _; split; [done|]. split; [|done].
    eapply frame_trans; [apply frame_set_sandbox | exact Hf].
  - eexists _, _; split; [done|]. split; [|done].
    eapply frame_trans; [apply frame_set_sandbox | exact Hf].
Qed.

Lemma drop_downstream_spec local h w :
  ∃ w' out, Worker.drop_downstream sb local h w = (Returned tt, w', out)
            ∧ Worker.frame w w'.
Proof.
  unfold Worker.drop_downstream. destruct (ds_release sb (m_sandbox w) h) as [a' ops].
  destruct (app_steps_spec local ops (Worker.set_sandbox a' w))
    as (w1 & o1 & -> & Hf & Hs).
  eexists _, _; split; [done|].
  eapply frame_trans; [apply frame_set_sandbox | exact Hf].
Qed.

End Frames.

(** ** The dispatcher, case by case *)

Section Dispatch.

Context {App : Type} (sb : sandbox_t App).
Implicit Types (w : worker_t App) (out : list effect).

Lemma frame_streams_of w w' T :
  Worker.frame (Worker.set_streams (λ _, T) w) w' → m_streams w' = T.
Proof. by intros (?&_). Qed.

Lemma erase_spec session_id io w :
  ∃ w' out,
    Worker.erase sb session_id io w = (Returned tt, w', out)
    ∧ Worker.frame (Worker.set_streams (delete session_id) w) w'.
Proof.
  unfold Worker.erase, Worker.bind, Worker.modify.
  destruct (drop_downstream_spec sb (Some (upstream io)) (downstream io)
              (Worker.set_streams (delete session_id) w))
    as (w1 & o1 & -> & Hf1).
  destruct (unref_spec None (upstream io) w1) as (w2 & o2 & -> & Hf2 & _).
  eexists _, _; split; [done|]. by eapply frame_trans.
Qed.

Lemma invoke_try_spec session_id event r w :
  ∃ res w' out,
    Worker.invoke_try sb session_id event r w = (res, w', out) ∧
    match result (snd (sb_invoke sb (m_sandbox w) event r)) with
    | Returned h =>
        res = Returned tt ∧
        Worker.frame (Worker.set_streams (Worker.emplaced session_id (mk_io r h)) w) w'
    | Thrown e => Worker.frame w w'
    end.
Proof.
  unfold Worker.invoke_try, Worker.try_catch, Worker.bind.
  destruct (enter_spec (Some r) (λ a, sb_invoke sb a event r) w)
    as (wa & oa & Ha & Hfa & _).
  rewrite Ha.
  destruct (result (snd (sb_invoke sb (m_sandbox w) event r))) as [h|e].
  - unfold Worker.emplace, Worker.emplaced.
    destruct Hfa as (Hs & Ht & Hl & Hp & Hh). rewrite Hs.
    destruct (m_streams w !! session_id) as [io0|] eqn:Hlk.
    + destruct (drop_downstream_spec sb (Some r) h wa) as (wb & ob & -> & Hfb).
      eexists _, _, _; split; [done|]. split; [done|].
      eapply frame_trans; [|exact Hfb].
      frame_by Hlk.
    + eexists _, _, _; split; [done|]. split; [done|].
      frame_by Hlk.
  - destruct (Worker.upstream_call r _ wa) as [[res wb] ob] eqn:Hc.
    eexists _, _, _; split; [done|].
    eapply frame_trans; [exact Hfa|]. by eapply upstream_call_frame.
Qed.

Lemma dispatch_invoke_spec session_id event w :
  let r := length (m_heap w) in
  ∃ res w' out,
    Worker.dispatch sb (rpc.invoke session_id event) w = (res, w', out) ∧
    match result (snd (sb_invoke sb (m_sandbox w) event r)) with
    | Returned h =>
        res = Returned tt ∧
        Worker.frame
          (Worker.set_heap (λ hp, hp ++ [mk_cell (Upstream.make session_id) true])
             (Worker.set_streams (Worker.emplaced session_id (mk_io r h)) w)) w'
    | Thrown e =>
        Worker.frame
          (Worker.set_heap (λ hp, hp ++ [mk_cell (Upstream.make session_id) true]) w)
          w'
    end.
Proof.
  intros r. subst r. unfold Worker.dispatch.
  unfold Worker.bind at 1. unfold Worker.emit at 1.
  unfold Worker.bind at 1. unfold Worker.make_shared at 1.
  set (w1 := Worker.set_heap _ w).
  unfold Worker.bind at 1.
  destruct (invoke_try_spec session_id event (length (m_heap w)) w1)
    as (res & w2 & o2 & -> & Hspec).
  change (m_sandbox w1) with (m_sandbox w) in Hspec.
  destruct (result (snd (sb_invoke sb (m_sandbox w) event (length (m_heap w)))))
    as [h|e].
  - destruct Hspec as [-> Hf].
    destruct (unref_spec None (length (m_heap w)) w2) as (w3 & o3 & -> & Hf3 & _).
    eexists _, _, _; split; [done|]. split; [done|].
    eapply frame_trans; [|exact Hf3]. exact Hf.
  - destruct res as [[]|e'].
    + destruct (unref_spec None (length (m_heap w)) w2) as (w3 & o3 & -> & Hf3 & _).
      eexists _, _, _; split; [done|]. by eapply frame_trans.
    + eexists _, _, _; split; [done|]. done.
Qed.

Lemma upstream_call_thrown r c w e w' out :
  Worker.upstream_call r c w = (Thrown e, w', out) →
  e = stream_closed ∧ w' = w ∧ out = [] ∧
  ∃ cl, m_heap w !! r = Some cl ∧ m_state (obj cl) = closed.
Proof.
  unfold Worker.upstream_call.
  destruct (m_heap w !! r) as [cl|]; [|discriminate].
  destruct (obj cl) as [id st] eqn:Ho.
  destruct st, c; simpl; intros [= <- <- <-]; repeat split;
    exists cl; by rewrite Ho.
Qed.

Lemma dispatch_chunk_spec session_id message w :
  ∃ res w' out,
    Worker.dispatch sb (rpc.chunk session_id message) w = (res, w', out) ∧
    match m_streams w !! session_id with
    | None =>
        res = Returned tt ∧ w' = w ∧ out = [Logged (DEBUG_received rpc.t_chunk)]
    | Some io =>
        match result (snd (ds_push sb (m_sandbox w) (downstream io) message)) with
        | Returned _ => res = Returned tt ∧ Worker.frame w w'
        | Thrown _ =>
            (res = Returned tt
             ∧ Worker.frame (Worker.set_streams (delete session_id) w) w')
            ∨ (res = Thrown stream_closed ∧ Worker.frame w w')
        end
    end.
Proof.
  unfold Worker.dispatch.
  unfold Worker.bind at 1. unfold Worker.emit at 1.
  unfold Worker.bind at 1. unfold Worker.get at 1.
  destruct (m_streams w !! session_id) as [io|] eqn:Hlk.
  - unfold Worker.try_catch.
    destruct (enter_spec None (λ a, ds_push sb a (downstream io) message) w)
      as (wa & oa & -> & Hfa & _).
    destruct (result (snd (ds_push sb (m_sandbox w) (downstream io) message)))
      as [[]|e].
    + eexists _, _, _; split; [done|]. by split.
    + unfold Worker.bind at 1.
      destruct (Worker.upstream_call (upstream io) _ wa) as [[[[]|e'] wb] ob] eqn:Hc.
      * destruct (erase_spec session_id io wb) as (wc & oc & -> & Hfc).
        eexists _, _, _; split; [done|]. left. split; [done|].
        eapply frame_trans; [|exact Hfc].
        pose proof (upstream_call_frame _ _ _ _ _ _ Hc) as Hfb.
        pose proof (frame_trans _ _ _ Hfa Hfb) as (?&?&?&?&?).
        frame_by I.
      * apply upstream_call_thrown in Hc as (-> & -> & -> & _).
        eexists _, _, _; split; [done|]. right. by split.
  - eexists _, _, _; split; [done|]. done.
Qed.

Lemma dispatch_choke_spec session_id w :
  ∃ res w' out,
    Worker.dispatch sb (rpc.choke session_id) w = (res, w', out) ∧
    match m_streams w !! session_id with
    | None =>
        res = Returned tt ∧ w' = w ∧ out = [Logged (DEBUG_received rpc.t_choke)]
    | Some io =>
        (res = Returned tt
         ∧ Worker.frame (Worker.set_streams (delete session_id) w) w')
        ∨ (res = Thrown stream_closed ∧ Worker.frame w w'
           ∧ ∃ e, result (snd (ds_close sb (m_sandbox w) (downstream io))) = Thrown e)
    end.
Proof.
  unfold Worker.dispatch.
  unfold Worker.bind at 1. unfold Worker.emit at 1.
  unfold Worker.bind at 1. unfold Worker.get at 1.
  destruct (m_streams w !! session_id) as [io|] eqn:Hlk.
  - unfold Worker.bind at 1. unfold Worker.try_catch.
    destruct (enter_spec None (λ a, ds_close sb a (downstream io)) w)
      as (wa & oa & -> & Hfa & _).
    destruct (result (snd (ds_close sb (m_sandbox w) (downstream io))))
      as [[]|e].
    + destruct (erase_spec session_id io wa) as (wc & oc & -> & Hfc).
      eexists _, _, _; split; [done|]. left. split; [done|].
      eapply frame_trans; [|exact Hfc].
      destruct Hfa as (?&?&?&?&?). frame_by I.
    + destruct (Worker.upstream_call (upstream io) _ wa) as [[[[]|e'] wb] ob] eqn:Hc.
      * destruct (erase_spec session_id io wb) as (wc & oc & -> & Hfc).
        eexists _, _, _; split; [done|]. left. split; [done|].
        eapply frame_trans; [|exact Hfc].
        pose proof (upstream_call_frame _ _ _ _ _ _ Hc) as Hfb.
        pose proof (frame_trans _ _ _ Hfa Hfb) as (?&?&?&?&?).
        frame_by I.
      * apply upstream_call_thrown in Hc as (-> & -> & -> & _).
        eexists _, _, _; split; [done|]. right. split; [done|]. split; [done|].
        by exists e.
  - eexists _, _, _; split; [done|]. done.
Qed.

(** The cases that touch neither a stream nor the application. *)
(** When the exception of a closed adapter leaves a chunk or a choke,
    that adapter is the session's upstream. *)
Lemma dispatch_chunk_thrown session_id message io w e w' out :
  m_streams w !! session_id = Some io →
  Worker.dispatch sb (rpc.chunk session_id message) w = (Thrown e, w', out) →
  ∃ cl, m_heap w' !! upstream io = Some cl ∧ m_state (obj cl) = closed.
Proof.
  intros Hlk Hd. unfold Worker.dispatch in Hd.
  unfold Worker.bind at 1 2 in Hd. unfold Worker.emit, Worker.get in Hd.
  rewrite Hlk in Hd. unfold Worker.try_catch in Hd.
  destruct (enter_spec None (λ a, ds_push sb a (downstream io) message) w)
    as (wa & oa & Ha & _).
  rewrite Ha in Hd.
  destruct (result (snd (ds_push sb (m_sandbox w) (downstream io) message)))
    as [[]|e0]; [discriminate Hd|].
  unfold Worker.bind at 1 in Hd.
  destruct (Worker.upstream_call (upstream io) _ wa)
    as [[[[]|e'] wb] ob] eqn:Hc.
  { destruct (erase_spec session_id io wb) as (wc & oc & He & _).
    rewrite He in Hd. discriminate Hd. }
  injection Hd as _ <- _.
  by apply upstream_call_thrown in Hc as (_ & -> & _ & Hcl).
Qed.

Lemma dispatch_choke_thrown session_id io w e w' out :
  m_streams w !! session_id = Some io →
  Worker.dispatch sb (rpc.choke session_id) w = (Thrown e, w', out) →
  ∃ cl, m_heap w' !! upstream io = Some cl ∧ m_state (obj cl) = closed.
Proof.
  intros Hlk Hd. unfold Worker.dispatch in Hd.
  unfold Worker.bind at 1 2 in Hd. unfold Worker.emit, Worker.get in Hd.
  rewrite Hlk in Hd.
  unfold Worker.bind at 1 in Hd. unfold Worker.try_catch in Hd.
  destruct (enter_spec None (λ a, ds_close sb a (downstream io)) w)
    as (wa & oa & Ha & _).
  rewrite Ha in Hd.
  destruct (result (snd (ds_close sb (m_sandbox w) (downstream io))))
    as [[]|e0].
  { destruct (erase_spec session_id io wa) as (wc & oc & He & _).
    rewrite He in Hd. discriminate Hd. }
  destruct (Worker.upstream_call (upstream io) _ wa)
    as [[[[]|e'] wb] ob] eqn:Hc.
  { destruct (erase_spec session_id io wb) as (wc & oc & He & _).
    rewrite He in Hd. discriminate Hd. }
  injection Hd as _ <- _.
  by apply upstream_call_thrown in Hc as (_ & -> & _ & Hcl).
Qed.

Lemma dispatch_other_spec m w :
  match m with
  | rpc.invoke _ _ | rpc.chunk _ _ | rpc.choke _ => False
  | _ => True
  end →
  ∃ w' out,
    Worker.dispatch sb m w = (Returned tt, w', out) ∧
    m_streams w' = m_streams w ∧ m_heap w' = m_heap w ∧
    m_sandbox w' = m_sandbox w ∧ m_profile w' = m_profile w.
Proof.
  destruct m; intros []; eexists _, _; (split; [reflexivity|]); done.
Qed.

End Dispatch.

(** ** The session table along a run *)

Section Runs.

Context {App : Type} (sb : sandbox_t App).
Implicit Types (w : worker_t App) (out : list effect).
Implicit Types (h : list (@Worker.session_event)).

Lemma live_snoc session_id h e :
  Worker.live session_id (h ++ [e]) ↔
  e = Worker.started session_id
  ∨ (e ≠ Worker.ended session_id ∧ Worker.live session_id h).
Proof.
  unfold Worker.live. split.
  - intros (h1 & h2 & Heq & Hno).
    destruct h2 as [|x h2 _] using rev_ind.
    + apply app_inj_tail in Heq as [_ ->]. by left.
    + change (h1 ++ Worker.started session_id :: h2 ++ [x])
        with (h1 ++ (Worker.started session_id :: h2) ++ [x]) in Heq.
      rewrite app_assoc in Heq. apply app_inj_tail in Heq as [-> ->].
      right. rewrite elem_of_app, list_elem_of_singleton in Hno. split.
      * intros ->. apply Hno. by right.
      * exists h1, h2. split; [done|]. intros ?. apply Hno. by left.
  - intros [-> | [Hne (h1 & h2 & -> & Hno)]].
    + exists h, []. split; [done|]. apply not_elem_of_nil.
    + exists h1, (h2 ++ [e]). split.
      * by rewrite <- app_assoc.
      * rewrite elem_of_app, list_elem_of_singleton. intros [?|?]; [done|congruence].
Qed.

Lemma dom_emplaced session_id io (t : stream_map_t) :
  dom (Worker.emplaced session_id io t) = {[session_id]} ∪ dom t.
Proof.
  unfold Worker.emplaced. destruct (t !! session_id) as [io0|] eqn:Hlk.
  - apply (elem_of_dom_2 (D := gset unique_id_t)) in Hlk.
    apply set_eq. intros x. rewrite elem_of_union, elem_of_singleton.
    split; [by right | by intros [->|?]].
  - by rewrite dom_insert_L.
Qed.

Lemma other_case_keeps m w res w' out :
  Worker.dispatch sb m w = (res, w', out) →
  match m with
  | rpc.invoke _ _ | rpc.chunk _ _ | rpc.choke _ => False
  | _ => True
  end →
  m_streams w' = m_streams w ∧ m_heap w' = m_heap w.
Proof.
  intros Hd Hm. destruct (dispatch_other_spec sb m w Hm) as (w2 & o2 & Hd2 & Hs & Hh & _).
  rewrite Hd2 in Hd. by assert (w2 = w') as <- by congruence.
Qed.

(** How one dispatched message changes the keys of the table. *)
Lemma dispatch_dom m w w' out :
  Worker.dispatch sb m w = (Returned tt, w', out) →
  dom (m_streams w') =
    match Worker.observe sb m w with
    | Worker.started s => {[s]} ∪ dom (m_streams w)
    | Worker.ended s => dom (m_streams w) ∖ {[s]}
    | Worker.quiet => dom (m_streams w)
    end.
Proof.
  intros Hd. destruct m as [| | |s ev|s d| |s|];
    try (by destruct (other_case_keeps _ _ _ _ _ Hd I) as (-> & _)).
  - destruct (dispatch_invoke_spec sb s ev w) as (res & w2 & o2 & Hd2 & Hspec).
    rewrite Hd2 in Hd. injection Hd as -> <- <-. simpl in *.
    destruct (result _) as [hd|e].
    + destruct Hspec as [_ (Hs & _)]. rewrite Hs. simpl. apply dom_emplaced.
    + destruct Hspec as (Hs & _). by rewrite Hs.
  - destruct (dispatch_chunk_spec sb s d w) as (res & w2 & o2 & Hd2 & Hspec).
    rewrite Hd2 in Hd. injection Hd as -> <- <-. simpl.
    destruct (m_streams w !! s) as [io|].
    + destruct (result _) as [[]|e].
      * destruct Hspec as [_ (Hs & _)]. by rewrite Hs.
      * destruct Hspec as [[_ (Hs & _)] | [? _]]; [|done].
        rewrite Hs. simpl. by rewrite dom_delete_L.
    + by destruct Hspec as (_ & -> & _).
  - destruct (dispatch_choke_spec sb s w) as (res & w2 & o2 & Hd2 & Hspec).
    rewrite Hd2 in Hd. injection Hd as -> <- <-. simpl.
    destruct (m_streams w !! s) as [io|].
    + destruct Hspec as [[_ (Hs & _)] | [? _]]; [|done].
      rewrite Hs. simpl. by rewrite dom_delete_L.
    + by destruct Hspec as (_ & -> & _).
Qed.

Lemma frame_refs_ok w w' :
  Worker.refs_ok w → Worker.frame w w' → Worker.refs_ok w'.
Proof.
  unfold Worker.refs_ok. intros Hok (Hs & _ & _ & _ & Hi). by rewrite Hs, Hi.
Qed.

Lemma refs_ok_grow w s :
  Worker.refs_ok w →
  Worker.refs_ok
    (Worker.set_heap (λ hp, hp ++ [mk_cell (Upstream.make s) true]) w).
Proof.
  unfold Worker.refs_ok, Worker.heap_ids. simpl. intros Hok.
  eapply map_Forall_impl; [exact Hok|]. simpl. intros k io Hio.
  rewrite fmap_app. by apply lookup_app_l_Some.
Qed.

Lemma refs_ok_emplaced w s (hd : handle) :
  Worker.refs_ok w →
  Worker.refs_ok
    (Worker.set_heap (λ hp, hp ++ [mk_cell (Upstream.make s) true])
       (Worker.set_streams
          (Worker.emplaced s (mk_io (length (m_heap w)) hd)) w)).
Proof.
  intros Hok. pose proof (refs_ok_grow w s Hok) as Hg. revert Hg.
  unfold Worker.refs_ok, Worker.heap_ids, Worker.emplaced. simpl. intros Hg.
  destruct (m_streams w !! s); [done|].
  apply map_Forall_insert_2; [|done]. simpl.
  rewrite fmap_app. simpl. apply list_lookup_middle. by rewrite length_fmap.
Qed.

Lemma refs_ok_delete w s :
  Worker.refs_ok w → Worker.refs_ok (Worker.set_streams (delete s) w).
Proof. unfold Worker.refs_ok. simpl. apply map_Forall_delete. Qed.

Lemma dispatch_refs_ok m w res w' out :
  Worker.refs_ok w →
  Worker.dispatch sb m w = (res, w', out) →
  Worker.refs_ok w'.
Proof.
  intros Hok Hd. destruct m as [| | |s ev|s d| |s|];
    try (destruct (other_case_keeps _ _ _ _ _ Hd I) as (Hs & Hh);
         unfold Worker.refs_ok, Worker.heap_ids in *; by rewrite Hs, Hh).
  - destruct (dispatch_invoke_spec sb s ev w) as (res2 & w2 & o2 & Hd2 & Hspec).
    rewrite Hd2 in Hd. assert (w2 = w') as -> by congruence. simpl in Hspec.
    destruct (result _) as [hd|e].
    + destruct Hspec as [_ Hf]. eapply frame_refs_ok; [|exact Hf].
      by apply refs_ok_emplaced.
    + eapply frame_refs_ok; [|exact Hspec]. by apply refs_ok_grow.
  - destruct (dispatch_chunk_spec sb s d w) as (res2 & w2 & o2 & Hd2 & Hspec).
    rewrite Hd2 in Hd. assert (w2 = w') as -> by congruence.
    destruct (m_streams w !! s) as [io|].
    + destruct (result _) as [[]|e].
      * destruct Hspec as [_ Hf]. by eapply frame_refs_ok.
      * destruct Hspec as [[_ Hf] | [_ Hf]]; (eapply frame_refs_ok; [|exact Hf]);
          [|done]. by apply refs_ok_delete.
    + by destruct Hspec as (_ & -> & _).
  - destruct (dispatch_choke_spec sb s w) as (res2 & w2 & o2 & Hd2 & Hspec).
    rewrite Hd2 in Hd. assert (w2 = w') as -> by congruence.
    destruct (m_streams w !! s) as [io|].
    + destruct Hspec as [[_ Hf] | [_ [Hf _]]]; (eapply frame_refs_ok; [|exact Hf]);
        [|done]. by apply refs_ok_delete.
    + by destruct Hspec as (_ & -> & _).
Qed.

Lemma reachable_refs_ok h w : Worker.reachable sb h w → Worker.refs_ok w.
Proof.
  induction 1 as [a p now|h w m w' out _ IH Hd|h w w' out _ IH Hd
                 |h w w' out _ IH Hd|h w w' out _ IH Hd
                 |h w a ops w' out _ IH Hd|h w now _ IH].
  - apply map_Forall_empty.
  - by eapply dispatch_refs_ok.
  - injection Hd as <- _. exact IH.
  - injection Hd as <- _. exact IH.
  - injection Hd as <- _. exact IH.
  - destruct (app_steps_spec None ops (Worker.set_sandbox a w))
      as (w2 & o2 & Hd2 & Hf & _).
    rewrite Hd2 in Hd. injection Hd as <- _.
    eapply frame_refs_ok; [exact IH|].
    eapply frame_trans; [apply frame_set_sandbox | exact Hf].
  - exact IH.
Qed.

Lemma reachable_dom h w :
  Worker.reachable sb h w →
  ∀ session_id, session_id ∈ dom (m_streams w) ↔ Worker.live session_id h.
Proof.
  induction 1 as [a p now|h w m w' out _ IH Hd|h w w' out _ IH Hd
                 |h w w' out _ IH Hd|h w w' out _ IH Hd
                 |h w a ops w' out _ IH Hd|h w now _ IH]; intros sid.
  - simpl. rewrite dom_empty_L. split; [set_solver|].
    intros (h1 & h2 & Heq & _). by destruct h1.
  - rewrite live_snoc, (dispatch_dom _ _ _ _ Hd), <- IH.
    destruct (Worker.observe sb m w) as [s|s|].
    + rewrite elem_of_union, elem_of_singleton. split.
      * intros [->|?]; [by left|]. right. split; [done|done].
      * intros [[= ->]|[_ ?]]; [by left|by right].
    + rewrite elem_of_difference, elem_of_singleton. split.
      * intros [? Hne]. right. split; [|done]. intros [= ->]. done.
      * intros [?|[Hne ?]]; [done|]. split; [done|]. intros ->. done.
    + split; [intros ?; right; by split | intros [?|[_ ?]]; done].
  - injection Hd as <- _. apply IH.
  - injection Hd as <- _. apply IH.
  - injection Hd as <- _. apply IH.
  - destruct (app_steps_spec None ops (Worker.set_sandbox a w))
      as (w2 & o2 & Hd2 & Hf & _).
    rewrite Hd2 in Hd. injection Hd as <- _.
    destruct Hf as (Hs & _). rewrite Hs. apply IH.
  - apply IH.
Qed.

End Runs.

(** ** Properties of the session table and of the liveness callbacks *)

Section SessionTable.

Context {App : Type} (sb : sandbox_t App).
Implicit Types (w : worker_t App) (out : list effect).

(** X14: in every state the worker reaches by callbacks that return, a
    session id is a key of the session table exactly when an invoke for
    it succeeded and no terminal event for it has been dispatched since.
    From such a state a successful invoke is always dispatched to the
    end, to a reachable state in which its session id is a key.  The
    dispatch of a terminal event of a session (a chunk whose downstream
    push faults, or a choke, for a session of the table) either returns,
    to a reachable state whose table is the old one without that key,
    or ends by the exception of a closed adapter with the table as it
    was; the latter only when the session's upstream adapter is closed
    by then and, for a choke, only when the downstream's close()
    faulted. *)
Theorem session_table_tracks_live_sessions h w :
  Worker.reachable sb h w →
  (∀ session_id,
     session_id ∈ dom (m_streams w) ↔ Worker.live session_id h) ∧
  (∀ m session_id,
     Worker.observe sb m w = Worker.started session_id →
     ∃ w' out,
       Worker.dispatch sb m w = (Returned tt, w', out)
       ∧ Worker.reachable sb (h ++ [Worker.started session_id]) w'
       ∧ session_id ∈ dom (m_streams w')) ∧
  (∀ m session_id,
     Worker.observe sb m w = Worker.ended session_id →
     ∃ io res w' out,
       m_streams w !! session_id = Some io ∧
       Worker.dispatch sb m w = (res, w', out) ∧
       ((res = Returned tt
         ∧ m_streams w' = delete session_id (m_streams w)
         ∧ Worker.reachable sb (h ++ [Worker.ended session_id]) w')
        ∨ (res = Thrown stream_closed
           ∧ m_streams w' = m_streams w
           ∧ (∃ cl, m_heap w' !! upstream io = Some cl
                    ∧ m_state (obj cl) = closed)
           ∧ (m = rpc.choke session_id →
              ∃ e, result (snd (ds_close sb (m_sandbox w) (downstream io)))
                   = Thrown e)))).
Proof.
  intros Hr. split; [|split].
  - exact (reachable_dom sb h w Hr).
  - intros m sid Hobs.
    assert (∃ w' out, Worker.dispatch sb m w = (Returned tt, w', out))
      as (w' & out & Hd).
    { destruct m as [| | |s ev|s d| |s|]; simpl in Hobs; try discriminate.
      - destruct (dispatch_invoke_spec sb s ev w) as (res & w2 & o2 & Hd2 & Hspec).
        simpl in Hspec. destruct (result _); [|discriminate].
        destruct Hspec as [-> _]. by eexists _, _.
      - destruct (m_streams w !! s); [|discriminate].
        by destruct (result _).
      - by destruct (m_streams w !! s). }
    exists w', out. split; [done|].
    pose proof (Worker.reach_dispatch sb h w m w' out Hr Hd) as Hr'.
    rewrite Hobs in Hr'. split; [done|].
    apply (reachable_dom sb _ _ Hr'), live_snoc. by left.
  - intros m sid Hobs. pose proof Hobs as Hobs'.
    destruct m as [| | |s ev|s d| |s|]; simpl in Hobs; try discriminate.
    + by destruct (result _).
    + destruct (dispatch_chunk_spec sb s d w) as (res & w2 & o2 & Hd2 & Hspec).
      destruct (m_streams w !! s) as [io|] eqn:Hlk; [|discriminate].
      destruct (result _) as [[]|e]; [discriminate|]. injection Hobs as ->.
      exists io, res, w2, o2. split; [done|]. split; [done|].
      destruct Hspec as [[-> (Hs & _)] | [-> (Hs & _)]]; [left|right].
      * split; [done|]. split; [exact Hs|].
        rewrite <- Hobs'. by eapply Worker.reach_dispatch.
      * split; [done|]. split; [exact Hs|]. split; [|discriminate].
        by eapply dispatch_chunk_thrown.
    + destruct (dispatch_choke_spec sb s w) as (res & w2 & o2 & Hd2 & Hspec).
      destruct (m_streams w !! s) as [io|] eqn:Hlk; [|discriminate].
      injection Hobs as ->.
      exists io, res, w2, o2. split; [done|]. split; [done|].
      destruct Hspec as [[-> (Hs & _)] | (-> & (Hs & _) & Hthrew)]; [left|right].
      * split; [done|]. split; [exact Hs|].
        rewrite <- Hobs'. by eapply Worker.reach_dispatch.
      * split; [done|]. split; [exact Hs|]. split; [|done].
        by eapply dispatch_choke_thrown.
Qed.

(** C7: dispatching a heartbeat returns with the disown timer running
    and due at the loop's current time plus the profile's heartbeat
    timeout; no other field of the worker changes and nothing is sent
    (only the debug line is logged); and the outcome is the same
    whatever the timer was set to before. *)
Theorem heartbeat_restarts_disown_timer w :
  Worker.dispatch sb rpc.heartbeat w
  = (Returned tt,
     mk_worker (m_streams w) (m_heap w)
       (mk_timer true (Qplus (ev_now (m_loop w)) (heartbeat_timeout (m_profile w))))
       (m_loop w) (m_profile w) (m_sandbox w),
     [Logged (DEBUG_received rpc.t_heartbeat)])
  ∧ ∀ earlier : ev_timer,
      Worker.dispatch sb rpc.heartbeat (Worker.set_disown_timer (λ _, earlier) w)
      = Worker.dispatch sb rpc.heartbeat w.
Proof.
  split; [reflexivity|].
  intros earlier. unfold Worker.dispatch, Worker.bind, Worker.emit, Worker.modify.
  simpl. reflexivity.
Qed.

(** C8: when the disown timer fires, the worker logs that it lost the
    controlling engine and calls unloop; it sends no message (no suicide
    either) and changes nothing else. *)
Theorem disown_stops_loop_silently w :
  Worker.on_disown w
  = (Returned tt,
     mk_worker (m_streams w) (m_heap w) (m_disown_timer w)
       (mk_loop (ev_now (m_loop w)) true (fed (m_loop w)))
       (m_profile w) (m_sandbox w),
     [Logged ERROR_lost_engine])
  ∧ sent_messages (snd (Worker.on_disown w)) = [].
Proof. split; reflexivity. Qed.

(** C9: a chunk or a choke for a session id that is not in the table
    returns without an exception, sends no message and leaves the whole
    worker state as it was (only the debug line is logged). *)
Theorem unrouted_message_is_dropped session_id message w :
  m_streams w !! session_id = None →
  Worker.dispatch sb (rpc.chunk session_id message) w
  = (Returned tt, w, [Logged (DEBUG_received rpc.t_chunk)])
  ∧ Worker.dispatch sb (rpc.choke session_id) w
    = (Returned tt, w, [Logged (DEBUG_received rpc.t_choke)]).
Proof.
  intros Hlk. split.
  - destruct (dispatch_chunk_spec sb session_id message w)
      as (res & w2 & o2 & Hd & Hspec).
    rewrite Hlk in Hspec. destruct Hspec as (-> & -> & ->). exact Hd.
  - destruct (dispatch_choke_spec sb session_id w)
      as (res & w2 & o2 & Hd & Hspec).
    rewrite Hlk in Hspec. destruct Hspec as (-> & -> & ->). exact Hd.
Qed.

End SessionTable.

(** ** Faults of the application *)

Section Faults.

Context {App : Type} (sb : sandbox_t App).
Implicit Types (w : worker_t App) (out : list effect).

Lemma upstream_error_open r code msg w cl :
  m_heap w !! r = Some cl →
  m_state (obj cl) = open →
  Worker.upstream_call r (Upstream.c_error code msg) w
  = (Returned tt,
     Worker.set_heap
       (<[r := mk_cell (mk_upstream (m_id (obj cl)) closed) (held cl)]>) w,
     [Sent (rpc.error (m_id (obj cl)) code msg); Sent (rpc.choke (m_id (obj cl)))]).
Proof.
  intros Hr Ho. unfold Worker.upstream_call. rewrite Hr. simpl.
  unfold Upstream.error. by rewrite Ho.
Qed.

Lemma unref_closed local r w cl :
  m_heap w !! r = Some cl →
  m_state (obj cl) = closed →
  ∃ w', Worker.unref local r w = (Returned tt, w', [])
        ∧ Worker.frame w w'
        ∧ ∃ cl', m_heap w' !! r = Some cl' ∧ obj cl' = obj cl.
Proof.
  intros Hr Hc. unfold Worker.unref. rewrite Hr.
  destruct (held cl || Worker.pinned local r w).
  - eexists; split; [done|]. split; [apply frame_refl|]. by exists cl.
  - unfold Upstream.dtor. rewrite Hc. simpl.
    eexists; split; [done|]. split; [by apply (frame_set_heap_insert w r cl)|].
    exists (mk_cell (obj cl) false). split; [|done]. simpl.
    apply list_lookup_insert_eq. by eapply lookup_lt_Some.
Qed.

Lemma heap_id_at w r s cl :
  Worker.heap_ids w !! r = Some s → m_heap w !! r = Some cl → m_id (obj cl) = s.
Proof.
  unfold Worker.heap_ids. rewrite list_lookup_fmap. intros H1 H2.
  rewrite H2 in H1. by injection H1.
Qed.

Lemma frame_heap_id w w' r s :
  Worker.frame w w' → Worker.heap_ids w !! r = Some s →
  Worker.heap_ids w' !! r = Some s.
Proof. intros (_&_&_&_&Hi). by rewrite Hi. Qed.

(** C3, as the code has it: when the sandbox invocation of an invoke
    message faults, the session table is left as it was (the session id
    is not inserted), whether or not the dispatch returns; and if the
    adapter made for the invocation is still open when the fault is
    caught (the application did not close it during the call), the
    dispatch returns having sent, after whatever the application sent
    during the call, an error message with the invocation-error code and
    the fault's text followed by a choke message, both for the
    message's session id, and the adapter is closed. *)
Theorem faulting_invoke_is_reported session_id event w e :
  let r := length (m_heap w) in
  result (snd (sb_invoke sb (m_sandbox w) event r)) = Thrown e →
  ∃ w1 out_app res w' out,
    Worker.bind (Worker.make_shared session_id)
      (λ r, Worker.enter (Some r) (λ a, sb_invoke sb a event r)) w
    = (Thrown e, w1, out_app) ∧
    Worker.dispatch sb (rpc.invoke session_id event) w = (res, w', out) ∧
    m_streams w' = m_streams w ∧
    (Worker.open_at r w1 →
       res = Returned tt ∧
       out = Logged (DEBUG_received rpc.t_invoke) :: out_app
             ++ [Sent (rpc.error session_id invocation_error (what_of e));
                 Sent (rpc.choke session_id)] ∧
       ∃ cl', m_heap w' !! r = Some cl'
              ∧ obj cl' = mk_upstream session_id closed).
Proof.
  intros r Hres. subst r.
  unfold Worker.dispatch, Worker.invoke_try.
  unfold Worker.bind at 1 2 3 4. unfold Worker.emit at 1.
  unfold Worker.make_shared at 1 2.
  set (w0 := Worker.set_heap _ w).
  unfold Worker.try_catch. unfold Worker.bind at 1.
  destruct (enter_spec (Some (length (m_heap w)))
              (λ a, sb_invoke sb a event (length (m_heap w))) w0)
    as (wa & oa & Ha & Hfa & _).
  change (m_sandbox w0) with (m_sandbox w) in Ha.
  rewrite Hres in Ha. rewrite Ha.
  assert (Hid0 : Worker.heap_ids w0 !! length (m_heap w) = Some session_id).
  { unfold Worker.heap_ids. simpl. rewrite fmap_app. simpl.
    apply list_lookup_middle. by rewrite length_fmap. }
  pose proof (frame_heap_id _ _ _ _ Hfa Hid0) as Hida.
  destruct (Worker.upstream_call (length (m_heap w)) _ wa)
    as [[[[]|e'] wb] ob] eqn:Hc.
  - destruct (unref_spec None (length (m_heap w)) wb) as (wc & oc & Hu & Hfc & _).
    rewrite Hu.
    pose proof (upstream_call_frame _ _ _ _ _ _ Hc) as Hfb.
    eexists wa, oa, _, _, _. split; [by rewrite app_nil_l|]. split; [done|]. split.
    { destruct Hfa as (Hsa&_), Hfb as (Hsb&_), Hfc as (Hsc&_).
      rewrite Hsc, Hsb, Hsa. done. }
    intros (cl & Hcl & Hopen).
    rewrite (upstream_error_open _ _ _ _ _ Hcl Hopen) in Hc.
    injection Hc as <- <-.
    rewrite (heap_id_at _ _ _ _ Hida Hcl) in *.
    assert (Hcl' : m_heap
              (Worker.set_heap
                 (<[length (m_heap w) := mk_cell (mk_upstream session_id closed) (held cl)]>)
                 wa) !! length (m_heap w)
            = Some (mk_cell (mk_upstream session_id closed) (held cl))).
    { simpl. apply list_lookup_insert_eq. by eapply lookup_lt_Some. }
    destruct (unref_closed None _ _ _ Hcl' eq_refl) as (wc' & Hu' & _ & cl' & Hl' & Ho').
    rewrite Hu' in Hu. injection Hu as <- <-.
    split; [done|]. split.
    { simpl. by rewrite app_nil_r. }
    by exists cl'.
  - apply upstream_call_thrown in Hc as (-> & -> & -> & cl & Hcl & Hclosed).
    eexists wa, oa, _, _, _. split; [by rewrite app_nil_l|]. split; [done|]. split.
    { by destruct Hfa as (Hsa&_). }
    intros (cl2 & Hcl2 & Hopen). congruence.
Qed.

(** X13, the chunk case where the code does what C6 says: for a chunk whose
    session id is in the table of a reachable state, the bytes are pushed
    to that session's downstream; if the push returns, the dispatch
    returns and the table is unchanged; if the push faults and the
    session's upstream adapter is still open at that moment, the dispatch
    returns having sent an error message with the invocation-error code
    and the fault's text and then a choke message for that session id,
    and the session id is removed from the table. *)
Lemma chunk_is_forwarded h w session_id message io :
  Worker.reachable sb h w →
  m_streams w !! session_id = Some io →
  ∃ w1 out_app res w' out,
    Worker.enter None (λ a, ds_push sb a (downstream io) message) w
    = (result (snd (ds_push sb (m_sandbox w) (downstream io) message)),
       w1, out_app) ∧
    Worker.dispatch sb (rpc.chunk session_id message) w = (res, w', out) ∧
    match result (snd (ds_push sb (m_sandbox w) (downstream io) message)) with
    | Returned _ =>
        res = Returned tt ∧ w' = w1 ∧
        out = Logged (DEBUG_received rpc.t_chunk) :: out_app ∧
        m_streams w' = m_streams w
    | Thrown e =>
        Worker.open_at (upstream io) w1 →
        res = Returned tt ∧
        m_streams w' = delete session_id (m_streams w) ∧
        ∃ out_release,
          out = Logged (DEBUG_received rpc.t_chunk) :: out_app
                ++ [Sent (rpc.error session_id invocation_error (what_of e));
                    Sent (rpc.choke session_id)]
                ++ out_release
    end.
Proof.
  intros Hreach Hlk.
  pose proof (reachable_refs_ok sb h w Hreach session_id io Hlk) as Hid.
  simpl in Hid.
  unfold Worker.dispatch.
  unfold Worker.bind at 1. unfold Worker.emit at 1.
  unfold Worker.bind at 1. unfold Worker.get at 1.
  rewrite Hlk. unfold Worker.try_catch.
  destruct (enter_spec None (λ a, ds_push sb a (downstream io) message) w)
    as (wa & oa & Ha & Hfa & _).
  rewrite Ha. exists wa, oa.
  destruct (result (snd (ds_push sb (m_sandbox w) (downstream io) message)))
    as [[]|e].
  - eexists _, _, _. split; [done|]. split; [done|].
    repeat split. by destruct Hfa as (Hs & _).
  - unfold Worker.bind at 1.
    pose proof (frame_heap_id _ _ _ _ Hfa Hid) as Hida.
    destruct (Worker.upstream_call (upstream io) _ wa)
      as [[[[]|e'] wb] ob] eqn:Hc.
    + destruct (erase_spec sb session_id io wb) as (wc & oc & He & Hfc).
      rewrite He.
      eexists _, _, _. split; [done|]. split; [done|].
      intros (cl & Hcl & Hopen).
      rewrite (upstream_error_open _ _ _ _ _ Hcl Hopen) in Hc.
      injection Hc as <- <-.
      rewrite (heap_id_at _ _ _ _ Hida Hcl).
      split; [done|]. split.
      { destruct Hfa as (Hsa&_), Hfc as (Hsc&_). rewrite Hsc. simpl.
        by rewrite Hsa. }
      by exists oc.
    + apply upstream_call_thrown in Hc as (-> & -> & -> & cl & Hcl & Hclosed).
      eexists _, _, _. split; [done|]. split; [done|].
      intros (cl2 & Hcl2 & Hopen). congruence.
Qed.

Lemma unpinned_fresh w w' :
  Worker.refs_ok w →
  m_streams w' = m_streams w →
  Worker.pinned None (length (m_heap w)) w' = false.
Proof.
  intros Hok Hs. unfold Worker.pinned. rewrite Hs. simpl.
  apply not_true_is_false. intros Hex.
  apply existsb_exists in Hex as ([k io] & Hin & Heq).
  apply list_elem_of_In, elem_of_map_to_list in Hin.
  apply bool_decide_eq_true in Heq. simpl in Heq.
  specialize (Hok k io Hin). simpl in Hok.
  apply lookup_lt_Some in Hok. unfold Worker.heap_ids in Hok.
  rewrite length_fmap in Hok. lia.
Qed.

(** C10: in a reachable state, an invoke whose session id is already in
    the table and whose sandbox invocation succeeds is dispatched to
    the end with the table exactly as before — the pair made for it is
    not stored and no table entry points to the new adapter; and if,
    when the try statement is left, no pointer to the new adapter
    remains with the application and the adapter is still open, its
    destructor sends a choke message for that session id as the last
    effect of the dispatch and leaves it closed. *)
Theorem duplicate_invoke_is_discarded h w session_id event io hd :
  Worker.reachable sb h w →
  m_streams w !! session_id = Some io →
  result (snd (sb_invoke sb (m_sandbox w) event (length (m_heap w))))
  = Returned hd →
  ∃ w1 out1 w' out2,
    Worker.bind (Worker.make_shared session_id)
      (λ r, Worker.invoke_try sb session_id event r) w
    = (Returned tt, w1, out1) ∧
    Worker.dispatch sb (rpc.invoke session_id event) w
    = (Returned tt, w', Logged (DEBUG_received rpc.t_invoke) :: out1 ++ out2) ∧
    m_streams w' = m_streams w ∧
    map_Forall (λ _ io', upstream io' ≠ length (m_heap w)) (m_streams w') ∧
    (∀ cl,
       m_heap w1 !! length (m_heap w) = Some cl →
       held cl = false →
       m_state (obj cl) = open →
       out2 = [Sent (rpc.choke session_id)] ∧
       m_heap w' !! length (m_heap w)
       = Some (mk_cell (mk_upstream session_id closed) false)).
Proof.
  intros Hreach Hlk Hres.
  pose proof (reachable_refs_ok sb h w Hreach) as Hok.
  unfold Worker.dispatch.
  unfold Worker.bind at 1 2 3. unfold Worker.emit at 1.
  unfold Worker.make_shared at 1 2.
  set (w0 := Worker.set_heap _ w).
  unfold Worker.bind at 1.
  destruct (invoke_try_spec sb session_id event (length (m_heap w)) w0)
    as (res & w1 & o1 & Ht & Hspec).
  change (m_sandbox w0) with (m_sandbox w) in Hspec.
  rewrite Hres in Hspec. destruct Hspec as [-> Hf1].
  rewrite Ht.
  assert (Hs1 : m_streams w1 = m_streams w).
  { destruct Hf1 as (Hs & _). rewrite Hs. simpl.
    unfold Worker.emplaced. by rewrite Hlk. }
  assert (Hid1 : Worker.heap_ids w1 !! length (m_heap w) = Some session_id).
  { destruct Hf1 as (_&_&_&_&Hi). rewrite Hi. unfold Worker.heap_ids. simpl.
    rewrite fmap_app. simpl. apply list_lookup_middle. by rewrite length_fmap. }
  destruct (unref_spec None (length (m_heap w)) w1) as (w2 & o2 & Hu & Hf2 & _).
  rewrite Hu.
  exists w1, o1, w2, o2. split; [by rewrite app_nil_l|]. split; [done|].
  assert (Hs2 : m_streams w2 = m_streams w).
  { destruct Hf2 as (Hs & _). by rewrite Hs. }
  split; [done|]. split.
  { rewrite Hs2. eapply map_Forall_impl; [exact Hok|]. simpl.
    intros k io' Hio. apply lookup_lt_Some in Hio.
    unfold Worker.heap_ids in Hio. rewrite length_fmap in Hio. lia. }
  intros cl Hcl Hheld Hopen.
  revert Hu. unfold Worker.unref. rewrite Hcl, Hheld.
  rewrite (unpinned_fresh w w1 Hok Hs1). simpl.
  unfold Upstream.dtor, Upstream.close, Upstream.set_state. rewrite Hopen. simpl.
  rewrite (heap_id_at _ _ _ _ Hid1 Hcl).
  intros [= <- <-]. split; [done|]. simpl.
  apply list_lookup_insert_eq. by eapply lookup_lt_Some.
Qed.

End Faults.

(** ** The drain loop *)

Section Drain.

Context {App : Type} (sb : sandbox_t App).
Variable io_bulk_size : Z.
Implicit Types (w : worker_t App) (q : list rpc.message).

Lemma wrap_int_pred n : 0 < n < 2 ^ 31 → wrap_int (n - 1) = n - 1.
Proof. intros Hn. unfold wrap_int. rewrite Z.mod_small; lia. Qed.

Lemma drain_pass q : ∀ n w,
  0 < n < 2 ^ 31 →
  Worker.drain sb q n w = Worker.pass sb (Z.to_nat n) q w.
Proof.
  induction q as [|m q IH]; intros n w Hn.
  - unfold Worker.pass. rewrite take_nil, drop_nil.
    case_bool_decide; [simpl in *; lia | reflexivity].
  - simpl. rewrite (wrap_int_pred n Hn).
    replace (Z.to_nat n) with (S (Z.to_nat (n - 1))) by lia.
    unfold Worker.pass. simpl take. simpl drop. simpl Worker.dispatch_all.
    unfold Worker.bind at 1 3 4.
    destruct (Worker.dispatch sb m w) as [[[[]|e] w1] o1]; [|reflexivity].
    destruct (Z.eqb_spec (n - 1) 0) as [H0|H0].
    + rewrite H0. simpl. by rewrite !app_nil_r.
    + rewrite (IH (n - 1) w1) by lia. unfold Worker.pass, Worker.bind.
      destruct (Worker.dispatch_all sb (take (Z.to_nat (n - 1)) q) w1)
        as [[[[]|e] w2] o2]; [|reflexivity].
      rewrite (bool_decide_ext (S (Z.to_nat (n - 1)) ≤ length (m :: q))%nat
                 (Z.to_nat (n - 1) ≤ length q)%nat) by (simpl; lia).
      destruct (bool_decide (Z.to_nat (n - 1) ≤ length q)%nat); simpl;
        by rewrite ?app_nil_r, ?app_assoc.
Qed.

(** A pass of the drain loop that returns is a series of steps of
    [Worker.reachable]: the dispatches, then possibly the feed. *)
Lemma drain_reachable q : ∀ n h w rest w' out,
  Worker.reachable sb h w →
  Worker.drain sb q n w = (Returned rest, w', out) →
  ∃ h', Worker.reachable sb (h ++ h') w'.
Proof.
  induction q as [|m q IH]; intros n h w rest w' out Hr Hd.
  - injection Hd as _ <- _. exists []. by rewrite app_nil_r.
  - simpl in Hd.
    apply bind_inv in Hd as [([] & w1 & o1 & o2 & Hm & Hk & ->) | (e & _ & [=])].
    pose proof (Worker.reach_dispatch sb h w m w1 o1 Hr Hm) as Hr1.
    destruct (wrap_int (n - 1) =? 0).
    + injection Hk as _ <- _. exists [Worker.observe sb m w].
      by eapply Worker.reach_feed.
    + destruct (IH _ _ _ _ _ _ Hr1 Hk) as (h' & Hr').
      exists (Worker.observe sb m w :: h').
      by rewrite <- app_assoc in Hr'.
Qed.

End Drain.

(** ** Concrete runs with the scripted application *)

Lemma reach_after_ping session_id :
  Worker.reachable Script.sandbox [Worker.started session_id]
    (Script.after [rpc.invoke session_id "ping"]).
Proof.
  refine (Worker.reach_dispatch Script.sandbox [] Script.fresh
            (rpc.invoke session_id "ping") _ _ _ _).
  - apply Worker.reach_construct.
  - reflexivity.
Qed.

Lemma reach_after_early session_id :
  Worker.reachable Script.sandbox [Worker.started session_id]
    (Script.after [rpc.invoke session_id "early"]).
Proof.
  refine (Worker.reach_dispatch Script.sandbox [] Script.fresh
            (rpc.invoke session_id "early") _ _ _ _).
  - apply Worker.reach_construct.
  - reflexivity.
Qed.

Lemma session_table_tracks_live_sessions_witness :
  Worker.reachable Script.sandbox [Worker.started 1%N]
    (Script.after [rpc.invoke 1%N "ping"]) ∧
  (1%N ∈ dom (m_streams (Script.after [rpc.invoke 1%N "ping"]))
   ↔ Worker.live 1%N [Worker.started 1%N]) ∧
  Worker.observe Script.sandbox (rpc.choke 1%N)
    (Script.after [rpc.invoke 1%N "ping"]) = Worker.ended 1%N ∧
  ∃ w' out,
    Worker.dispatch Script.sandbox (rpc.choke 1%N)
      (Script.after [rpc.invoke 1%N "ping"]) = (Returned tt, w', out) ∧
    m_streams w' = delete 1%N (m_streams (Script.after [rpc.invoke 1%N "ping"])) ∧
    Worker.reachable Script.sandbox
      ([Worker.started 1%N] ++ [Worker.ended 1%N]) w'.
Proof.
  split; [apply reach_after_ping|].
  destruct (session_table_tracks_live_sessions Script.sandbox
              [Worker.started 1%N] (Script.after [rpc.invoke 1%N "ping"])
              (reach_after_ping 1%N)) as (Hiff & _ & Hend).
  split; [apply Hiff|]. split; [reflexivity|].
  destruct (Hend (rpc.choke 1%N) 1%N eq_refl)
    as (io & res & w' & out & _ & Hd & [(-> & Hs & Hr) | (-> & _)]).
  - by exists w', out.
  - revert Hd. vm_compute. intros [=].
Defined.

Lemma upstream_closed_is_final_witness :
  Upstream.terminating Upstream.c_close = true ∧
  Upstream.perform
    (Upstream.after_all (Upstream.after (Upstream.make 7%N) Upstream.c_close)
       [Upstream.c_push "late"])
    (Upstream.c_error invocation_error "again")
  = Thrown stream_closed.
Proof.
  split; [reflexivity|].
  destruct upstream_closed_is_final as (_ & _ & _ & Hfinal).
  apply (Hfinal (Upstream.make 7%N) Upstream.c_close eq_refl
           [Upstream.c_push "late"] (Upstream.c_error invocation_error "again")).
Defined.

Lemma faulting_invoke_is_reported_witness :
  result (snd (sb_invoke Script.sandbox tt "bad" 0%nat))
  = Thrown (std_exception "no such event") ∧
  ∃ w1 out_app res w' out,
    Worker.bind (Worker.make_shared 2%N)
      (λ r, Worker.enter (Some r) (λ a, sb_invoke Script.sandbox a "bad" r))
      Script.fresh
    = (Thrown (std_exception "no such event"), w1, out_app) ∧
    Worker.dispatch Script.sandbox (rpc.invoke 2%N "bad") Script.fresh
    = (res, w', out) ∧
    m_streams w' = m_streams Script.fresh ∧
    (Worker.open_at 0%nat w1 →
       res = Returned tt ∧
       out = Logged (DEBUG_received rpc.t_invoke) :: out_app
             ++ [Sent (rpc.error 2%N invocation_error "no such event");
                 Sent (rpc.choke 2%N)] ∧
       ∃ cl', m_heap w' !! 0%nat = Some cl'
              ∧ obj cl' = mk_upstream 2%N closed).
Proof.
  split; [reflexivity|].
  apply (faulting_invoke_is_reported Script.sandbox 2%N "bad" Script.fresh
           (std_exception "no such event") eq_refl).
Defined.

(** The claim C3 as it is worded fails when the application has closed
    its output before the invocation faults: the sandbox call throws, yet
    the only message sent is the application's own choke, no error
    message follows, and the adapter's exception leaves the dispatch. *)
Lemma faulting_invoke_after_close_sends_no_error :
  let res := Worker.dispatch Script.sandbox (rpc.invoke 3%N "giveup") Script.fresh in
  result (snd (sb_invoke Script.sandbox tt "giveup" 0%nat))
  = Thrown (std_exception "gave up") ∧
  fst (fst res) = Thrown stream_closed ∧
  sent_messages (snd res) = [rpc.choke 3%N] ∧
  m_streams (snd (fst res)) = ∅.
Proof. repeat split. Qed.

Lemma chunk_is_forwarded_on_open_upstream :
  Worker.reachable Script.sandbox [Worker.started 1%N]
    (Script.after [rpc.invoke 1%N "ping"]) ∧
  m_streams (Script.after [rpc.invoke 1%N "ping"]) !! 1%N = Some (mk_io 0 0) ∧
  ∃ w' out,
    Worker.dispatch Script.sandbox (rpc.chunk 1%N "boom")
      (Script.after [rpc.invoke 1%N "ping"])
    = (Returned tt, w', out) ∧
    m_streams w' !! 1%N = None ∧
    sent_messages out
    = [rpc.error 1%N invocation_error "boom"; rpc.choke 1%N].
Proof.
  split; [apply reach_after_ping|]. split; [reflexivity|].
  destruct (chunk_is_forwarded Script.sandbox [Worker.started 1%N]
              (Script.after [rpc.invoke 1%N "ping"]) 1%N "boom" (mk_io 0 0)
              (reach_after_ping 1%N) eq_refl)
    as (w1 & oa & res & w' & out & Ha & Hd & Hspec).
  injection Ha as <- <-.
  destruct Hspec as (-> & Hs & orel & ->).
  { eexists. split; reflexivity. }
  exists w', (Logged (DEBUG_received rpc.t_chunk)
              :: [] ++ [Sent (rpc.error 1%N invocation_error "boom");
                        Sent (rpc.choke 1%N)] ++ orel).
  split; [exact Hd|]. split.
  - rewrite Hs. apply lookup_delete_eq.
  - revert Hd. vm_compute. by intros [= _ <-].
Defined.

(** C6 fails on the code when the application has closed the session's
    upstream before the push faults: in a reachable state with session 3
    in the table, the downstream push of the chunk faults, the handler's
    error() raises, the exception leaves the dispatch before the erase,
    nothing is sent and session 3 is still in the table. *)
Theorem chunk_fault_after_close_keeps_entry :
  let w := Script.after [rpc.invoke 3%N "early"] in
  let res := Worker.dispatch Script.sandbox (rpc.chunk 3%N "boom") w in
  Worker.reachable Script.sandbox [Worker.started 3%N] w ∧
  m_streams w !! 3%N = Some (mk_io 0 1) ∧
  result (snd (ds_push Script.sandbox tt 1%nat "boom"))
  = Thrown (std_exception "boom") ∧
  fst (fst res) = Thrown stream_closed ∧
  sent_messages (snd res) = [] ∧
  m_streams (snd (fst res)) !! 3%N = Some (mk_io 0 1).
Proof. split; [apply reach_after_early|]. repeat split. Qed.

(** C1 fails on the code when the application has closed the session's
    upstream before the terminal event arrives: in a reachable state
    with the live session 3 in the table, the choke for session 3 (whose
    downstream close faults) and likewise the chunk for session 3 whose
    downstream push faults are terminal events of the session; the
    handler's error() raises on the closed adapter, the exception leaves
    the dispatch before the erase, and session 3, whose terminal event
    has been processed and which is no longer live, is still a key of
    the table. *)
Theorem terminal_event_at_closed_upstream_keeps_entry :
  let w := Script.after [rpc.invoke 3%N "early"] in
  let choked := Worker.dispatch Script.sandbox (rpc.choke 3%N) w in
  let pushed := Worker.dispatch Script.sandbox (rpc.chunk 3%N "boom") w in
  Worker.reachable Script.sandbox [Worker.started 3%N] w ∧
  Worker.live 3%N [Worker.started 3%N] ∧
  m_streams w !! 3%N = Some (mk_io 0 1) ∧
  Worker.observe Script.sandbox (rpc.choke 3%N) w = Worker.ended 3%N ∧
  Worker.observe Script.sandbox (rpc.chunk 3%N "boom") w = Worker.ended 3%N ∧
  fst (fst choked) = Thrown stream_closed ∧
  3%N ∈ dom (m_streams (snd (fst choked))) ∧
  fst (fst pushed) = Thrown stream_closed ∧
  3%N ∈ dom (m_streams (snd (fst pushed))) ∧
  ¬ Worker.live 3%N [Worker.started 3%N; Worker.ended 3%N].
Proof.
  split; [apply reach_after_early|].
  split; [by exists [], []; split; [|apply not_elem_of_nil]|].
  do 4 (split; [reflexivity|]).
  split; [apply elem_of_dom; by exists (mk_io 0 1)|].
  split; [reflexivity|].
  split; [apply elem_of_dom; by exists (mk_io 0 1)|].
  change [Worker.started 3%N; Worker.ended 3%N]
    with ([Worker.started 3%N] ++ [Worker.ended 3%N]).
  intros [H | [H _]]%live_snoc; [discriminate H | by apply H].
Qed.

(** C5 fails on the code when a dispatch of the pass ends by the
    exception of a closed adapter: in a reachable state with the bound
    at 2 and three messages queued, the choke for session 3 (whose
    downstream close faults, its upstream being closed) makes the pass
    end by that exception after one message has been received: the two
    heartbeats stay unreceived, fewer messages than the bound have been
    dispatched, and the channel's descriptor has not been fed back to
    the loop. *)
Theorem faulting_dispatch_cuts_the_pass_short :
  let w := Script.after [rpc.invoke 3%N "early"] in
  let q := [rpc.choke 3%N; rpc.heartbeat; rpc.heartbeat] in
  let res := Worker.process Script.sandbox 2 q w in
  Worker.reachable Script.sandbox [Worker.started 3%N] w ∧
  (Z.to_nat 2 < length q)%nat ∧
  fst (fst res) = Thrown stream_closed ∧
  snd res = [Logged (DEBUG_received rpc.t_choke)] ∧
  fed (m_loop (snd (fst res))) = fed (m_loop w) ∧
  m_streams (snd (fst res)) = m_streams w.
Proof.
  split; [apply reach_after_early|].
  split; [simpl; lia|]. repeat split.
Qed.

(** C4 fails on the code: a reachable state whose table holds a closed
    upstream adapter (the application answered and closed its output
    during invoke), in which a choke whose downstream close faults, and
    likewise a chunk whose downstream push faults, makes the catch
    handler's error() raise "the stream has been closed"; that exception
    leaves the dispatch and, with it, the whole pass of [process]. *)
Theorem usage_fault_escapes_dispatch :
  let w := Script.after [rpc.invoke 3%N "early"] in
  Worker.reachable Script.sandbox [Worker.started 3%N] w ∧
  m_streams w !! 3%N = Some (mk_io 0 1) ∧
  m_heap w !! 0%nat = Some (mk_cell (mk_upstream 3%N closed) true) ∧
  result (snd (ds_close Script.sandbox tt 1%nat)) = Thrown (std_exception "gone") ∧
  fst (fst (Worker.dispatch Script.sandbox (rpc.choke 3%N) w))
  = Thrown stream_closed ∧
  fst (fst (Worker.dispatch Script.sandbox (rpc.chunk 3%N "boom") w))
  = Thrown stream_closed ∧
  fst (fst (Worker.process Script.sandbox 100
              [rpc.choke 3%N; rpc.heartbeat] w))
  = Thrown stream_closed.
Proof. split; [apply reach_after_early|]. repeat split. Qed.

Lemma unrouted_message_is_dropped_witness :
  m_streams Script.fresh !! 5%N = None ∧
  Worker.dispatch Script.sandbox (rpc.chunk 5%N "late") Script.fresh
  = (Returned tt, Script.fresh, [Logged (DEBUG_received rpc.t_chunk)]) ∧
  Worker.dispatch Script.sandbox (rpc.choke 5%N) Script.fresh
  = (Returned tt, Script.fresh, [Logged (DEBUG_received rpc.t_choke)]).
Proof.
  split; [reflexivity|].
  apply (unrouted_message_is_dropped Script.sandbox 5%N "late" Script.fresh eq_refl).
Defined.

Lemma duplicate_invoke_is_discarded_witness :
  Worker.reachable Script.sandbox [Worker.started 4%N]
    (Script.after [rpc.invoke 4%N "ping"]) ∧
  m_streams (Script.after [rpc.invoke 4%N "ping"]) !! 4%N = Some (mk_io 0 0) ∧
  result (snd (sb_invoke Script.sandbox tt "oneshot" 1%nat)) = Returned 2%nat ∧
  ∃ w' out,
    Worker.dispatch Script.sandbox (rpc.invoke 4%N "oneshot")
      (Script.after [rpc.invoke 4%N "ping"])
    = (Returned tt, w', out) ∧
    m_streams w' = m_streams (Script.after [rpc.invoke 4%N "ping"]) ∧
    sent_messages out = [rpc.choke 4%N].
Proof.
  split; [apply reach_after_ping|]. split; [reflexivity|]. split; [reflexivity|].
  destruct (duplicate_invoke_is_discarded Script.sandbox [Worker.started 4%N]
              (Script.after [rpc.invoke 4%N "ping"]) 4%N "oneshot" (mk_io 0 0) 2%nat
              (reach_after_ping 4%N) eq_refl eq_refl)
    as (w1 & o1 & w' & o2 & Ht & Hd & Hs & _ & Hdtor).
  exists w', (Logged (DEBUG_received rpc.t_invoke) :: o1 ++ o2).
  split; [exact Hd|]. split; [exact Hs|].
  revert Hd. vm_compute. by intros [= _ <-].
Defined.

(** ** What the dispatcher leaves alone *)

Section Untouched.

Context {App : Type} (sb : sandbox_t App).
Implicit Types (w : worker_t App) (out : list effect).

(** Whatever the message and however its dispatch ends, the profile, the
    loop's clock and the fed events are as before; the disown timer is as
    before unless the message is a heartbeat; the loop is stopped
    afterwards exactly if it was stopped before or the message is a
    terminate. *)
Lemma dispatch_keeps m w res w' out :
  Worker.dispatch sb m w = (res, w', out) →
  m_profile w' = m_profile w ∧
  ev_now (m_loop w') = ev_now (m_loop w) ∧
  fed (m_loop w') = fed (m_loop w) ∧
  unlooped (m_loop w')
  = (unlooped (m_loop w)
     || match m with rpc.terminate => true | _ => false end) ∧
  (m ≠ rpc.heartbeat → m_disown_timer w' = m_disown_timer w).
Proof.
  intros Hd. destruct m as [| | |s ev|s d| |s|];
    try (injection Hd as _ <- _; simpl; rewrite ?orb_false_r, ?orb_true_r;
         by repeat split).
  - destruct (dispatch_invoke_spec sb s ev w) as (res2 & w2 & o2 & Hd2 & Hspec).
    rewrite Hd2 in Hd. assert (w2 = w') as -> by congruence. simpl in Hspec.
    assert (m_disown_timer w' = m_disown_timer w ∧ m_loop w' = m_loop w
            ∧ m_profile w' = m_profile w) as (Ht & Hl & Hp).
    { destruct (result _).
      - by destruct Hspec as [_ (_&?&?&?&_)].
      - by destruct Hspec as (_&?&?&?&_). }
    rewrite Hl, Hp, Ht, orb_false_r. by repeat split.
  - destruct (dispatch_chunk_spec sb s d w) as (res2 & w2 & o2 & Hd2 & Hspec).
    rewrite Hd2 in Hd. assert (w2 = w') as -> by congruence.
    assert (m_disown_timer w' = m_disown_timer w ∧ m_loop w' = m_loop w
            ∧ m_profile w' = m_profile w) as (Ht & Hl & Hp).
    { destruct (m_streams w !! s).
      - destruct (result _).
        + by destruct Hspec as [_ (_&?&?&?&_)].
        + by destruct Hspec as [[_ (_&?&?&?&_)] | [_ (_&?&?&?&_)]].
      - by destruct Hspec as (_ & -> & _). }
    rewrite Hl, Hp, Ht, orb_false_r. by repeat split.
  - destruct (dispatch_choke_spec sb s w) as (res2 & w2 & o2 & Hd2 & Hspec).
    rewrite Hd2 in Hd. assert (w2 = w') as -> by congruence.
    assert (m_disown_timer w' = m_disown_timer w ∧ m_loop w' = m_loop w
            ∧ m_profile w' = m_profile w) as (Ht & Hl & Hp).
    { destruct (m_streams w !! s).
      - by destruct Hspec as [[_ (_&?&?&?&_)] | [_ [(_&?&?&?&_) _]]].
      - by destruct Hspec as (_ & -> & _). }
    rewrite Hl, Hp, Ht, orb_false_r. by repeat split.
Qed.

End Untouched.

(** ** Whole passes: the timer, the loop and the exceptions *)

Section Passes.

Context {App : Type} (sb : sandbox_t App).
Variable io_bulk_size : Z.
Implicit Types (w : worker_t App) (out : list effect).

Lemma dispatch_all_keeps ms : ∀ w res w' out,
  Worker.dispatch_all sb ms w = (res, w', out) →
  let restarted :=
    mk_timer true (Qplus (ev_now (m_loop w)) (heartbeat_timeout (m_profile w))) in
  m_profile w' = m_profile w ∧
  ev_now (m_loop w') = ev_now (m_loop w) ∧
  fed (m_loop w') = fed (m_loop w) ∧
  (unlooped (m_loop w) = true → unlooped (m_loop w') = true) ∧
  (rpc.terminate ∉ ms → unlooped (m_loop w') = unlooped (m_loop w)) ∧
  (rpc.terminate ∈ ms → res = Returned tt → unlooped (m_loop w') = true) ∧
  (m_disown_timer w' = m_disown_timer w ∨ m_disown_timer w' = restarted) ∧
  (rpc.heartbeat ∉ ms → m_disown_timer w' = m_disown_timer w) ∧
  (rpc.heartbeat ∈ ms → res = Returned tt → m_disown_timer w' = restarted).
Proof.
  induction ms as [|m ms IH]; intros w res w' out Hd restarted; subst restarted.
  - injection Hd as _ <- _.
    repeat split; try done; try (by intros ?%elem_of_nil). by left.
  - simpl in Hd.
    apply bind_inv in Hd as [([] & w1 & o1 & o2 & Hm & Hk & ->) | (e & Hm & ->)].
    + destruct (dispatch_keeps sb _ _ _ _ _ Hm) as (Hp1 & Hn1 & Hf1 & Hu1 & Ht1).
      destruct (IH _ _ _ _ Hk)
        as (Hp & Hn & Hf & Hmono & Hnoterm & Hterm & Heither & Hnohb & Hhb).
      rewrite Hn1, Hp1 in Heither, Hhb.
      assert (Hfirst : m = rpc.heartbeat →
                m_disown_timer w1
                = mk_timer true (Qplus (ev_now (m_loop w))
                                       (heartbeat_timeout (m_profile w)))).
      { intros ->. by injection Hm as <- _. }
      rewrite Hp, Hn, Hf, Hp1, Hn1, Hf1. repeat split.
      * intros Hw. apply Hmono. rewrite Hu1, Hw. done.
      * intros Hnot. rewrite Hnoterm by (intros ?; apply Hnot; by right).
        rewrite Hu1. destruct m; try apply orb_false_r.
        exfalso. apply Hnot. by left.
      * intros Hin ->. apply elem_of_cons in Hin as [<- | Hin]; [|by apply Hterm].
        apply Hmono. rewrite Hu1. apply orb_true_r.
      * destruct Heither as [-> | ->]; [|by right].
        destruct m; try (left; apply Ht1; discriminate).
        right. by apply Hfirst.
      * intros Hnot. rewrite Hnohb by (intros ?; apply Hnot; by right).
        apply Ht1. intros ->. apply Hnot. by left.
      * intros Hin ->. apply elem_of_cons in Hin as [<- | Hin]; [|by apply Hhb].
        destruct Heither as [-> | ->]; [by apply Hfirst|done].
    + destruct (dispatch_keeps sb _ _ _ _ _ Hm) as (Hp1 & Hn1 & Hf1 & Hu1 & Ht1).
      repeat split; try done.
      * intros Hw. rewrite Hu1, Hw. done.
      * intros Hnot. rewrite Hu1. destruct m; try apply orb_false_r.
        exfalso. apply Hnot. by left.
      * destruct m; left; apply Ht1; discriminate.
      * intros Hnot. apply Ht1. intros ->. apply Hnot. by left.
Qed.

(** A pass, split into the dispatches of its batch and the feed. *)
Lemma process_cases q w res w' out :
  0 < io_bulk_size < 2 ^ 31 →
  Worker.process sb io_bulk_size q w = (res, w', out) →
  let n := Z.to_nat io_bulk_size in
  ∃ r1 w1,
    Worker.dispatch_all sb (take n q) w = (r1, w1, out) ∧
    match r1 with
    | Returned _ =>
        res = Returned (drop n q) ∧
        w' = if bool_decide (n ≤ length q)%nat
             then Worker.set_loop
                    (λ l, mk_loop (ev_now l) (unlooped l) (S (fed l))) w1
             else w1
    | Thrown e => res = Thrown e ∧ w' = w1
    end.
Proof.
  intros Hb Hp n. unfold Worker.process in Hp.
  rewrite (drain_pass sb q io_bulk_size w Hb) in Hp. fold n in Hp.
  unfold Worker.pass in Hp.
  apply bind_inv in Hp as [([] & w1 & o1 & o2 & Hd & Hk & ->) | (e & Hd & ->)].
  - exists (Returned tt), w1.
    destruct (bool_decide (n ≤ length q)%nat); injection Hk as <- <- <-;
      by rewrite app_nil_r.
  - by exists (Thrown e), w'.
Qed.

(** X1: in one pass of [process], only heartbeat messages move the disown
    timer: if the dispatched batch holds no heartbeat the timer is left
    as it was, however the pass ends; if it holds one and the pass
    returns, the timer is running and due at the loop's time plus the
    profile's timeout, whatever else was dispatched before or after it;
    the profile itself never changes. *)
Theorem pass_moves_disown_timer_only_by_heartbeats q w res w' out :
  0 < io_bulk_size < 2 ^ 31 →
  Worker.process sb io_bulk_size q w = (res, w', out) →
  let batch := take (Z.to_nat io_bulk_size) q in
  let restarted :=
    mk_timer true (Qplus (ev_now (m_loop w)) (heartbeat_timeout (m_profile w))) in
  m_profile w' = m_profile w ∧
  (rpc.heartbeat ∉ batch → m_disown_timer w' = m_disown_timer w) ∧
  (rpc.heartbeat ∈ batch → (∃ rest, res = Returned rest) →
     m_disown_timer w' = restarted) ∧
  (m_disown_timer w' = m_disown_timer w ∨ m_disown_timer w' = restarted).
Proof.
  intros Hb Hp batch restarted.
  destruct (process_cases q w res w' out Hb Hp) as (r1 & w1 & Hd & Hcase).
  destruct (dispatch_all_keeps _ _ _ _ _ Hd)
    as (Hpr & _ & _ & _ & _ & _ & Heither & Hnohb & Hhb).
  assert (m_disown_timer w' = m_disown_timer w1
          ∧ m_profile w' = m_profile w1) as [Ht' Hp'].
  { destruct r1 as [[]|e]; destruct Hcase as [_ ->]; [|done].
    by destruct (bool_decide _). }
  rewrite Ht', Hp'. repeat split; try done.
  intros Hin [rest ->]. apply Hhb; [done|].
  destruct r1 as [[]|e]; [done|]. by destruct Hcase.
Qed.

(** X2: a pass of [process] never changes the loop's clock; the only
    fed event is the one at the end of a pass whose counter ran out (none
    when the pass ends by an exception); and the loop is stopped by a
    pass only through a terminate message: once stopped it stays
    stopped, without a terminate in the batch the flag is as before, and
    with one in a pass that returns it is set. *)
Theorem pass_feeds_once_and_stops_only_on_terminate q w res w' out :
  0 < io_bulk_size < 2 ^ 31 →
  Worker.process sb io_bulk_size q w = (res, w', out) →
  let n := Z.to_nat io_bulk_size in
  ev_now (m_loop w') = ev_now (m_loop w) ∧
  (fed (m_loop w')
   = match res with
     | Returned _ =>
         if bool_decide (n ≤ length q)%nat
         then S (fed (m_loop w)) else fed (m_loop w)
     | Thrown _ => fed (m_loop w)
     end) ∧
  (unlooped (m_loop w) = true → unlooped (m_loop w') = true) ∧
  (rpc.terminate ∉ take n q → unlooped (m_loop w') = unlooped (m_loop w)) ∧
  (rpc.terminate ∈ take n q → (∃ rest, res = Returned rest) →
     unlooped (m_loop w') = true).
Proof.
  intros Hb Hp n.
  destruct (process_cases q w res w' out Hb Hp) as (r1 & w1 & Hd & Hcase).
  fold n in Hd, Hcase.
  destruct (dispatch_all_keeps _ _ _ _ _ Hd)
    as (_ & Hn & Hf & Hmono & Hnoterm & Hterm & _).
  destruct r1 as [[]|e]; destruct Hcase as [-> ->].
  - destruct (bool_decide (n ≤ length q)%nat); simpl; rewrite ?Hn, ?Hf;
      repeat split; try done; intros; by apply Hterm.
  - rewrite Hn, Hf. repeat split; try done. by intros ? [? [=]].
Qed.

End Passes.

(** ** Exceptions that leave the dispatcher *)

Section Escapes.

Context {App : Type} (sb : sandbox_t App).
Implicit Types (w : worker_t App) (out : list effect).

(** X3: no exception of the application ever leaves the dispatch of a
    message.  The only exception that does is the adapter's "the stream
    has been closed", raised by the error() call of a catch handler on
    an adapter that is closed: the adapter made for an invoke whose
    sandbox call threw, or the stored upstream of a chunk or choke whose
    downstream call threw.  The session table is then as it was before
    the message. *)
Theorem only_closed_adapter_exception_leaves_dispatch m w e w' out :
  Worker.dispatch sb m w = (Thrown e, w', out) →
  e = stream_closed ∧
  m_streams w' = m_streams w ∧
  ∃ r cl,
    m_heap w' !! r = Some cl ∧ m_state (obj cl) = closed ∧
    match m with
    | rpc.invoke session_id event =>
        r = length (m_heap w) ∧
        ∃ e0, result (snd (sb_invoke sb (m_sandbox w) event r)) = Thrown e0
    | rpc.chunk session_id message =>
        ∃ io e0, m_streams w !! session_id = Some io ∧ r = upstream io ∧
                 result (snd (ds_push sb (m_sandbox w) (downstream io) message))
                 = Thrown e0
    | rpc.choke session_id =>
        ∃ io e0, m_streams w !! session_id = Some io ∧ r = upstream io ∧
                 result (snd (ds_close sb (m_sandbox w) (downstream io)))
                 = Thrown e0
    | _ => False
    end.
Proof.
  intros Hd. destruct m as [| | |s ev|s d| |s|]; try discriminate Hd.
  - (* invoke *)
    unfold Worker.dispatch in Hd.
    unfold Worker.bind at 1 2 in Hd. unfold Worker.emit, Worker.make_shared in Hd.
    set (w0 := Worker.set_heap _ w) in Hd.
    unfold Worker.bind at 1 in Hd.
    destruct (invoke_try_spec sb s ev (length (m_heap w)) w0)
      as (res & w2 & o2 & Ht & Hspec).
    change (m_sandbox w0) with (m_sandbox w) in Hspec.
    rewrite Ht in Hd.
    destruct (result (snd (sb_invoke sb (m_sandbox w) ev (length (m_heap w)))))
      as [hd|e0] eqn:Hres.
    { destruct Hspec as [-> _].
      destruct (unref_spec None (length (m_heap w)) w2) as (w3 & o3 & Hu & _).
      rewrite Hu in Hd. discriminate Hd. }
    destruct res as [[]|e'].
    { destruct (unref_spec None (length (m_heap w)) w2) as (w3 & o3 & Hu & _).
      rewrite Hu in Hd. discriminate Hd. }
    injection Hd as -> -> _.
    revert Ht. unfold Worker.invoke_try, Worker.try_catch. unfold Worker.bind at 1.
    destruct (enter_spec (Some (length (m_heap w)))
                (λ a, sb_invoke sb a ev (length (m_heap w))) w0)
      as (wa & oa & Ha & Hfa & _).
    change (m_sandbox w0) with (m_sandbox w) in Ha.
    rewrite Hres in Ha. rewrite Ha.
    destruct (Worker.upstream_call (length (m_heap w)) _ wa)
      as [[rc wb] ob] eqn:Hc.
    intros [= -> -> _].
    apply upstream_call_thrown in Hc as (-> & -> & -> & cl & Hcl & Hclosed).
    split; [done|]. split; [by destruct Hfa as (Hs & _)|].
    exists (length (m_heap w)), cl. repeat split; try done. by exists e0.
  - (* chunk *)
    unfold Worker.dispatch in Hd.
    unfold Worker.bind at 1 2 in Hd. unfold Worker.emit, Worker.get in Hd.
    destruct (m_streams w !! s) as [io|] eqn:Hlk; [|discriminate Hd].
    unfold Worker.try_catch in Hd.
    destruct (enter_spec None (λ a, ds_push sb a (downstream io) d) w)
      as (wa & oa & Ha & Hfa & _).
    rewrite Ha in Hd.
    destruct (result (snd (ds_push sb (m_sandbox w) (downstream io) d)))
      as [[]|e0] eqn:Hres; [discriminate Hd|].
    unfold Worker.bind at 1 in Hd.
    destruct (Worker.upstream_call (upstream io) _ wa)
      as [[[[]|e'] wb] ob] eqn:Hc.
    { destruct (erase_spec sb s io wb) as (wc & oc & He & _).
      rewrite He in Hd. discriminate Hd. }
    injection Hd as -> -> _.
    apply upstream_call_thrown in Hc as (-> & -> & -> & cl & Hcl & Hclosed).
    split; [done|]. split; [by destruct Hfa as (Hs & _)|].
    exists (upstream io), cl. repeat split; try done. by exists io, e0.
  - (* choke *)
    unfold Worker.dispatch in Hd.
    unfold Worker.bind at 1 2 in Hd. unfold Worker.emit, Worker.get in Hd.
    destruct (m_streams w !! s) as [io|] eqn:Hlk; [|discriminate Hd].
    unfold Worker.bind at 1 in Hd. unfold Worker.try_catch in Hd.
    destruct (enter_spec None (λ a, ds_close sb a (downstream io)) w)
      as (wa & oa & Ha & Hfa & _).
    rewrite Ha in Hd.
    destruct (result (snd (ds_close sb (m_sandbox w) (downstream io))))
      as [[]|e0] eqn:Hres.
    { destruct (erase_spec sb s io wa) as (wc & oc & He & _).
      rewrite He in Hd. discriminate Hd. }
    destruct (Worker.upstream_call (upstream io) _ wa)
      as [[[[]|e'] wb] ob] eqn:Hc.
    { destruct (erase_spec sb s io wb) as (wc & oc & He & _).
      rewrite He in Hd. discriminate Hd. }
    injection Hd as -> -> _.
    apply upstream_call_thrown in Hc as (-> & -> & -> & cl & Hcl & Hclosed).
    split; [done|]. split; [by destruct Hfa as (Hs & _)|].
    exists (upstream io), cl. repeat split; try done. by exists io, e0.
Qed.

(** X4: in every reachable state each stream pair of the table points to
    an adapter that exists and was made for the very session id the pair
    is stored under; so no two sessions share an upstream adapter. *)
Theorem table_entries_point_to_their_own_adapters h w :
  Worker.reachable sb h w →
  (∀ session_id io,
     m_streams w !! session_id = Some io →
     ∃ cl, m_heap w !! upstream io = Some cl ∧ m_id (obj cl) = session_id) ∧
  (∀ s1 s2 io1 io2,
     m_streams w !! s1 = Some io1 →
     m_streams w !! s2 = Some io2 →
     upstream io1 = upstream io2 → s1 = s2).
Proof.
  intros Hr. pose proof (reachable_refs_ok sb h w Hr) as Hok. split.
  - intros s io Hlk. specialize (Hok s io Hlk). simpl in Hok.
    unfold Worker.heap_ids in Hok. rewrite list_lookup_fmap in Hok.
    destruct (m_heap w !! upstream io) as [cl|]; [|discriminate].
    exists cl. split; [done|]. by injection Hok.
  - intros s1 s2 io1 io2 H1 H2 Heq.
    pose proof (Hok s1 io1 H1) as Hi1. pose proof (Hok s2 io2 H2) as Hi2.
    simpl in *. rewrite Heq in Hi1. congruence.
Qed.

End Escapes.

(** ** The stream of one adapter *)

(** X5: whatever series of push, error and close calls is made on a new
    adapter before it is destroyed, the messages it has sent by then are
    the chunks pushed before the first error or close, in order, and then
    exactly one termination: the error and choke of that first error
    call, or a single choke (of the first close, or of the destructor if
    the stream was never terminated).  Nothing follows the choke, every
    message carries the adapter's session id, and the adapter ends
    closed. *)
Theorem adapter_writes_one_well_formed_stream id cs :
  let u := Upstream.after_all (Upstream.make id) cs in
  Upstream.emitted_all (Upstream.make id) cs ++ snd (Upstream.dtor u)
  = (rpc.chunk id <$> Stream.accepted cs) ++ Stream.ending id cs
  ∧ m_state (fst (Upstream.dtor u)) = closed.
Proof.
  unfold Upstream.make. induction cs as [|c cs IH]; [done|].
  destruct c as [d|code msg|]; simpl;
    unfold Upstream.emitted, Upstream.after, Upstream.perform, Upstream.push,
      Upstream.error, Upstream.close, Upstream.set_state; simpl.
  - destruct IH as [IH1 IH2]. simpl in IH1. by rewrite IH1.
  - by destruct (closed_stays (mk_upstream id closed) cs eq_refl) as [-> ->].
  - by destruct (closed_stays (mk_upstream id closed) cs eq_refl) as [-> ->].
Qed.

(** ** Dispatch does not look at the loop *)

Section LoopIndependence.

Context {App : Type} (sb : sandbox_t App).
Variables (stop : bool) (k : nat).
Implicit Types (w : worker_t App).

Local Abbreviation sh := (Loop.shift stop k).
Local Abbreviation shd := (Loop.shifted stop k).

Lemma bind_shift {X Y} (m : Worker.M X) (f : X → Worker.M Y) :
  (∀ w, m (sh w) = shd (m w)) →
  (∀ x w, f x (sh w) = shd (f x w)) →
  ∀ w, Worker.bind m f (sh w) = shd (Worker.bind m f w).
Proof.
  intros Hm Hf w. unfold Worker.bind. rewrite Hm.
  destruct (m w) as [[[x|e] w1] o1]; simpl; [|done].
  rewrite Hf. by destruct (f x w1) as [[r w2] o2].
Qed.

Lemma try_catch_shift {X} (body : Worker.M X) (handler : exn → Worker.M X) :
  (∀ w, body (sh w) = shd (body w)) →
  (∀ e w, handler e (sh w) = shd (handler e w)) →
  ∀ w, Worker.try_catch body handler (sh w) = shd (Worker.try_catch body handler w).
Proof.
  intros Hb Hh w. unfold Worker.try_catch. rewrite Hb.
  destruct (body w) as [[[x|e] w1] o1]; simpl; [done|].
  rewrite Hh. by destruct (handler e w1) as [[r w2] o2].
Qed.

Lemma upstream_call_shift r c w :
  Worker.upstream_call r c (sh w) = shd (Worker.upstream_call r c w).
Proof.
  unfold Worker.upstream_call. simpl.
  destruct (m_heap w !! r) as [cl|]; [|done].
  by destruct (Upstream.perform (obj cl) c) as [[u o]|e].
Qed.

Lemma unref_shift local r w :
  Worker.unref local r (sh w) = shd (Worker.unref local r w).
Proof.
  unfold Worker.unref, Worker.pinned. simpl.
  destruct (m_heap w !! r) as [cl|]; [|done].
  destruct (held cl || _); [done|].
  by destruct (Upstream.dtor (obj cl)).
Qed.

Lemma app_step_shift local op w :
  Worker.app_step local op (sh w) = shd (Worker.app_step local op w).
Proof.
  destruct op as [r c|r]; simpl.
  - destruct (m_heap w !! r) as [cl|]; [|done].
    destruct (held cl); [|done].
    rewrite upstream_call_shift.
    by destruct (Worker.upstream_call r c w) as [[[x|e] w1] o1].
  - destruct (m_heap w !! r) as [cl|]; [|done].
    destruct (held cl); [|done].
    apply (bind_shift (Worker.modify _) (λ _, Worker.unref local r));
      [done | intros; apply unref_shift].
Qed.

Lemma app_steps_shift local ops w :
  Worker.app_steps local ops (sh w) = shd (Worker.app_steps local ops w).
Proof.
  revert w. induction ops as [|op ops IH]; intros w; [done|]. simpl.
  apply bind_shift; [intros; apply app_step_shift | intros; apply IH].
Qed.

Lemma enter_shift {X} local (f : App → App * reply X) w :
  Worker.enter local f (sh w) = shd (Worker.enter local f w).
Proof.
  unfold Worker.enter. simpl. destruct (f (m_sandbox w)) as [a' rep].
  change (Worker.set_sandbox a' (sh w)) with (sh (Worker.set_sandbox a' w)).
  apply bind_shift; [intros; apply app_steps_shift|].
  intros _ w'. by destruct (result rep).
Qed.

Lemma drop_downstream_shift local h w :
  Worker.drop_downstream sb local h (sh w)
  = shd (Worker.drop_downstream sb local h w).
Proof.
  unfold Worker.drop_downstream. simpl.
  destruct (ds_release sb (m_sandbox w) h) as [a' ops].
  change (Worker.set_sandbox a' (sh w)) with (sh (Worker.set_sandbox a' w)).
  apply app_steps_shift.
Qed.

Lemma erase_shift s io w :
  Worker.erase sb s io (sh w) = shd (Worker.erase sb s io w).
Proof.
  unfold Worker.erase.
  apply bind_shift; [done|]. intros _ w1.
  apply bind_shift; [intros; apply drop_downstream_shift|].
  intros; apply unref_shift.
Qed.

Lemma invoke_try_shift s ev r w :
  Worker.invoke_try sb s ev r (sh w) = shd (Worker.invoke_try sb s ev r w).
Proof.
  unfold Worker.invoke_try.
  apply try_catch_shift; [|intros; apply upstream_call_shift].
  intros w1. apply bind_shift; [intros; apply enter_shift|].
  intros h w2. apply bind_shift.
  - intros w3. unfold Worker.emplace. simpl.
    by destruct (m_streams w3 !! s).
  - intros [] w3; [done | apply drop_downstream_shift].
Qed.

Lemma get_shift {Y} (f : worker_t App → Worker.M Y) :
  (∀ w, f (sh w) (sh w) = shd (f w w)) →
  ∀ w, Worker.bind Worker.get f (sh w) = shd (Worker.bind Worker.get f w).
Proof.
  intros Hf w. unfold Worker.bind, Worker.get. rewrite Hf.
  by destruct (f w w) as [[r w2] o2].
Qed.

Lemma dispatch_shift m w :
  Worker.dispatch sb m (sh w) = shd (Worker.dispatch sb m w).
Proof.
  unfold Worker.dispatch. apply bind_shift; [done|]. intros _ w0.
  destruct m as [| | |s ev|s d| |s|]; try done.
  - apply bind_shift; [done|]. intros r w1.
    apply bind_shift; [intros; apply invoke_try_shift | intros; apply unref_shift].
  - apply get_shift. intros w1. simpl.
    destruct (m_streams w1 !! s) as [io|]; [|done].
    apply try_catch_shift; [intros; apply enter_shift|].
    intros e w2. apply bind_shift;
      [intros; apply upstream_call_shift | intros; apply erase_shift].
  - apply get_shift. intros w1. simpl.
    destruct (m_streams w1 !! s) as [io|]; [|done].
    apply bind_shift; [|intros; apply erase_shift].
    intros w2. apply try_catch_shift;
      [intros; apply enter_shift | intros; apply upstream_call_shift].
Qed.

Lemma dispatch_all_shift ms w :
  Worker.dispatch_all sb ms (sh w) = shd (Worker.dispatch_all sb ms w).
Proof.
  revert w. induction ms as [|m ms IH]; intros w; [done|]. simpl.
  apply bind_shift; [intros; apply dispatch_shift | intros; apply IH].
Qed.

Lemma drain_shift q : ∀ n w,
  Worker.drain sb q n (sh w) = shd (Worker.drain sb q n w).
Proof.
  induction q as [|m q IH]; intros n w; [done|]. simpl.
  apply bind_shift; [intros; apply dispatch_shift|]. intros _ w1.
  destruct (wrap_int (n - 1) =? 0); [done | apply IH].
Qed.

End LoopIndependence.

Section AcrossPasses.

Context {App : Type} (sb : sandbox_t App).
Variable io_bulk_size : Z.
Implicit Types (w : worker_t App).

Lemma shift_stop w :
  Loop.shift true 0 w
  = Worker.set_loop (λ l, mk_loop (ev_now l) true (fed l)) w.
Proof.
  unfold Loop.shift, Worker.set_loop. simpl.
  by rewrite orb_true_r, Nat.add_0_r.
Qed.

Lemma shift_none w : Loop.shift false 0 w = w.
Proof.
  destruct w as [t hp tm [now un fd] pr a]. unfold Loop.shift, Worker.set_loop.
  simpl. by rewrite orb_false_r, Nat.add_0_r.
Qed.

Lemma shift_feed w :
  Worker.set_loop (λ l, mk_loop (ev_now l) (unlooped l) (S (fed l))) w
  = Loop.shift false 1 w.
Proof.
  unfold Loop.shift, Worker.set_loop. simpl.
  by rewrite orb_false_r, Nat.add_1_r.
Qed.

Lemma shift_shift a b w :
  Loop.shift false a (Loop.shift false b w) = Loop.shift false (b + a) w.
Proof.
  unfold Loop.shift, Worker.set_loop. simpl.
  by rewrite !orb_false_r, Nat.add_assoc.
Qed.

(** X6: dispatch never looks at the loop: in a state that differs only
    by the loop being stopped or by fed events, every message, and every
    pass of [process], ends the same way, writes the same effects and
    leaves the same state up to that difference.  So a terminate message
    does not end the pass it arrives in: with a bulk size above one, the
    messages queued behind it are dispatched exactly as the loop would
    have dispatched them with one iteration less to go, after the log
    line and the suicide message, and the loop ends up stopped. *)
Theorem dispatch_does_not_look_at_the_loop stop k q w :
  (∀ m, Worker.dispatch sb m (Loop.shift stop k w)
        = Loop.shifted stop k (Worker.dispatch sb m w)) ∧
  Worker.process sb io_bulk_size q (Loop.shift stop k w)
  = Loop.shifted stop k (Worker.process sb io_bulk_size q w) ∧
  (1 < io_bulk_size < 2 ^ 31 →
   Worker.process sb io_bulk_size (rpc.terminate :: q) w
   = let '(res, w', out) := Worker.drain sb q (io_bulk_size - 1) w in
     (res,
      Worker.set_loop (λ l, mk_loop (ev_now l) true (fed l)) w',
      Logged (DEBUG_received rpc.t_terminate)
      :: Sent (rpc.suicide rpc.normal "per request") :: out)).
Proof.
  split; [intros m; apply dispatch_shift|].
  split; [apply drain_shift|].
  intros Hb. unfold Worker.process. simpl.
  rewrite wrap_int_pred by lia.
  destruct (Z.eqb_spec (io_bulk_size - 1) 0) as [?|_]; [lia|].
  unfold Worker.bind at 1. simpl.
  rewrite <- shift_stop, drain_shift.
  destruct (Worker.drain sb q (io_bulk_size - 1) w) as [[res w'] out].
  simpl. by rewrite shift_stop.
Qed.

Lemma dispatch_all_app ms1 ms2 : ∀ w,
  Worker.dispatch_all sb (ms1 ++ ms2) w
  = Worker.bind (Worker.dispatch_all sb ms1) (λ _, Worker.dispatch_all sb ms2) w.
Proof.
  induction ms1 as [|m ms1 IH]; intros w; simpl.
  - unfold Worker.bind, Worker.ret.
    by destruct (Worker.dispatch_all sb ms2 w) as [[r w'] o].
  - unfold Worker.bind at 1 2 3.
    destruct (Worker.dispatch sb m w) as [[[[]|e] w1] o1]; [|done].
    rewrite IH. unfold Worker.bind.
    destruct (Worker.dispatch_all sb ms1 w1) as [[[[]|e] w2] o2]; [|done].
    destruct (Worker.dispatch_all sb ms2 w2) as [[r w3] o3].
    by rewrite app_assoc.
Qed.

(** X7: [k] calls of [on_event] in a row dispatch the first [k] times
    [bound] queued messages, each once and in the order queued, exactly
    as one uninterrupted series of dispatches would (the state differs
    only by the events fed in between, at most one per call), and leave
    the others queued; when they all return, the checker is left started
    exactly if the channel still had a message when the last call
    began. *)
Theorem on_events_dispatch_the_queue_in_order k :
  0 < io_bulk_size < 2 ^ 31 →
  ∀ c q w,
    let n := Z.to_nat io_bulk_size in
    ∃ j, (j ≤ k)%nat ∧
      Loop.on_events sb io_bulk_size k (Loop.mk_side c q) w
      = let '(res, w', out) := Worker.dispatch_all sb (take (k * n) q) w in
        (match res with
         | Returned _ =>
             Returned
               (Loop.mk_side
                  match k with
                  | O => c
                  | S k' => bool_decide (k' * n < length q)%nat
                  end
                  (drop (k * n) q))
         | Thrown e => Thrown e
         end,
         Loop.shift false j w', out).
Proof.
  intros Hb. induction k as [|k IH]; intros c q w n.
  - exists 0%nat. split; [done|]. simpl. by rewrite drop_0, shift_none.
  - simpl Loop.on_events. unfold Loop.on_event. simpl Loop.m_channel.
    destruct q as [|m q0].
    + destruct (IH false [] w) as (j & Hj & Heq).
      exists j. split; [lia|].
      unfold Worker.bind at 1. simpl. rewrite Heq. fold n.
      rewrite !take_nil, !drop_nil. simpl. by destruct k.
    + set (q := m :: q0) in *.
      change (S k * n)%nat with (n + k * n)%nat.
      rewrite <- take_take_drop, dispatch_all_app.
      unfold Worker.process. unfold Worker.bind at 1 2.
      rewrite (drain_pass sb q io_bulk_size w Hb). fold n. unfold Worker.pass.
      unfold Worker.bind.
      destruct (Worker.dispatch_all sb (take n q) w) as [[[[]|e] w1] o1].
      2:{ exists 0%nat. split; [lia|]. by rewrite shift_none. }
      assert (∃ j1, (j1 ≤ 1)%nat ∧
                (let '(r, w2, out2) :=
                   (if bool_decide (n ≤ length q)%nat
                    then Worker.feed_fd_event else Worker.ret tt) w1 in
                 (r, w2, out2))
                = (Returned tt, Loop.shift false j1 w1, [])) as (j1 & Hj1 & Hfeed).
      { destruct (bool_decide (n ≤ length q)%nat).
        - exists 1%nat. split; [done|].
          unfold Worker.feed_fd_event, Worker.modify. by rewrite shift_feed.
        - exists 0%nat. split; [lia|]. by rewrite shift_none. }
      destruct ((if bool_decide (n ≤ length q)%nat
                 then Worker.feed_fd_event else Worker.ret tt) w1)
        as [[r1 wf] o_f] eqn:Hf.
      injection Hfeed as -> -> ->. simpl.
      destruct (IH true (drop n q) (Loop.shift false j1 w1)) as (j & Hj & Heq).
      rewrite Heq. fold n. rewrite dispatch_all_shift.
      destruct (Worker.dispatch_all sb (take (k * n) (drop n q)) w1)
        as [[res w2] o2].
      exists (j1 + j)%nat. split; [lia|]. simpl.
      rewrite shift_shift, drop_drop, !app_nil_r.
      destruct res as [[]|e]; [|done].
      repeat f_equal. destruct k as [|k']; simpl.
      * done.
      * apply bool_decide_ext. rewrite length_drop.
        unfold q. simpl length. lia.
Qed.

End AcrossPasses.

(** ** Gentle applications *)

Section Gentle.

Context {App : Type} (sb : sandbox_t App).
Implicit Types (w : worker_t App) (out : list effect).

Lemma pinned_in_table local s io w :
  m_streams w !! s = Some io → Worker.pinned local (upstream io) w = true.
Proof.
  intros Hlk. unfold Worker.pinned. apply orb_true_iff. right.
  apply existsb_exists. exists (s, io). split.
  - by apply list_elem_of_In, elem_of_map_to_list.
  - by apply bool_decide_eq_true.
Qed.

Lemma pinned_local r w : Worker.pinned (Some r) r w = true.
Proof. unfold Worker.pinned. by rewrite bool_decide_eq_true_2. Qed.

Lemma pinned_frame local r w w' :
  m_streams w' = m_streams w →
  Worker.pinned local r w' = Worker.pinned local r w.
Proof. intros Hs. unfold Worker.pinned. by rewrite Hs. Qed.

Lemma open_at_heap r w w' :
  m_heap w' !! r = m_heap w !! r → Worker.open_at r w → Worker.open_at r w'.
Proof. intros Heq (cl & Hcl & Ho). exists cl. by rewrite Heq. Qed.

(** The dispatcher's own calls touch one adapter only. *)
Lemma upstream_call_others r c w res w' out :
  Worker.upstream_call r c w = (res, w', out) →
  ∀ r2, r2 ≠ r → m_heap w' !! r2 = m_heap w !! r2.
Proof.
  unfold Worker.upstream_call. intros Hc r2 Hne.
  destruct (m_heap w !! r) as [cl|]; [|by injection Hc as _ <- _].
  destruct (Upstream.perform (obj cl) c) as [[u o]|e]; injection Hc as _ <- _;
    [|done]. simpl. by apply list_lookup_insert_ne.
Qed.

Lemma unref_others local r w res w' out :
  Worker.unref local r w = (res, w', out) →
  (∀ r2, r2 ≠ r → m_heap w' !! r2 = m_heap w !! r2) ∧
  (Worker.pinned local r w = true → w' = w).
Proof.
  unfold Worker.unref. intros Hu.
  destruct (m_heap w !! r) as [cl|]; [|by injection Hu as _ <- _].
  destruct (Worker.pinned local r w) eqn:Hp.
  - rewrite orb_true_r in Hu. by injection Hu as _ <- _.
  - destruct (held cl); simpl in Hu; [by injection Hu as _ <- _|].
    destruct (Upstream.dtor (obj cl)) as [u o]. injection Hu as _ <- _.
    split; [|done]. intros r2 Hne. simpl. by apply list_lookup_insert_ne.
Qed.

(** A gentle action leaves open every adapter the dispatcher points to. *)
Lemma app_step_gentle local op w res w' out :
  Discipline.gentle_op op = true →
  Worker.app_step local op w = (res, w', out) →
  ∀ r, Worker.pinned local r w = true →
       Worker.open_at r w → Worker.open_at r w'.
Proof.
  intros Hg Hs r Hp Hopen. destruct op as [r0 c|r0]; simpl in Hs.
  - destruct c as [d| |]; try discriminate Hg.
    destruct (m_heap w !! r0) as [cl|] eqn:Hr0; [|by injection Hs as _ <- _].
    destruct (held cl); [|by injection Hs as _ <- _].
    unfold Worker.upstream_call in Hs. rewrite Hr0 in Hs. simpl in Hs.
    unfold Upstream.push in Hs.
    destruct (m_state (obj cl)); simpl in Hs; injection Hs as _ <- _; [|done].
    apply (open_at_heap r w); [|done]. simpl.
    rewrite list_insert_id; [done|]. rewrite Hr0. by destruct cl.
  - destruct (m_heap w !! r0) as [cl|] eqn:Hr0; [|by injection Hs as _ <- _].
    destruct (held cl); [|by injection Hs as _ <- _].
    apply bind_inv in Hs as [([] & w1 & o1 & o2 & Hm & Hu & ->) | (e & [=] & _)].
    injection Hm as <- _.
    set (w1 := Worker.set_heap _ w) in Hu.
    assert (Hopen1 : Worker.open_at r w1).
    { destruct Hopen as (cl' & Hcl' & Ho). destruct (decide (r = r0)) as [->|Hne].
      - rewrite Hr0 in Hcl'. injection Hcl' as <-.
        exists (mk_cell (obj cl) false). split; [|done]. simpl.
        apply list_lookup_insert_eq. by eapply lookup_lt_Some.
      - exists cl'. split; [|done]. simpl. by rewrite list_lookup_insert_ne. }
    destruct (unref_others _ _ _ _ _ _ Hu) as [Hothers Hpinned].
    destruct (decide (r = r0)) as [->|Hne].
    + rewrite Hpinned; [done|]. by rewrite (pinned_frame local r0 w w1).
    + apply (open_at_heap r w1); [by apply Hothers | done].
Qed.

Lemma app_steps_gentle local ops : ∀ w res w' out,
  Discipline.gentle ops →
  Worker.app_steps local ops w = (res, w', out) →
  ∀ r, Worker.pinned local r w = true →
       Worker.open_at r w → Worker.open_at r w'.
Proof.
  induction ops as [|op ops IH]; intros w res w' out Hg Hs r Hp Hopen.
  - by injection Hs as _ <- _.
  - apply Forall_cons in Hg as [Hg1 Hg2]. simpl in Hs.
    apply bind_inv in Hs as [([] & w1 & o1 & o2 & H1 & H2 & ->) | (e & H1 & _)].
    + destruct (app_step_spec local op w) as (w1' & o1' & H1' & (Hs1 & _) & _).
      rewrite H1' in H1. injection H1 as -> _.
      eapply (IH w1); [done | exact H2 | | ].
      * by rewrite (pinned_frame local r w w1).
      * by eapply app_step_gentle.
    + destruct (app_step_spec local op w) as (w1' & o1' & H1' & _).
      rewrite H1' in H1. discriminate H1.
Qed.

Lemma enter_gentle {X} local (f : App → App * reply X) w res w' out :
  Discipline.gentle (calls (snd (f (m_sandbox w)))) →
  Worker.enter local f w = (res, w', out) →
  ∀ r, Worker.pinned local r w = true →
       Worker.open_at r w → Worker.open_at r w'.
Proof.
  unfold Worker.enter. destruct (f (m_sandbox w)) as [a' rep]. simpl.
  intros Hg He r Hp Hopen.
  apply bind_inv in He as [([] & w1 & o1 & o2 & H1 & H2 & ->) | (e & H1 & _)].
  - assert (w' = w1) as ->.
    { destruct (result rep); by injection H2 as _ <- _. }
    by eapply (app_steps_gentle local (calls rep) (Worker.set_sandbox a' w)).
  - by eapply (app_steps_gentle local (calls rep) (Worker.set_sandbox a' w)).
Qed.

Lemma drop_downstream_gentle local h w res w' out :
  Discipline.gentle (snd (ds_release sb (m_sandbox w) h)) →
  Worker.drop_downstream sb local h w = (res, w', out) →
  ∀ r, Worker.pinned local r w = true →
       Worker.open_at r w → Worker.open_at r w'.
Proof.
  unfold Worker.drop_downstream.
  destruct (ds_release sb (m_sandbox w) h) as [a' ops]. simpl.
  intros Hg Hd r Hp Hopen.
  by eapply (app_steps_gentle local ops (Worker.set_sandbox a' w)).
Qed.

Lemma gentle_invoke_calls a event r :
  Discipline.gentle_sandbox sb →
  Discipline.gentle (calls (snd (sb_invoke sb a event r))).
Proof. intros Hg. by destruct (Hg a) as (H & _). Qed.

Lemma gentle_push_calls a h d :
  Discipline.gentle_sandbox sb →
  Discipline.gentle (calls (snd (ds_push sb a h d))).
Proof. intros Hg. by destruct (Hg a) as (_ & H & _). Qed.

Lemma gentle_close_calls a h :
  Discipline.gentle_sandbox sb →
  Discipline.gentle (calls (snd (ds_close sb a h))).
Proof. intros Hg. by destruct (Hg a) as (_ & _ & H & _). Qed.

Lemma gentle_release_calls a h :
  Discipline.gentle_sandbox sb →
  Discipline.gentle (snd (ds_release sb a h)).
Proof. intros Hg. by destruct (Hg a) as (_ & _ & _ & H). Qed.

Lemma erase_gentle s io w :
  Discipline.gentle_sandbox sb →
  ∃ w' out,
    Worker.erase sb s io w = (Returned tt, w', out) ∧
    m_streams w' = delete s (m_streams w) ∧
    ∀ r, r ≠ upstream io →
         Worker.pinned None r (Worker.set_streams (delete s) w) = true →
         Worker.open_at r w → Worker.open_at r w'.
Proof.
  intros Hg. unfold Worker.erase, Worker.bind, Worker.modify.
  set (w0 := Worker.set_streams (delete s) w).
  destruct (Worker.drop_downstream sb (Some (upstream io)) (downstream io) w0)
    as [[r1 w1] o1] eqn:Hd.
  destruct (drop_downstream_spec sb (Some (upstream io)) (downstream io) w0)
    as (w1' & o1' & Hd' & Hf1).
  rewrite Hd in Hd'. injection Hd' as -> <- <-.
  destruct (Worker.unref None (upstream io) w1) as [[r2 w2] o2] eqn:Hu.
  destruct (unref_spec None (upstream io) w1) as (w2' & o2' & Hu' & Hf2 & _).
  rewrite Hu in Hu'. injection Hu' as -> <- <-.
  eexists _, _. split; [done|]. split.
  { destruct Hf1 as (Hs1 & _), Hf2 as (Hs2 & _). by rewrite Hs2, Hs1. }
  intros r Hne Hp Hopen.
  destruct (unref_others _ _ _ _ _ _ Hu) as [Hothers _].
  apply (open_at_heap r w1); [by apply Hothers|].
  eapply (drop_downstream_gentle (Some (upstream io)) (downstream io) w0);
    [by apply gentle_release_calls|exact Hd| |].
  - revert Hp. unfold Worker.pinned. simpl. intros ->. apply orb_true_r.
  - by apply (open_at_heap r w).
Qed.

Lemma table_ref_below w s io :
  Worker.refs_ok w → m_streams w !! s = Some io →
  (upstream io < length (m_heap w))%nat.
Proof.
  intros Hok Hlk. specialize (Hok s io Hlk). simpl in Hok.
  apply lookup_lt_Some in Hok. unfold Worker.heap_ids in Hok.
  by rewrite length_fmap in Hok.
Qed.

Lemma table_refs_differ w s1 s2 io1 io2 :
  Worker.refs_ok w → m_streams w !! s1 = Some io1 → m_streams w !! s2 = Some io2 →
  s1 ≠ s2 → upstream io1 ≠ upstream io2.
Proof.
  intros Hok H1 H2 Hne Heq. apply Hne.
  pose proof (Hok s1 io1 H1) as Hi1. pose proof (Hok s2 io2 H2) as Hi2.
  simpl in *. rewrite Heq in Hi1. congruence.
Qed.

Lemma gentle_chunk s d w :
  Discipline.gentle_sandbox sb → Worker.refs_ok w → Discipline.table_open w →
  ∃ w' out,
    Worker.dispatch sb (rpc.chunk s d) w = (Returned tt, w', out)
    ∧ Discipline.table_open w'.
Proof.
  intros Hg Hok Hto. unfold Worker.dispatch.
  unfold Worker.bind at 1. unfold Worker.emit at 1.
  unfold Worker.bind at 1. unfold Worker.get at 1.
  destruct (m_streams w !! s) as [io|] eqn:Hlk; [|by eexists _, _].
  unfold Worker.try_catch.
  destruct (Worker.enter None (λ a, ds_push sb a (downstream io) d) w)
    as [[ra wa] oa] eqn:Ha.
  destruct (enter_spec None (λ a, ds_push sb a (downstream io) d) w)
    as (wa' & oa' & Ha' & Hfa & _).
  rewrite Ha in Ha'. injection Ha' as -> <- <-.
  assert (Hopen_a : ∀ s2 io2, m_streams w !! s2 = Some io2 →
                              Worker.open_at (upstream io2) wa).
  { intros s2 io2 Hlk2.
    eapply (enter_gentle None (λ a, ds_push sb a (downstream io) d) w);
      [exact (gentle_push_calls (m_sandbox w) (downstream io) d Hg)
      | exact Ha | |by apply (Hto s2)].
    by eapply pinned_in_table. }
  destruct (result (snd (ds_push sb (m_sandbox w) (downstream io) d))) as [[]|e0].
  - eexists _, _. split; [done|]. unfold Discipline.table_open.
    destruct Hfa as (Hs & _). rewrite Hs. intros s2 io2 Hlk2. by eapply Hopen_a.
  - unfold Worker.bind at 1.
    destruct (Hopen_a s io Hlk) as (cl & Hcl & Ho).
    rewrite (upstream_error_open _ _ _ _ _ Hcl Ho).
    set (wb := Worker.set_heap _ wa).
    destruct (erase_gentle s io wb Hg) as (wc & oc & He & Hsc & Hkeep).
    rewrite He. eexists _, _. split; [done|].
    unfold Discipline.table_open. rewrite Hsc.
    assert (Hsb : m_streams wb = m_streams w) by (by destruct Hfa as (Hs & _)).
    rewrite Hsb. intros s2 io2 [Hne Hlk2]%lookup_delete_Some.
    pose proof (table_refs_differ w s s2 io io2 Hok Hlk Hlk2 Hne) as Hdiff.
    apply Hkeep; [done| |].
    + eapply (pinned_in_table None s2).
      change (m_streams (Worker.set_streams (delete s) wb))
        with (delete s (m_streams wb)).
      rewrite Hsb. by apply lookup_delete_Some.
    + apply (open_at_heap _ wa); [|by eapply Hopen_a].
      simpl. by apply list_lookup_insert_ne.
Qed.

Lemma gentle_choke s w :
  Discipline.gentle_sandbox sb → Worker.refs_ok w → Discipline.table_open w →
  ∃ w' out,
    Worker.dispatch sb (rpc.choke s) w = (Returned tt, w', out)
    ∧ Discipline.table_open w'.
Proof.
  intros Hg Hok Hto. unfold Worker.dispatch.
  unfold Worker.bind at 1. unfold Worker.emit at 1.
  unfold Worker.bind at 1. unfold Worker.get at 1.
  destruct (m_streams w !! s) as [io|] eqn:Hlk; [|by eexists _, _].
  unfold Worker.bind at 1. unfold Worker.try_catch.
  destruct (Worker.enter None (λ a, ds_close sb a (downstream io)) w)
    as [[ra wa] oa] eqn:Ha.
  destruct (enter_spec None (λ a, ds_close sb a (downstream io)) w)
    as (wa' & oa' & Ha' & Hfa & _).
  rewrite Ha in Ha'. injection Ha' as -> <- <-.
  assert (Hopen_a : ∀ s2 io2, m_streams w !! s2 = Some io2 →
                              Worker.open_at (upstream io2) wa).
  { intros s2 io2 Hlk2.
    eapply (enter_gentle None (λ a, ds_close sb a (downstream io)) w);
      [exact (gentle_close_calls (m_sandbox w) (downstream io) Hg)
      | exact Ha | |by apply (Hto s2)].
    by eapply pinned_in_table. }
  assert (Hfinish : ∀ wb,
            m_streams wb = m_streams w →
            (∀ r, r ≠ upstream io → m_heap wb !! r = m_heap wa !! r) →
            ∃ w' out, Worker.erase sb s io wb = (Returned tt, w', out)
                      ∧ Discipline.table_open w').
  { intros wb Hsb Hheap.
    destruct (erase_gentle s io wb Hg) as (wc & oc & He & Hsc & Hkeep).
    exists wc, oc. split; [done|].
    unfold Discipline.table_open. rewrite Hsc, Hsb.
    intros s2 io2 [Hne Hlk2]%lookup_delete_Some.
    pose proof (table_refs_differ w s s2 io io2 Hok Hlk Hlk2 Hne) as Hdiff.
    apply Hkeep; [done| |].
    + eapply (pinned_in_table None s2).
      change (m_streams (Worker.set_streams (delete s) wb))
        with (delete s (m_streams wb)).
      rewrite Hsb. by apply lookup_delete_Some.
    + apply (open_at_heap _ wa); [by apply Hheap | by eapply Hopen_a]. }
  destruct (result (snd (ds_close sb (m_sandbox w) (downstream io)))) as [[]|e0].
  - destruct (Hfinish wa) as (w' & o' & He & Hto'); [by destruct Hfa|done|].
    rewrite He. by eexists _, _.
  - destruct (Hopen_a s io Hlk) as (cl & Hcl & Ho).
    rewrite (upstream_error_open _ _ _ _ _ Hcl Ho).
    set (wb := Worker.set_heap _ wa).
    destruct (Hfinish wb) as (w' & o' & He & Hto').
    + by destruct Hfa.
    + intros r Hne. simpl. by apply list_lookup_insert_ne.
    + rewrite He. by eexists _, _.
Qed.

Lemma gentle_invoke s ev w :
  Discipline.gentle_sandbox sb → Worker.refs_ok w → Discipline.table_open w →
  ∃ w' out,
    Worker.dispatch sb (rpc.invoke s ev) w = (Returned tt, w', out)
    ∧ Discipline.table_open w'.
Proof.
  intros Hg Hok Hto. unfold Worker.dispatch, Worker.invoke_try.
  unfold Worker.bind at 1 2 3. unfold Worker.emit at 1.
  unfold Worker.make_shared at 1.
  set (r := length (m_heap w)).
  set (w0 := Worker.set_heap _ w).
  unfold Worker.try_catch. unfold Worker.bind at 1.
  destruct (Worker.enter (Some r) (λ a, sb_invoke sb a ev r) w0)
    as [[ra wa] oa] eqn:Ha.
  destruct (enter_spec (Some r) (λ a, sb_invoke sb a ev r) w0)
    as (wa' & oa' & Ha' & Hfa & _).
  rewrite Ha in Ha'. injection Ha' as -> <- <-.
  change (m_sandbox w0) with (m_sandbox w).
  assert (Hsa : m_streams wa = m_streams w) by (by destruct Hfa as (Hs & _)).
  assert (Hfresh : Worker.open_at r wa).
  { eapply (enter_gentle (Some r) (λ a, sb_invoke sb a ev r) w0);
      [exact (gentle_invoke_calls (m_sandbox w) ev r Hg) | exact Ha
      | apply pinned_local |].
    exists (mk_cell (Upstream.make s) true). split; [|done].
    simpl. by apply list_lookup_middle. }
  assert (Hopen_a : ∀ s2 io2, m_streams w !! s2 = Some io2 →
                              Worker.open_at (upstream io2) wa).
  { intros s2 io2 Hlk2.
    eapply (enter_gentle (Some r) (λ a, sb_invoke sb a ev r) w0);
      [exact (gentle_invoke_calls (m_sandbox w) ev r Hg) | exact Ha | |].
    - by eapply (pinned_in_table (Some r) s2).
    - destruct (Hto s2 io2 Hlk2) as (cl & Hcl & Ho). exists cl. split; [|done].
      simpl. by apply lookup_app_l_Some. }
  assert (Hbelow : ∀ s2 io2, m_streams w !! s2 = Some io2 → upstream io2 ≠ r).
  { intros s2 io2 Hlk2. pose proof (table_ref_below w s2 io2 Hok Hlk2).
    unfold r. lia. }
  assert (Hfinish : ∀ wb,
            m_streams wb = m_streams w →
            (∀ r2, r2 ≠ r → m_heap wb !! r2 = m_heap wa !! r2) →
            ∃ w' out, Worker.unref None r wb = (Returned tt, w', out)
                      ∧ Discipline.table_open w').
  { intros wb Hsb Hheap.
    destruct (Worker.unref None r wb) as [[r3 w3] o3] eqn:Hu.
    destruct (unref_spec None r wb) as (w3' & o3' & Hu' & (Hs3 & _) & _).
    rewrite Hu in Hu'. injection Hu' as -> <- <-.
    exists w3, o3. split; [done|].
    unfold Discipline.table_open. rewrite Hs3, Hsb. intros s2 io2 Hlk2.
    destruct (unref_others _ _ _ _ _ _ Hu) as [Hothers _].
    apply (open_at_heap _ wa); [|by eapply Hopen_a].
    rewrite Hothers by (by eapply Hbelow). apply Hheap. by eapply Hbelow. }
  destruct (result (snd (sb_invoke sb (m_sandbox w) ev r))) as [hd|e0].
  - unfold Worker.bind at 1. unfold Worker.emplace at 1. rewrite Hsa.
    destruct (m_streams w !! s) as [io0|] eqn:Hlk.
    + destruct (Worker.drop_downstream sb (Some r) hd wa) as [[rb wb] ob] eqn:Hd.
      destruct (drop_downstream_spec sb (Some r) hd wa) as (wb' & ob' & Hd' & Hfb).
      rewrite Hd in Hd'. injection Hd' as -> <- <-.
      assert (Hsb : m_streams wb = m_streams w)
        by (destruct Hfb as (Hs & _); by rewrite Hs).
      destruct (Worker.unref None r wb) as [[r3 w3] o3] eqn:Hu.
      destruct (unref_spec None r wb) as (w3' & o3' & Hu' & (Hs3 & _) & _).
      rewrite Hu in Hu'. injection Hu' as -> <- <-.
      eexists _, _. split; [done|].
      unfold Discipline.table_open. rewrite Hs3, Hsb. intros s2 io2 Hlk2.
      destruct (unref_others _ _ _ _ _ _ Hu) as [Hothers _].
      apply (open_at_heap _ wb); [by apply Hothers, (Hbelow s2)|].
      eapply (drop_downstream_gentle (Some r) hd wa);
        [by apply gentle_release_calls | exact Hd | | by eapply Hopen_a].
      eapply (pinned_in_table (Some r) s2). by rewrite Hsa.
    + set (wb := Worker.set_streams _ wa). simpl.
      destruct (Worker.unref None r wb) as [[r3 w3] o3] eqn:Hu.
      destruct (unref_spec None r wb) as (w3' & o3' & Hu' & _).
      rewrite Hu in Hu'. injection Hu' as -> <- <-.
      destruct (unref_others _ _ _ _ _ _ Hu) as [_ Hpinned].
      rewrite Hpinned.
      2:{ apply (pinned_in_table None s (mk_io r hd)). simpl.
          apply lookup_insert_eq. }
      eexists _, _. split; [done|].
      unfold Discipline.table_open. simpl. rewrite Hsa.
      apply map_Forall_insert_2; [by apply (open_at_heap r wa)|].
      intros s2 io2 Hlk2. apply (open_at_heap _ wa); [done|by eapply Hopen_a].
  - destruct Hfresh as (cl & Hcl & Ho).
    rewrite (upstream_error_open _ _ _ _ _ Hcl Ho).
    set (wb := Worker.set_heap _ wa).
    destruct (Hfinish wb) as (w' & o' & Hu & Hto'); [done| |].
    { intros r2 Hne. simpl. by apply list_lookup_insert_ne. }
    rewrite Hu. by eexists _, _.
Qed.

(** X8: with a gentle application, no dispatch ever throws.  In a state
    where the table's pointers are sound and every stored upstream is
    open — the constructed worker is one — any pass of [process] over any
    queue returns, and leaves such a state again: the sessions still in
    the table all have an open upstream. *)
Theorem gentle_application_never_breaks_a_pass io_bulk_size q :
  Discipline.gentle_sandbox sb →
  (∀ (a : App) profile now,
     Worker.refs_ok (Worker.construct a profile now) ∧
     Discipline.table_open (Worker.construct a profile now)) ∧
  ∀ w,
    Worker.refs_ok w → Discipline.table_open w →
    ∃ rest w' out,
      Worker.process sb io_bulk_size q w = (Returned rest, w', out) ∧
      Worker.refs_ok w' ∧ Discipline.table_open w'.
Proof.
  intros Hg. split.
  { intros a p now. split; apply map_Forall_empty. }
  unfold Worker.process. generalize io_bulk_size as n.
  induction q as [|m q' IH]; intros n w Hok Hto.
  - by exists [], w, [].
  - assert (∃ w1 o1, Worker.dispatch sb m w = (Returned tt, w1, o1)
                     ∧ Discipline.table_open w1) as (w1 & o1 & Hd & Hto1).
    { destruct m as [| | |s ev|s d| |s|];
        try (match goal with
             | |- ∃ _ _, Worker.dispatch sb ?m0 w = _ ∧ _ =>
                 destruct (dispatch_other_spec sb m0 w I)
                   as (w2 & o2 & Hd2 & Hs & Hh & _)
             end;
             exists w2, o2; split; [exact Hd2|];
             unfold Discipline.table_open, Worker.open_at; by rewrite Hs, Hh).
      - by apply gentle_invoke.
      - by apply gentle_chunk.
      - by apply gentle_choke. }
    pose proof (dispatch_refs_ok sb _ _ _ _ _ Hok Hd) as Hok1.
    simpl. unfold Worker.bind at 1. rewrite Hd.
    destruct (wrap_int (n - 1) =? 0).
    + eexists _, _, _. split; [reflexivity|]. split; [exact Hok1|exact Hto1].
    + destruct (IH (wrap_int (n - 1)) w1 Hok1 Hto1) as (rest & w' & out & -> & Hok' & Hto').
      by eexists _, _, _.
Qed.

End Gentle.

(** ** Sessions from invoke to choke *)

Section Sessions.

Context {App : Type} (sb : sandbox_t App).
Implicit Types (w : worker_t App) (out : list effect).

(** X9: for a choke whose session id is in the table of a reachable
    state, close() is called on that session's downstream.  If it
    returns, the dispatch returns and the session id is removed from the
    table.  If it faults and the session's upstream is still open at
    that moment, the dispatch returns having sent an error message with
    the invocation-error code and the fault's text and then a choke
    message for that session id, and the session id is removed all the
    same. *)
Theorem choke_ends_the_session h w session_id io :
  Worker.reachable sb h w →
  m_streams w !! session_id = Some io →
  ∃ w1 out_app res w' out,
    Worker.enter None (λ a, ds_close sb a (downstream io)) w
    = (result (snd (ds_close sb (m_sandbox w) (downstream io))), w1, out_app) ∧
    Worker.dispatch sb (rpc.choke session_id) w = (res, w', out) ∧
    match result (snd (ds_close sb (m_sandbox w) (downstream io))) with
    | Returned _ =>
        res = Returned tt ∧
        m_streams w' = delete session_id (m_streams w) ∧
        ∃ out_release,
          out = Logged (DEBUG_received rpc.t_choke) :: out_app ++ out_release
    | Thrown e =>
        Worker.open_at (upstream io) w1 →
        res = Returned tt ∧
        m_streams w' = delete session_id (m_streams w) ∧
        ∃ out_release,
          out = Logged (DEBUG_received rpc.t_choke) :: out_app
                ++ [Sent (rpc.error session_id invocation_error (what_of e));
                    Sent (rpc.choke session_id)]
                ++ out_release
    end.
Proof.
  intros Hreach Hlk.
  pose proof (reachable_refs_ok sb h w Hreach session_id io Hlk) as Hid.
  simpl in Hid.
  unfold Worker.dispatch.
  unfold Worker.bind at 1. unfold Worker.emit at 1.
  unfold Worker.bind at 1. unfold Worker.get at 1.
  rewrite Hlk. unfold Worker.bind at 1. unfold Worker.try_catch.
  destruct (enter_spec None (λ a, ds_close sb a (downstream io)) w)
    as (wa & oa & Ha & Hfa & _).
  rewrite Ha. exists wa, oa.
  destruct (result (snd (ds_close sb (m_sandbox w) (downstream io))))
    as [[]|e].
  - destruct (erase_spec sb session_id io wa) as (wc & oc & He & Hfc).
    rewrite He. eexists _, _, _. split; [done|]. split; [done|].
    split; [done|]. split.
    { destruct Hfa as (Hsa&_), Hfc as (Hsc&_). rewrite Hsc. simpl. by rewrite Hsa. }
    by exists oc.
  - pose proof (frame_heap_id _ _ _ _ Hfa Hid) as Hida.
    destruct (Worker.upstream_call (upstream io) _ wa)
      as [[[[]|e'] wb] ob] eqn:Hc.
    + destruct (erase_spec sb session_id io wb) as (wc & oc & He & Hfc).
      rewrite He.
      eexists _, _, _. split; [done|]. split; [done|].
      intros (cl & Hcl & Hopen).
      rewrite (upstream_error_open _ _ _ _ _ Hcl Hopen) in Hc.
      injection Hc as <- <-.
      rewrite (heap_id_at _ _ _ _ Hida Hcl).
      split; [done|]. split.
      { destruct Hfa as (Hsa&_), Hfc as (Hsc&_). rewrite Hsc. simpl.
        by rewrite Hsa. }
      exists oc. simpl. by rewrite <- app_assoc.
    + apply upstream_call_thrown in Hc as (-> & -> & -> & cl & Hcl & Hclosed).
      eexists _, _, _. split; [done|]. split; [done|].
      intros (cl2 & Hcl2 & Hopen). congruence.
Qed.

(** X10: a successful invoke for a session id that is not in the table
    stores, under that id, the new adapter and the downstream stream the
    sandbox returned, and touches no other entry; if that downstream's
    close() then returns for the session's choke, the table is again
    what it was before the invoke, and a second choke finds nothing and
    changes nothing. *)
Theorem invoke_then_choke_restores_the_table w session_id event hd :
  m_streams w !! session_id = None →
  result (snd (sb_invoke sb (m_sandbox w) event (length (m_heap w))))
  = Returned hd →
  ∃ w1 out1,
    Worker.dispatch sb (rpc.invoke session_id event) w = (Returned tt, w1, out1) ∧
    m_streams w1
    = <[session_id := mk_io (length (m_heap w)) hd]> (m_streams w) ∧
    (result (snd (ds_close sb (m_sandbox w1) hd)) = Returned tt →
     ∃ w2 out2,
       Worker.dispatch sb (rpc.choke session_id) w1 = (Returned tt, w2, out2) ∧
       m_streams w2 = m_streams w ∧
       Worker.dispatch sb (rpc.choke session_id) w2
       = (Returned tt, w2, [Logged (DEBUG_received rpc.t_choke)])).
Proof.
  intros Hnone Hres.
  destruct (dispatch_invoke_spec sb session_id event w)
    as (res & w1 & o1 & Hd & Hspec).
  simpl in Hspec. rewrite Hres in Hspec. destruct Hspec as [-> (Hs1 & _)].
  simpl in Hs1. unfold Worker.emplaced in Hs1. rewrite Hnone in Hs1.
  exists w1, o1. split; [done|]. split; [done|].
  intros Hclose.
  destruct (dispatch_choke_spec sb session_id w1) as (res2 & w2 & o2 & Hd2 & Hspec2).
  rewrite Hs1, lookup_insert_eq in Hspec2. simpl in Hspec2.
  destruct Hspec2 as [[-> (Hs2 & _)] | (_ & _ & e & He)]; [|congruence].
  simpl in Hs2. rewrite Hs1 in Hs2.
  assert (Hback : m_streams w2 = m_streams w).
  { rewrite Hs2. apply map_eq. intros i.
    destruct (decide (i = session_id)) as [->|Hne].
    - by rewrite lookup_delete_eq, Hnone.
    - by rewrite lookup_delete_ne, lookup_insert_ne. }
  exists w2, o2. split; [done|]. split; [done|].
  destruct (dispatch_choke_spec sb session_id w2) as (res3 & w3 & o3 & Hd3 & Hspec3).
  rewrite Hback, Hnone in Hspec3. by destruct Hspec3 as (-> & -> & ->).
Qed.

End Sessions.

(** ** A bulk size that is not positive *)

Section NoBound.

Context {App : Type} (sb : sandbox_t App).
Implicit Types (w : worker_t App).

Lemma drain_unbounded q : ∀ n w,
  n ≤ 0 →
  - 2 ^ 31 ≤ n - Z.of_nat (length q) →
  Worker.drain sb q n w
  = Worker.bind (Worker.dispatch_all sb q) (λ _, Worker.ret []) w.
Proof.
  induction q as [|m q IH]; intros n w Hn Hlen; [done|].
  simpl length in Hlen. simpl.
  assert (wrap_int (n - 1) = n - 1) as ->.
  { unfold wrap_int. rewrite Z.mod_small; lia. }
  destruct (Z.eqb_spec (n - 1) 0) as [?|_]; [lia|].
  unfold Worker.bind.
  destruct (Worker.dispatch sb m w) as [[[[]|e] w1] o1]; [|done].
  rewrite IH by lia. unfold Worker.bind.
  destruct (Worker.dispatch_all sb q w1) as [[[[]|e] w2] o2]; [|done].
  simpl. by rewrite !app_nil_r.
Qed.

(** X11: the counter of [process] is decremented before it is tested, so
    a bulk size of zero or below is no bound at all: as long as the
    counter cannot underflow, the pass dispatches every queued message,
    in order, returns with an empty channel and never feeds the loop. *)
Theorem nonpositive_bulk_size_is_no_bound io_bulk_size q w :
  - 2 ^ 31 ≤ io_bulk_size ≤ 0 →
  Z.of_nat (length q) ≤ io_bulk_size + 2 ^ 31 →
  Worker.process sb io_bulk_size q w
  = Worker.bind (Worker.dispatch_all sb q) (λ _, Worker.ret []) w.
Proof.
  intros Hb Hlen. unfold Worker.process. apply drain_unbounded; lia.
Qed.

End NoBound.

(** ** The extra properties on concrete runs *)

Lemma pass_moves_disown_timer_only_by_heartbeats_witness :
  0 < 2 < 2 ^ 31 ∧
  let r := Worker.process Script.sandbox 2
             [rpc.chunk 9%N "x"; rpc.heartbeat; rpc.heartbeat]
             (Worker.set_loop (λ l, mk_loop (5 # 1) (unlooped l) (fed l))
                Script.fresh) in
  m_disown_timer (snd (fst r)) = mk_timer true (Qplus (5 # 1) (30 # 1)).
Proof.
  split; [lia|]. intros r.
  destruct (pass_moves_disown_timer_only_by_heartbeats Script.sandbox 2
              [rpc.chunk 9%N "x"; rpc.heartbeat; rpc.heartbeat]
              (Worker.set_loop (λ l, mk_loop (5 # 1) (unlooped l) (fed l))
                 Script.fresh)
              (fst (fst r)) (snd (fst r)) (snd r) ltac:(lia) eq_refl)
    as (_ & _ & Hhb & _).
  apply Hhb.
  - apply list_elem_of_In. simpl. tauto.
  - by eexists.
Defined.

Lemma pass_feeds_once_and_stops_only_on_terminate_witness :
  0 < 2 < 2 ^ 31 ∧
  let r := Worker.process Script.sandbox 2
             [rpc.terminate; rpc.heartbeat; rpc.heartbeat] Script.fresh in
  fed (m_loop (snd (fst r))) = 1%nat ∧
  unlooped (m_loop (snd (fst r))) = true.
Proof.
  split; [lia|]. intros r.
  destruct (pass_feeds_once_and_stops_only_on_terminate Script.sandbox 2
              [rpc.terminate; rpc.heartbeat; rpc.heartbeat] Script.fresh
              (fst (fst r)) (snd (fst r)) (snd r) ltac:(lia) eq_refl)
    as (_ & Hfed & _ & _ & Hstop).
  split; [exact Hfed|].
  apply Hstop.
  - apply list_elem_of_In. simpl. tauto.
  - by eexists.
Defined.

Lemma only_closed_adapter_exception_leaves_dispatch_witness :
  let w := Script.after [rpc.invoke 3%N "early"] in
  let r := Worker.dispatch Script.sandbox (rpc.choke 3%N) w in
  fst (fst r) = Thrown stream_closed ∧
  m_streams (snd (fst r)) = m_streams w.
Proof.
  intros w r. split; [reflexivity|].
  apply (only_closed_adapter_exception_leaves_dispatch Script.sandbox
           (rpc.choke 3%N) w stream_closed (snd (fst r)) (snd r) eq_refl).
Defined.

Lemma table_entries_point_to_their_own_adapters_witness :
  Worker.reachable Script.sandbox [Worker.started 1%N]
    (Script.after [rpc.invoke 1%N "ping"]) ∧
  ∃ cl, m_heap (Script.after [rpc.invoke 1%N "ping"]) !! 0%nat = Some cl
        ∧ m_id (obj cl) = 1%N.
Proof.
  split; [apply reach_after_ping|].
  destruct (table_entries_point_to_their_own_adapters Script.sandbox
              [Worker.started 1%N] (Script.after [rpc.invoke 1%N "ping"])
              (reach_after_ping 1%N)) as [Hown _].
  apply (Hown 1%N (mk_io 0 0)). reflexivity.
Defined.

Lemma dispatch_does_not_look_at_the_loop_witness :
  1 < 3 < 2 ^ 31 ∧
  sent_messages
    (snd (Worker.process Script.sandbox 3
            [rpc.terminate; rpc.invoke 2%N "bad"] Script.fresh))
  = [rpc.suicide rpc.normal "per request";
     rpc.error 2%N invocation_error "no such event"; rpc.choke 2%N].
Proof.
  split; [lia|].
  destruct (dispatch_does_not_look_at_the_loop Script.sandbox 3 false 0%nat
              [rpc.invoke 2%N "bad"] Script.fresh) as (_ & _ & Hterm).
  rewrite (Hterm ltac:(lia)). reflexivity.
Defined.

Lemma on_events_dispatch_the_queue_in_order_witness :
  0 < 2 < 2 ^ 31 ∧
  fst (fst (Loop.on_events Script.sandbox 2 2
              (Loop.mk_side false
                 [rpc.heartbeat; rpc.chunk 9%N "x"; rpc.heartbeat])
              Script.fresh))
  = Returned (Loop.mk_side true []).
Proof.
  split; [lia|].
  destruct (on_events_dispatch_the_queue_in_order Script.sandbox 2 2%nat
              ltac:(lia) false
              [rpc.heartbeat; rpc.chunk 9%N "x"; rpc.heartbeat] Script.fresh)
    as (j & _ & ->).
  reflexivity.
Defined.

Lemma careful_is_gentle : Discipline.gentle_sandbox Discipline.careful.
Proof.
  intros []. repeat split.
  - intros event r. unfold Discipline.careful, Discipline.careful_invoke. simpl.
    destruct (String.eqb event "ping"); [constructor|].
    destruct (String.eqb event "stream"); [|constructor].
    by repeat constructor.
  - intros h data. simpl. unfold Script.push.
    destruct (String.eqb data "boom"); constructor.
  - intros h. simpl. unfold Script.close. destruct (Nat.eqb h 1); constructor.
  - intros h. constructor.
Qed.

Lemma gentle_application_never_breaks_a_pass_witness :
  Discipline.gentle_sandbox Discipline.careful ∧
  ∃ rest w' out,
    Worker.process Discipline.careful 100
      [rpc.invoke 1%N "stream"; rpc.chunk 1%N "boom"; rpc.choke 1%N;
       rpc.invoke 2%N "stream"; rpc.choke 2%N]
      Script.fresh
    = (Returned rest, w', out) ∧
    Worker.refs_ok w' ∧ Discipline.table_open w'.
Proof.
  split; [apply careful_is_gentle|].
  destruct (gentle_application_never_breaks_a_pass Discipline.careful 100
              [rpc.invoke 1%N "stream"; rpc.chunk 1%N "boom"; rpc.choke 1%N;
               rpc.invoke 2%N "stream"; rpc.choke 2%N]
              careful_is_gentle) as [Hinit Hpass].
  apply (Hpass Script.fresh); apply (Hinit tt (mk_profile (30 # 1)) (0 # 1)).
Defined.

Lemma choke_ends_the_session_witness :
  Worker.reachable Script.sandbox [Worker.started 3%N]
    (Script.after [rpc.invoke 3%N "ping"]) ∧
  m_streams (Script.after [rpc.invoke 3%N "ping"]) !! 3%N = Some (mk_io 0 0) ∧
  ∃ w' out,
    Worker.dispatch Script.sandbox (rpc.choke 3%N)
      (Script.after [rpc.invoke 3%N "ping"])
    = (Returned tt, w', out) ∧
    m_streams w' !! 3%N = None.
Proof.
  split; [apply reach_after_ping|]. split; [reflexivity|].
  destruct (choke_ends_the_session Script.sandbox [Worker.started 3%N]
              (Script.after [rpc.invoke 3%N "ping"]) 3%N (mk_io 0 0)
              (reach_after_ping 3%N) eq_refl)
    as (w1 & oa & res & w' & out & _ & Hd & Hspec).
  destruct Hspec as (-> & Hs & _).
  exists w', out. split; [exact Hd|]. rewrite Hs. apply lookup_delete_eq.
Defined.

Lemma invoke_then_choke_restores_the_table_witness :
  m_streams Script.fresh !! 7%N = None ∧
  result (snd (sb_invoke Script.sandbox tt "ping" 0%nat)) = Returned 0%nat ∧
  ∃ w1 out1,
    Worker.dispatch Script.sandbox (rpc.invoke 7%N "ping") Script.fresh
    = (Returned tt, w1, out1) ∧
    m_streams w1 = <[7%N := mk_io 0 0]> (m_streams Script.fresh).
Proof.
  split; [reflexivity|]. split; [reflexivity|].
  destruct (invoke_then_choke_restores_the_table Script.sandbox Script.fresh
              7%N "ping" 0%nat eq_refl eq_refl) as (w1 & o1 & Hd & Hs & _).
  by exists w1, o1.
Defined.

Lemma nonpositive_bulk_size_is_no_bound_witness :
  - 2 ^ 31 ≤ 0 ≤ 0 ∧
  Z.of_nat (length [rpc.heartbeat; rpc.heartbeat; rpc.heartbeat]) ≤ 0 + 2 ^ 31 ∧
  Worker.process Script.sandbox 0
    [rpc.heartbeat; rpc.heartbeat; rpc.heartbeat] Script.fresh
  = Worker.bind
      (Worker.dispatch_all Script.sandbox
         [rpc.heartbeat; rpc.heartbeat; rpc.heartbeat])
      (λ _, Worker.ret []) Script.fresh.
Proof.
  split; [lia|]. split; [simpl; lia|].
  apply (nonpositive_bulk_size_is_no_bound Script.sandbox 0
           [rpc.heartbeat; rpc.heartbeat; rpc.heartbeat] Script.fresh);
    simpl; lia.
Defined.

(** ** Who may write what *)

Section WhoWrites.

Context {App : Type} (sb : sandbox_t App).
Implicit Types (w : worker_t App) (out : list effect).

Lemma by_adapters_more ids ids' e :
  Written.by_adapters ids e → Written.by_adapters (ids ++ ids') e.
Proof.
  destruct e as [[]|]; simpl; try done; intros ?; apply elem_of_app; by left.
Qed.

Lemma id_in_heap w r cl :
  m_heap w !! r = Some cl → m_id (obj cl) ∈ Worker.heap_ids w.
Proof.
  intros Hr. unfold Worker.heap_ids.
  apply list_elem_of_fmap. exists cl. split; [done|].
  by eapply list_elem_of_lookup_2.
Qed.

Lemma perform_out ids u c u' o :
  m_id u ∈ ids →
  Upstream.perform u c = Returned (u', o) →
  Forall (Written.by_adapters ids) (Sent <$> o).
Proof.
  intros Hin. destruct u as [id []], c; simpl; intros [= <- <-];
    by repeat constructor.
Qed.

Lemma upstream_call_out r c w res w' out :
  Worker.upstream_call r c w = (res, w', out) →
  Forall (Written.by_adapters (Worker.heap_ids w)) out.
Proof.
  unfold Worker.upstream_call.
  destruct (m_heap w !! r) as [cl|] eqn:Hr; [|by intros [= _ _ <-]].
  destruct (Upstream.perform (obj cl) c) as [[u o]|e] eqn:Hp;
    intros [= _ _ <-]; [|done].
  eapply perform_out; [|exact Hp]. by eapply id_in_heap.
Qed.

Lemma unref_out local r w res w' out :
  Worker.unref local r w = (res, w', out) →
  Forall (Written.by_adapters (Worker.heap_ids w)) out.
Proof.
  unfold Worker.unref.
  destruct (m_heap w !! r) as [cl|] eqn:Hr; [|by intros [= _ _ <-]].
  destruct (held cl || _); [by intros [= _ _ <-]|].
  pose proof (id_in_heap w r cl Hr) as Hin.
  destruct (obj cl) as [id []]; simpl; intros [= _ _ <-]; by repeat constructor.
Qed.

Lemma app_step_out local op w res w' out :
  Worker.app_step local op w = (res, w', out) →
  Forall (Written.by_adapters (Worker.heap_ids w)) out.
Proof.
  destruct op as [r c|r]; simpl.
  - destruct (m_heap w !! r) as [cl|]; [|by intros [= _ _ <-]].
    destruct (held cl); [|by intros [= _ _ <-]].
    destruct (Worker.upstream_call r c w) as [[[[]|e] w1] o1] eqn:Hc;
      intros [= _ _ <-]; by eapply upstream_call_out.
  - destruct (m_heap w !! r) as [cl|] eqn:Hr; [|by intros [= _ _ <-]].
    destruct (held cl); [|by intros [= _ _ <-]].
    intros [([] & w1 & o1 & o2 & Hm & Hu & ->) | (e & [=] & _)]%bind_inv.
    injection Hm as <- <-. simpl.
    apply unref_out in Hu.
    destruct (frame_set_heap_insert w r cl (mk_cell (obj cl) false) Hr eq_refl)
      as (_&_&_&_&Hi).
    by rewrite Hi in Hu.
Qed.

Lemma app_steps_out local ops : ∀ w res w' out,
  Worker.app_steps local ops w = (res, w', out) →
  Forall (Written.by_adapters (Worker.heap_ids w)) out.
Proof.
  induction ops as [|op ops IH]; intros w res w' out; [by intros [= _ _ <-]|].
  simpl.
  intros [([] & w1 & o1 & o2 & H1 & H2 & ->) | (e & H1 & _)]%bind_inv.
  - apply Forall_app. split; [by eapply app_step_out|].
    destruct (app_step_spec local op w) as (w1' & o1' & H1' & (_&_&_&_&Hi) & _).
    rewrite H1' in H1. injection H1 as -> _.
    rewrite <- Hi. by eapply IH.
  - by eapply app_step_out.
Qed.

Lemma enter_out {X} local (f : App → App * reply X) w res w' out :
  Worker.enter local f w = (res, w', out) →
  Forall (Written.by_adapters (Worker.heap_ids w)) out.
Proof.
  unfold Worker.enter. destruct (f (m_sandbox w)) as [a' rep].
  intros [([] & w1 & o1 & o2 & H1 & H2 & ->) | (e & H1 & _)]%bind_inv.
  - apply Forall_app. split.
    + by apply (app_steps_out local (calls rep) (Worker.set_sandbox a' w)) in H1.
    + destruct (result rep); by injection H2 as _ _ <-.
  - by apply (app_steps_out local (calls rep) (Worker.set_sandbox a' w)) in H1.
Qed.

Lemma drop_downstream_out local h w res w' out :
  Worker.drop_downstream sb local h w = (res, w', out) →
  Forall (Written.by_adapters (Worker.heap_ids w)) out.
Proof.
  unfold Worker.drop_downstream.
  destruct (ds_release sb (m_sandbox w) h) as [a' ops]. intros H.
  by apply (app_steps_out local ops (Worker.set_sandbox a' w)) in H.
Qed.

Lemma erase_out s io w res w' out :
  Worker.erase sb s io w = (res, w', out) →
  Forall (Written.by_adapters (Worker.heap_ids w)) out.
Proof.
  unfold Worker.erase.
  intros [([] & w1 & o1 & o2 & H1 & H2 & ->) | (e & [=] & _)]%bind_inv.
  injection H1 as <- <-. simpl.
  apply bind_inv in H2 as [([] & w2 & o3 & o4 & H3 & H4 & ->) | (e & H3 & _)].
  - apply Forall_app. split.
    + by apply drop_downstream_out in H3.
    + destruct (drop_downstream_spec sb (Some (upstream io)) (downstream io)
                  (Worker.set_streams (delete s) w))
        as (w2' & o3' & H3' & (_&_&_&_&Hi)).
      rewrite H3' in H3. injection H3 as -> _.
      apply unref_out in H4. by rewrite Hi in H4.
  - by apply drop_downstream_out in H3.
Qed.

Lemma invoke_try_out s ev r w res w' out :
  Worker.invoke_try sb s ev r w = (res, w', out) →
  Forall (Written.by_adapters (Worker.heap_ids w)) out.
Proof.
  unfold Worker.invoke_try.
  intros [(x & Hb & _) | (e & w1 & o1 & o2 & Hb & Hh & ->)]%try_catch_inv.
  - apply bind_inv in Hb as [(h & wa & oa & ob & He & Hk & ->) | (e & He & _)];
      [|by eapply enter_out].
    apply Forall_app. split; [by eapply enter_out|].
    destruct (enter_spec (Some r) (λ a, sb_invoke sb a ev r) w)
      as (wa' & oa' & He' & (_&_&_&_&Hi) & _).
    rewrite He' in He. injection He as _ -> _. rewrite <- Hi.
    apply bind_inv in Hk as [(st & wb & oc & od & Hem & Hk & ->) | (e & Hem & _)].
    + unfold Worker.emplace in Hem.
      destruct (m_streams wa !! s); injection Hem as <- <- <-; simpl.
      * by eapply drop_downstream_out.
      * by injection Hk as _ _ <-.
    + unfold Worker.emplace in Hem. by destruct (m_streams wa !! s).
  - assert (Forall (Written.by_adapters (Worker.heap_ids w)) o1
            ∧ Worker.heap_ids w1 = Worker.heap_ids w) as [Ho1 Hi1].
    { apply bind_inv in Hb as [(h & wa & oa & ob & He & Hk & ->) | (e' & He & _)].
      - destruct (enter_spec (Some r) (λ a, sb_invoke sb a ev r) w)
          as (wa' & oa' & He' & (_&_&_&_&Hi) & _).
        rewrite He' in He. injection He as _ -> _.
        apply bind_inv in Hk as [(st & wb & oc & od & Hem & Hk & ->) | (e' & Hem & _)].
        + unfold Worker.emplace in Hem.
          destruct (m_streams wa !! s); injection Hem as <- <- <-.
          * destruct (drop_downstream_spec sb (Some r) h wa) as (? & ? & Hd & _).
            rewrite Hd in Hk. discriminate Hk.
          * discriminate Hk.
        + unfold Worker.emplace in Hem. by destruct (m_streams wa !! s).
      - split; [by eapply enter_out|].
        destruct (enter_spec (Some r) (λ a, sb_invoke sb a ev r) w)
          as (wa' & oa' & He' & (_&_&_&_&Hi) & _).
        rewrite He' in He. by injection He as _ -> _. }
    apply Forall_app. split; [done|].
    apply upstream_call_out in Hh. by rewrite Hi1 in Hh.
Qed.

(** What one dispatch writes, and the adapters it makes. *)
Lemma dispatch_out m w res w' out :
  Worker.dispatch sb m w = (res, w', out) →
  Worker.heap_ids w'
  = Worker.heap_ids w
    ++ match Written.invoked m with Some s => [s] | None => [] end ∧
  Forall (λ e, Written.by_adapters (Worker.heap_ids w') e
               ∨ (m = rpc.terminate
                  ∧ e = Sent (rpc.suicide rpc.normal "per request"))) out.
Proof.
  intros Hd. destruct m as [| | |s ev|s d| |s|];
    try (injection Hd as _ <- <-; simpl; rewrite app_nil_r; split; [done|];
         repeat constructor; by right).
  - (* invoke *)
    assert (Hids : Worker.heap_ids w' = Worker.heap_ids w ++ [s]).
    { destruct (dispatch_invoke_spec sb s ev w) as (res2 & w2 & o2 & Hd2 & Hspec).
      rewrite Hd2 in Hd. assert (w2 = w') as -> by congruence. simpl in Hspec.
      destruct (result _).
      - destruct Hspec as [_ (_&_&_&_&Hi)]. rewrite Hi.
        unfold Worker.heap_ids. simpl. by rewrite fmap_app.
      - destruct Hspec as (_&_&_&_&Hi). rewrite Hi.
        unfold Worker.heap_ids. simpl. by rewrite fmap_app. }
    split; [done|]. rewrite Hids.
    unfold Worker.dispatch in Hd.
    apply bind_inv in Hd as [([] & w1 & o1 & o2 & He & Hk & ->) | (e & [=] & _)].
    injection He as <- <-.
    apply bind_inv in Hk as [(r & w0 & o3 & o4 & Hm & Hk & ->) | (e & [=] & _)].
    injection Hm as <- <- <-.
    set (w0 := Worker.set_heap _ w) in *.
    assert (Hi0 : Worker.heap_ids w0 = Worker.heap_ids w ++ [s]).
    { unfold Worker.heap_ids. simpl. by rewrite fmap_app. }
    rewrite <- Hi0.
    constructor; [by left|]. simpl.
    eapply Forall_impl; [|intros e He; left; exact He].
    apply bind_inv in Hk as [([] & w2 & o5 & o6 & Ht & Hu & ->) | (e & Ht & _)];
      [|by eapply invoke_try_out].
    apply Forall_app. split; [by eapply invoke_try_out|].
    apply unref_out in Hu.
    destruct (invoke_try_spec sb s ev (length (m_heap w)) w0)
      as (res2 & w2' & o2' & Ht' & Hspec).
    rewrite Ht' in Ht. injection Ht as -> -> _.
    assert (Worker.heap_ids w2 = Worker.heap_ids w0) as <-; [|done].
    destruct (result _); [by destruct Hspec as [_ (_&_&_&_&?)]|].
    by destruct Hspec as (_&_&_&_&?).
  - (* chunk *)
    assert (Hids : Worker.heap_ids w' = Worker.heap_ids w).
    { destruct (dispatch_chunk_spec sb s d w) as (res2 & w2 & o2 & Hd2 & Hspec).
      rewrite Hd2 in Hd. assert (w2 = w') as -> by congruence.
      destruct (m_streams w !! s).
      - destruct (result _).
        + by destruct Hspec as [_ (_&_&_&_&?)].
        + by destruct Hspec as [[_ (_&_&_&_&?)] | [_ (_&_&_&_&?)]].
      - by destruct Hspec as (_ & -> & _). }
    simpl. rewrite app_nil_r. split; [done|]. rewrite Hids.
    eapply Forall_impl; [|intros e He; left; exact He].
    unfold Worker.dispatch in Hd.
    apply bind_inv in Hd as [([] & w1 & o1 & o2 & He & Hk & ->) | (e & [=] & _)].
    injection He as <- <-. constructor; [done|].
    apply bind_inv in Hk as [(wg & w1 & o3 & o4 & Hg & Hk & ->) | (e & [=] & _)].
    injection Hg as <- <- <-. simpl.
    destruct (m_streams w !! s) as [io|]; [|by injection Hk as _ _ <-].
    apply try_catch_inv in Hk
      as [(x & Hb & _) | (e & w1 & o5 & o6 & Hb & Hh & ->)]; [by eapply enter_out|].
    apply Forall_app. split; [by eapply enter_out|].
    destruct (enter_spec None (λ a, ds_push sb a (downstream io) d) w)
      as (wa & oa & Ha & (_&_&_&_&Hia) & _).
    rewrite Ha in Hb. injection Hb as _ <- _. rewrite <- Hia.
    apply bind_inv in Hh as [([] & w2 & o7 & o8 & Hc & He & ->) | (e' & Hc & _)];
      [|by eapply upstream_call_out].
    apply Forall_app. split; [by eapply upstream_call_out|].
    apply upstream_call_frame in Hc as (_&_&_&_&Hi2). rewrite <- Hi2.
    by eapply erase_out.
  - (* choke *)
    assert (Hids : Worker.heap_ids w' = Worker.heap_ids w).
    { destruct (dispatch_choke_spec sb s w) as (res2 & w2 & o2 & Hd2 & Hspec).
      rewrite Hd2 in Hd. assert (w2 = w') as -> by congruence.
      destruct (m_streams w !! s).
      - by destruct Hspec as [[_ (_&_&_&_&?)] | [_ [(_&_&_&_&?) _]]].
      - by destruct Hspec as (_ & -> & _). }
    simpl. rewrite app_nil_r. split; [done|]. rewrite Hids.
    eapply Forall_impl; [|intros e He; left; exact He].
    unfold Worker.dispatch in Hd.
    apply bind_inv in Hd as [([] & w1 & o1 & o2 & He & Hk & ->) | (e & [=] & _)].
    injection He as <- <-. constructor; [done|].
    apply bind_inv in Hk as [(wg & w1 & o3 & o4 & Hg & Hk & ->) | (e & [=] & _)].
    injection Hg as <- <- <-. simpl.
    destruct (m_streams w !! s) as [io|]; [|by injection Hk as _ _ <-].
    assert (Htry : ∀ rt wt ot,
              Worker.try_catch
                (Worker.enter None (λ a, ds_close sb a (downstream io)))
                (λ e, Worker.upstream_call (upstream io)
                        (Upstream.c_error invocation_error (what_of e))) w
              = (rt, wt, ot) →
              Forall (Written.by_adapters (Worker.heap_ids w)) ot
              ∧ Worker.heap_ids wt = Worker.heap_ids w).
    { intros rt wt ot Ht.
      destruct (enter_spec None (λ a, ds_close sb a (downstream io)) w)
        as (wa & oa & Ha & (_&_&_&_&Hia) & _).
      apply try_catch_inv in Ht
        as [(x & Hb & _) | (e & w1 & o5 & o6 & Hb & Hh & ->)].
      - split; [by eapply enter_out|]. rewrite Ha in Hb. by injection Hb as _ <- _.
      - rewrite Ha in Hb. injection Hb as _ <- <-. split.
        + apply Forall_app. split.
          * by eapply (enter_out None _ w).
          * rewrite <- Hia. by eapply upstream_call_out.
        + apply upstream_call_frame in Hh as (_&_&_&_&Hi2). by rewrite Hi2. }
    apply bind_inv in Hk as [([] & w2 & o5 & o6 & Ht & He & ->) | (e & Ht & _)].
    + destruct (Htry _ _ _ Ht) as [Ho Hi]. apply Forall_app. split; [done|].
      rewrite <- Hi. by eapply erase_out.
    + by destruct (Htry _ _ _ Ht).
Qed.

Lemma dispatch_all_out ms : ∀ w res w' out,
  Worker.dispatch_all sb ms w = (res, w', out) →
  (∃ dispatched,
     dispatched `prefix_of` ms ∧
     Worker.heap_ids w' = Worker.heap_ids w ++ omap Written.invoked dispatched) ∧
  Forall (λ e, Written.by_adapters (Worker.heap_ids w') e
               ∨ (rpc.terminate ∈ ms
                  ∧ e = Sent (rpc.suicide rpc.normal "per request"))) out.
Proof.
  induction ms as [|m ms IH]; intros w res w' out Hd.
  - injection Hd as _ <- <-. split; [|done].
    exists []. split; [done|]. simpl. by rewrite app_nil_r.
  - simpl in Hd.
    apply bind_inv in Hd as [([] & w1 & o1 & o2 & Hm & Hk & ->) | (e & Hm & ->)].
    + destruct (dispatch_out _ _ _ _ _ Hm) as [Hi1 Ho1].
      destruct (IH _ _ _ _ Hk) as [(dn & Hpre & Hi) Ho2].
      split.
      * exists (m :: dn). split; [by apply prefix_cons|].
        rewrite Hi, Hi1, <- app_assoc. f_equal. simpl.
        by destruct (Written.invoked m).
      * apply Forall_app. split.
        -- eapply Forall_impl; [exact Ho1|]. intros e [He|[-> ->]].
           ++ left. rewrite Hi. by apply by_adapters_more.
           ++ right. split; [by left|done].
        -- eapply Forall_impl; [exact Ho2|]. intros e [He|[Hin ->]]; [by left|].
           right. split; [by right|done].
    + destruct (dispatch_out _ _ _ _ _ Hm) as [Hi1 Ho1].
      split.
      * exists [m]. split; [by apply prefix_cons, prefix_nil|].
        rewrite Hi1. simpl. by destruct (Written.invoked m).
      * eapply Forall_impl; [exact Ho1|]. intros e0 [He|[-> ->]]; [by left|].
        right. split; [by left|done].
Qed.

(** X12: a pass of [process] writes on the channel only for sessions the
    orchestrator has opened: every chunk, error or choke message sent
    during the pass, by the application or by the dispatcher, carries the
    session id of an adapter that existed before the pass or of an
    invoke message of the dispatched batch; the only other message a
    pass can send is the suicide message, "normal" and "per request",
    and only if the batch holds a terminate.  The constructed worker has
    no adapter. *)
Theorem pass_writes_only_for_opened_sessions io_bulk_size q w res w' out :
  0 < io_bulk_size < 2 ^ 31 →
  Worker.process sb io_bulk_size q w = (res, w', out) →
  let batch := take (Z.to_nat io_bulk_size) q in
  Forall
    (λ e, match e with
          | Sent (rpc.chunk s _) | Sent (rpc.error s _ _) | Sent (rpc.choke s) =>
              s ∈ Worker.heap_ids w ∨ ∃ event, rpc.invoke s event ∈ batch
          | Sent (rpc.suicide reason text) =>
              reason = rpc.normal ∧ text = "per request"%string
              ∧ rpc.terminate ∈ batch
          | Sent _ => False
          | Logged _ => True
          end) out
  ∧ ∀ (a : App) profile now,
      Worker.heap_ids (Worker.construct a profile now) = [].
Proof.
  intros Hb Hp batch. split; [|done].
  destruct (process_cases sb io_bulk_size q w res w' out Hb Hp)
    as (r1 & w1 & Hd & _).
  fold batch in Hd.
  destruct (dispatch_all_out _ _ _ _ _ Hd) as [(dn & Hpre & Hi) Ho].
  eapply Forall_impl; [exact Ho|]. intros e [He|[Hin ->]]; [|done].
  rewrite Hi in He.
  assert (Hfrom : ∀ s, s ∈ Worker.heap_ids w ++ omap Written.invoked dn →
                       s ∈ Worker.heap_ids w ∨ ∃ event, rpc.invoke s event ∈ batch).
  { intros s [?|Hin]%elem_of_app; [by left|]. right.
    apply list_elem_of_omap in Hin as (m & Hm & Hinv).
    destruct m; try discriminate Hinv. injection Hinv as ->.
    eexists. eapply elem_of_prefix; [exact Hm|exact Hpre]. }
  destruct e as [[]|]; simpl in He; try done; by apply Hfrom.
Qed.

End WhoWrites.

Lemma pass_writes_only_for_opened_sessions_witness :
  0 < 4 < 2 ^ 31 ∧
  ∃ res w' out,
    Worker.process Script.sandbox 4
      [rpc.invoke 7%N "ping"; rpc.chunk 7%N "x"; rpc.terminate; rpc.choke 7%N]
      Script.fresh = (res, w', out) ∧
    Forall
      (λ e, match e with
            | Sent (rpc.chunk s _) | Sent (rpc.error s _ _) | Sent (rpc.choke s) =>
                s ∈ Worker.heap_ids Script.fresh
                ∨ ∃ event,
                    rpc.invoke s event
                    ∈ take (Z.to_nat 4)
                        [rpc.invoke 7%N "ping"; rpc.chunk 7%N "x";
                         rpc.terminate; rpc.choke 7%N]
            | Sent (rpc.suicide reason text) =>
                reason = rpc.normal ∧ text = "per request"%string
                ∧ rpc.terminate
                  ∈ take (Z.to_nat 4)
                      [rpc.invoke 7%N "ping"; rpc.chunk 7%N "x";
                       rpc.terminate; rpc.choke 7%N]
            | Sent _ => False
            | Logged _ => True
            end) out.
Proof.
  split; [lia|].
  destruct (Worker.process Script.sandbox 4
              [rpc.invoke 7%N "ping"; rpc.chunk 7%N "x"; rpc.terminate;
               rpc.choke 7%N] Script.fresh) as [[res w'] out] eqn:Hp.
  exists res, w', out. split; [reflexivity|].
  exact (proj1 (pass_writes_only_for_opened_sessions Script.sandbox 4 _ _ _ _ _
                  ltac:(lia) Hp)).
Defined.

(** ** What a pass receives *)

Section Received.

Context {App : Type} (sb : sandbox_t App).
Implicit Types (w : worker_t App) (out : list effect).

Lemma received_app o1 o2 :
  Written.received (o1 ++ o2) = Written.received o1 ++ Written.received o2.
Proof. apply omap_app. Qed.

Lemma received_sent (ms : list rpc.message) : Written.received (Sent <$> ms) = [].
Proof. by induction ms. Qed.

(** Adapters and the application write messages, no debug line. *)
Lemma upstream_call_quiet r c w res w' out :
  Worker.upstream_call r c w = (res, w', out) → Written.received out = [].
Proof.
  unfold Worker.upstream_call.
  destruct (m_heap w !! r) as [cl|]; [|by intros [= _ _ <-]].
  destruct (Upstream.perform (obj cl) c) as [[u o]|e]; intros [= _ _ <-];
    [apply received_sent | done].
Qed.

Lemma unref_quiet local r w res w' out :
  Worker.unref local r w = (res, w', out) → Written.received out = [].
Proof.
  unfold Worker.unref.
  destruct (m_heap w !! r) as [cl|]; [|by intros [= _ _ <-]].
  destruct (held cl || _); [by intros [= _ _ <-]|].
  destruct (Upstream.dtor (obj cl)) as [u o]. intros [= _ _ <-].
  apply received_sent.
Qed.

Lemma app_step_quiet local op w res w' out :
  Worker.app_step local op w = (res, w', out) → Written.received out = [].
Proof.
  destruct op as [r c|r]; simpl.
  - destruct (m_heap w !! r) as [cl|]; [|by intros [= _ _ <-]].
    destruct (held cl); [|by intros [= _ _ <-]].
    destruct (Worker.upstream_call r c w) as [[[[]|e] w1] o1] eqn:Hc;
      intros [= _ _ <-]; by eapply upstream_call_quiet.
  - destruct (m_heap w !! r) as [cl|]; [|by intros [= _ _ <-]].
    destruct (held cl); [|by intros [= _ _ <-]].
    intros [([] & w1 & o1 & o2 & Hm & Hu & ->) | (e & [=] & _)]%bind_inv.
    injection Hm as <- <-. simpl. by eapply unref_quiet.
Qed.

Lemma app_steps_quiet local ops : ∀ w res w' out,
  Worker.app_steps local ops w = (res, w', out) → Written.received out = [].
Proof.
  induction ops as [|op ops IH]; intros w res w' out; [by intros [= _ _ <-]|].
  simpl.
  intros [([] & w1 & o1 & o2 & H1 & H2 & ->) | (e & H1 & _)]%bind_inv.
  - rewrite received_app, (app_step_quiet _ _ _ _ _ _ H1). by eapply IH.
  - by eapply app_step_quiet.
Qed.

Lemma enter_quiet {X} local (f : App → App * reply X) w res w' out :
  Worker.enter local f w = (res, w', out) → Written.received out = [].
Proof.
  unfold Worker.enter. destruct (f (m_sandbox w)) as [a' rep].
  intros [([] & w1 & o1 & o2 & H1 & H2 & ->) | (e & H1 & _)]%bind_inv.
  - rewrite received_app, (app_steps_quiet _ _ _ _ _ _ H1).
    destruct (result rep); by injection H2 as _ _ <-.
  - by eapply app_steps_quiet.
Qed.

Lemma drop_downstream_quiet local h w res w' out :
  Worker.drop_downstream sb local h w = (res, w', out) →
  Written.received out = [].
Proof.
  unfold Worker.drop_downstream.
  destruct (ds_release sb (m_sandbox w) h) as [a' ops].
  apply app_steps_quiet.
Qed.

Lemma erase_quiet s io w res w' out :
  Worker.erase sb s io w = (res, w', out) → Written.received out = [].
Proof.
  unfold Worker.erase.
  intros [([] & w1 & o1 & o2 & H1 & H2 & ->) | (e & [=] & _)]%bind_inv.
  injection H1 as <- <-. simpl.
  apply bind_inv in H2 as [([] & w2 & o3 & o4 & H3 & H4 & ->) | (e & H3 & _)].
  - by rewrite received_app, (drop_downstream_quiet _ _ _ _ _ _ H3),
      (unref_quiet _ _ _ _ _ _ H4).
  - by eapply drop_downstream_quiet.
Qed.

Lemma invoke_try_quiet s ev r w res w' out :
  Worker.invoke_try sb s ev r w = (res, w', out) → Written.received out = [].
Proof.
  unfold Worker.invoke_try.
  assert (Hbody : ∀ rb wb ob,
            Worker.bind (Worker.enter (Some r) (λ a, sb_invoke sb a ev r))
              (λ h, Worker.bind (Worker.emplace s (mk_io r h))
                 (λ stored : bool,
                    if stored then Worker.ret tt
                    else Worker.drop_downstream sb (Some r) h)) w
            = (rb, wb, ob) → Written.received ob = []).
  { intros rb wb ob
      [(h & wa & oa & o2 & He & Hk & ->) | (e & He & _)]%bind_inv;
      [|by eapply enter_quiet].
    rewrite received_app, (enter_quiet _ _ _ _ _ _ He). simpl.
    apply bind_inv in Hk as [(st & wc & oc & od & Hem & Hk & ->) | (e & Hem & _)].
    - unfold Worker.emplace in Hem.
      destruct (m_streams wa !! s); injection Hem as <- <- <-; simpl.
      + by eapply drop_downstream_quiet.
      + by injection Hk as _ _ <-.
    - unfold Worker.emplace in Hem. by destruct (m_streams wa !! s). }
  intros [(x & Hb & _) | (e & w1 & o1 & o2 & Hb & Hh & ->)]%try_catch_inv.
  - by eapply Hbody.
  - by rewrite received_app, (Hbody _ _ _ Hb), (upstream_call_quiet _ _ _ _ _ _ Hh).
Qed.

(** One dispatch belongs to one received message, and the only exception
    that can end it is the adapter's. *)
Lemma dispatch_received m w res w' out :
  Worker.dispatch sb m w = (res, w', out) →
  Written.received out = [rpc.type_of m] ∧
  ∀ e, res = Thrown e → e = stream_closed.
Proof.
  intros Hd. destruct m as [| | |s ev|s d| |s|];
    try (injection Hd as <- _ <-; by split).
  - (* invoke *)
    unfold Worker.dispatch in Hd.
    apply bind_inv in Hd as [([] & w1 & o1 & o2 & He & Hk & ->) | (e & [=] & _)].
    injection He as <- <-.
    apply bind_inv in Hk as [(r & w0 & o3 & o4 & Hm & Hk & ->) | (e & [=] & _)].
    injection Hm as <- <- <-.
    set (w0 := Worker.set_heap _ w) in *.
    apply bind_inv in Hk as [([] & w2 & o5 & o6 & Ht & Hu & ->) | (e & Ht & ->)].
    + split.
      * simpl. f_equal.
        by rewrite received_app, (invoke_try_quiet _ _ _ _ _ _ _ Ht),
          (unref_quiet _ _ _ _ _ _ Hu).
      * intros e ->.
        destruct (unref_spec None (length (m_heap w)) w2) as (w3 & o3 & Hu' & _).
        rewrite Hu' in Hu. discriminate Hu.
    + split.
      * simpl. f_equal. by eapply invoke_try_quiet.
      * intros e' [= <-].
        unfold Worker.invoke_try in Ht.
        apply try_catch_inv in Ht
          as [(x & _ & [=]) | (e0 & w1 & o1 & o2 & _ & Hh & _)].
        by apply upstream_call_thrown in Hh as (-> & _).
  - (* chunk *)
    split.
    + unfold Worker.dispatch in Hd.
      apply bind_inv in Hd as [([] & w1 & o1 & o2 & He & Hk & ->) | (e & [=] & _)].
      injection He as <- <-. simpl. f_equal.
      apply bind_inv in Hk as [(wg & w1 & o3 & o4 & Hg & Hk & ->) | (e & [=] & _)].
      injection Hg as <- <- <-. simpl.
      destruct (m_streams w !! s) as [io|]; [|by injection Hk as _ _ <-].
      apply try_catch_inv in Hk
        as [(x & Hb & _) | (e & w1 & o5 & o6 & Hb & Hh & ->)];
        [by eapply enter_quiet|].
      rewrite received_app, (enter_quiet _ _ _ _ _ _ Hb). simpl.
      apply bind_inv in Hh as [([] & w2 & o7 & o8 & Hc & He & ->) | (e' & Hc & _)];
        [|by eapply upstream_call_quiet].
      by rewrite received_app, (upstream_call_quiet _ _ _ _ _ _ Hc),
        (erase_quiet _ _ _ _ _ _ He).
    + intros e ->.
      destruct (dispatch_chunk_spec sb s d w) as (res2 & w2 & o2 & Hd2 & Hspec).
      rewrite Hd2 in Hd. injection Hd as -> _ _.
      destruct (m_streams w !! s); [|by destruct Hspec as (? & _)].
      destruct (result _); [by destruct Hspec as (? & _)|].
      destruct Hspec as [[? _] | [? _]]; congruence.
  - (* choke *)
    split.
    + unfold Worker.dispatch in Hd.
      apply bind_inv in Hd as [([] & w1 & o1 & o2 & He & Hk & ->) | (e & [=] & _)].
      injection He as <- <-. simpl. f_equal.
      apply bind_inv in Hk as [(wg & w1 & o3 & o4 & Hg & Hk & ->) | (e & [=] & _)].
      injection Hg as <- <- <-. simpl.
      destruct (m_streams w !! s) as [io|]; [|by injection Hk as _ _ <-].
      assert (Htry : ∀ rt wt ot,
                Worker.try_catch
                  (Worker.enter None (λ a, ds_close sb a (downstream io)))
                  (λ e, Worker.upstream_call (upstream io)
                          (Upstream.c_error invocation_error (what_of e))) w
                = (rt, wt, ot) → Written.received ot = []).
      { intros rt wt ot
          [(x & Hb & _) | (e & w1 & o5 & o6 & Hb & Hh & ->)]%try_catch_inv;
          [by eapply enter_quiet|].
        by rewrite received_app, (enter_quiet _ _ _ _ _ _ Hb),
          (upstream_call_quiet _ _ _ _ _ _ Hh). }
      apply bind_inv in Hk as [([] & w2 & o5 & o6 & Ht & He & ->) | (e & Ht & _)];
        [|by eapply Htry].
      by rewrite received_app, (Htry _ _ _ Ht), (erase_quiet _ _ _ _ _ _ He).
    + intros e ->.
      destruct (dispatch_choke_spec sb s w) as (res2 & w2 & o2 & Hd2 & Hspec).
      rewrite Hd2 in Hd. injection Hd as -> _ _.
      destruct (m_streams w !! s); [|by destruct Hspec as (? & _)].
      destruct Hspec as [[? _] | [? _]]; congruence.
Qed.

Lemma dispatch_all_received ms : ∀ w res w' out,
  Worker.dispatch_all sb ms w = (res, w', out) →
  ∃ k, (k ≤ length ms)%nat ∧
       Written.received out = rpc.type_of <$> take k ms ∧
       Worker.dispatch_all sb (take k ms) w = (res, w', out) ∧
       match res with
       | Returned _ => k = length ms
       | Thrown e => (0 < k)%nat ∧ e = stream_closed
       end.
Proof.
  induction ms as [|m ms IH]; intros w res w' out Hd.
  - injection Hd as <- <- <-. by exists 0%nat.
  - simpl in Hd.
    apply bind_inv in Hd as [([] & w1 & o1 & o2 & Hm & Hk & ->) | (e & Hm & ->)].
    + destruct (dispatch_received _ _ _ _ _ Hm) as [Hr1 _].
      destruct (IH _ _ _ _ Hk) as (k & Hle & Hr2 & Hk' & Hres).
      exists (S k). split; [simpl; lia|]. split; [|split].
      * by rewrite received_app, Hr1, Hr2.
      * simpl. unfold Worker.bind. by rewrite Hm, Hk'.
      * destruct res; [by rewrite Hres | split; [lia | by destruct Hres]].
    + destruct (dispatch_received _ _ _ _ _ Hm) as [Hr1 He].
      exists 1%nat. split; [simpl; lia|]. split; [|split].
      * by rewrite Hr1.
      * simpl. unfold Worker.bind. by rewrite Hm.
      * split; [lia | by apply He].
Qed.

(** X15: with a positive bulk size, a pass of [process] receives the
    first [k] queued messages, one after the other and each once, for
    some [k] that is at most the bound.  If the pass returns, [k] is the
    bound when at least that many messages are queued and the number of
    queued messages otherwise, the messages behind the first [k] are
    what the channel still holds, and the channel's descriptor has been
    fed back to the loop once when the bound was reached and not at all
    when the channel ran empty first.  If the pass ends by an exception,
    it is the exception of a closed adapter, raised by the dispatch of
    the last message received, and the descriptor has not been fed. *)
Theorem pass_is_bounded_and_fair_when_it_returns io_bulk_size q w res w' out :
  0 < io_bulk_size < 2 ^ 31 →
  Worker.process sb io_bulk_size q w = (res, w', out) →
  let bound := Z.to_nat io_bulk_size in
  ∃ k,
    (k ≤ bound)%nat ∧ (k ≤ length q)%nat ∧
    Written.received out = rpc.type_of <$> take k q ∧
    match res with
    | Returned rest =>
        k = Nat.min bound (length q) ∧
        rest = drop k q ∧
        fed (m_loop w')
        = (if bool_decide (bound ≤ length q)%nat
           then S (fed (m_loop w)) else fed (m_loop w))
    | Thrown e =>
        e = stream_closed ∧ (0 < k)%nat ∧
        fed (m_loop w') = fed (m_loop w) ∧
        Worker.dispatch_all sb (take k q) w = (Thrown e, w', out)
    end.
Proof.
  intros Hb Hp bound.
  destruct (process_cases sb io_bulk_size q w res w' out Hb Hp)
    as (r1 & w1 & Hd & Hcase).
  fold bound in Hd, Hcase.
  destruct (dispatch_all_keeps sb _ _ _ _ _ Hd) as (_ & _ & Hfed & _).
  destruct (dispatch_all_received _ _ _ _ _ Hd) as (k & Hle & Hrec & Hk & Hres).
  rewrite length_take in Hle, Hres.
  rewrite take_take in Hrec, Hk.
  replace (k `min` bound)%nat with k in Hrec, Hk by lia.
  exists k. split; [lia|]. split; [lia|]. split; [done|].
  destruct r1 as [[]|e].
  - destruct Hcase as [-> ->]. split; [lia|]. split.
    + subst k. destruct (decide (bound ≤ length q)%nat).
      * by replace (bound `min` length q)%nat with bound by lia.
      * rewrite !drop_ge; [done | lia | lia].
    + case_bool_decide; [simpl; by rewrite Hfed | done].
  - destruct Hcase as [-> ->]. destruct Hres as [Hpos ->].
    by repeat split.
Qed.

End Received.

Lemma pass_is_bounded_and_fair_when_it_returns_witness :
  0 < 2 < 2 ^ 31 ∧
  ∃ rest w' out,
    Worker.process Script.sandbox 2
      [rpc.heartbeat; rpc.chunk 9%N "x"; rpc.heartbeat] Script.fresh
    = (Returned rest, w', out) ∧
    Written.received out = [rpc.t_heartbeat; rpc.t_chunk] ∧
    rest = [rpc.heartbeat] ∧
    fed (m_loop w') = S (fed (m_loop Script.fresh)).
Proof.
  split; [lia|].
  destruct (Worker.process Script.sandbox 2
              [rpc.heartbeat; rpc.chunk 9%N "x"; rpc.heartbeat] Script.fresh)
    as [[res w'] out] eqn:Hp.
  destruct (pass_is_bounded_and_fair_when_it_returns Script.sandbox 2 _ _ _ _ _
              ltac:(lia) Hp) as (k & _ & _ & Hrec & Hres).
  destruct res as [rest|e].
  - destruct Hres as (-> & -> & Hfed).
    exists [rpc.heartbeat], w', out. repeat split; assumption.
  - exfalso. revert Hp. vm_compute. intros [=].
Defined.
